(** * meu-ip: client IP resolution from proxy headers

    A shallow embedding of [src/getClientIp.ts]: the two regular
    expressions of [regexes], [isIp], [getClientIpFromXForwardedFor] and
    [getClientIp], together with the parts of the ECMAScript run time
    they rely on (strings, [trim], [split], [includes], the backtracking
    regular expression matcher and [Headers.get]); and of the [fetch]
    handler of the server in [src/unnamed/part_000], with
    [JSON.stringify] as [Response.json] uses it. *)

From Stdlib Require Import String Ascii.
From Stdlib Require Decimal DecimalNat.
From Stdlib Require Import List NArith ZArith Bool Arith Lia.
Import ListNotations.
Local Open Scope string_scope.
Local Open Scope nat_scope.
Local Open Scope list_scope.

(** ** Strings

    An ECMAScript string is a finite sequence of 16-bit code units.  A
    code unit is modelled by its numeric value. *)

Definition code_unit := N.
Definition jsstring := list code_unit.

(** Rocq string literals denote strings of code units below 256. *)
Definition str (s : string) : jsstring :=
  List.map N_of_ascii (list_ascii_of_string s).

Definition chr (s : string) : code_unit :=
  match str s with c :: _ => c | [] => 0%N end.

Definition in_range (lo hi c : code_unit) : bool :=
  ((lo <=? c) && (c <=? hi))%N.

Fixpoint jsstring_eqb (s t : jsstring) : bool :=
  match s, t with
  | [], [] => true
  | a :: s', b :: t' => (a =? b)%N && jsstring_eqb s' t'
  | _, _ => false
  end.

(** WhiteSpace and LineTerminator code units (ECMA-262, 12.2 and 12.3),
    the characters [String.prototype.trim] strips. *)
Definition isLineTerminator (c : code_unit) : bool :=
  ((c =? 10) || (c =? 13) || (c =? 8232) || (c =? 8233))%N.

Definition isWhiteSpace (c : code_unit) : bool :=
  ((c =? 9) || (c =? 11) || (c =? 12) || (c =? 32) || (c =? 160)
   || (c =? 5760) || in_range 8192 8202 c || (c =? 8239) || (c =? 8287)
   || (c =? 12288) || (c =? 65279))%N.

Definition isTrimmed (c : code_unit) : bool :=
  isWhiteSpace c || isLineTerminator c.

Fixpoint trimStart (s : jsstring) : jsstring :=
  match s with
  | c :: s' => if isTrimmed c then trimStart s' else s
  | [] => []
  end.

Definition trimEnd (s : jsstring) : jsstring := rev (trimStart (rev s)).

(** [String.prototype.trim]. *)
Definition trim (s : jsstring) : jsstring := trimEnd (trimStart s).

(** [String.prototype.split] for a separator of one code unit, which is
    how the program calls it (["," ] and [":"]).  The empty string
    splits into one empty piece. *)
Fixpoint split (sep : code_unit) (s : jsstring) : list jsstring :=
  match s with
  | [] => [[]]
  | c :: s' =>
      if (c =? sep)%N then [] :: split sep s'
      else match split sep s' with
           | piece :: pieces => (c :: piece) :: pieces
           | [] => [[c]]
           end
  end.

(** [String.prototype.includes] for a search string of one code unit. *)
Definition includes (c : code_unit) (s : jsstring) : bool :=
  existsb (N.eqb c) s.

(** ** The regular expression matcher

    The matcher follows the continuation-passing semantics of ECMA-262,
    22.2.2 (Pattern Semantics), for the constructs the two patterns use.
    Neither pattern has the [u], [m] or [s] flag. *)

Inductive ClassAtom : Type :=
| CRange (lo hi : code_unit)      (* [a-b]; a single character is [a-a] *)
| CDigit.                         (* \d *)

Inductive regex : Type :=
| Empty
| Chr (c : code_unit)
| Dot
| Class (atoms : list ClassAtom)
| LineStart                       (* ^ *)
| LineEnd                         (* $ *)
| WordB                           (* \b *)
| Seq (r1 r2 : regex)
| Alt (r1 r2 : regex)
| Group (n : nat) (r : regex)     (* the n-th capturing group *)
| Quant (r : regex) (min : nat) (max : option nat)   (* greedy {min,max} *)
| Look (r : regex)                (* (?=r) *)
| NegLook (r : regex)             (* (?!r) *)
| BackRef (n : nat).              (* \n *)

(** A match state: the input is [rev before ++ after], the end index is
    [length before], and [captures] holds the text of every group
    ([None] is undefined). *)
Record State : Type := mkState {
  before : jsstring;
  after : jsstring;
  captures : list (option jsstring)
}.

Definition endIndex (x : State) : nat := length (before x).

Definition MatchResult := option State.
Definition Continuation := State -> MatchResult.
Definition Matcher := State -> Continuation -> MatchResult.

Definition get_cap (n : nat) (caps : list (option jsstring)) : option jsstring :=
  nth n caps None.

Fixpoint set_cap (n : nat) (v : option jsstring) (caps : list (option jsstring))
  : list (option jsstring) :=
  match caps, n with
  | [], _ => []
  | _ :: caps', O => v :: caps'
  | c :: caps', S n' => c :: set_cap n' v caps'
  end.

Definition clear_caps (parens : list nat) (caps : list (option jsstring))
  : list (option jsstring) :=
  fold_right (fun n acc => set_cap n None acc) caps parens.

(** The capturing groups inside a term, left to right. *)
Fixpoint parens (r : regex) : list nat :=
  match r with
  | Seq r1 r2 | Alt r1 r2 => parens r1 ++ parens r2
  | Group n r' => n :: parens r'
  | Quant r' _ _ | Look r' | NegLook r' => parens r'
  | _ => []
  end.

(** Canonicalize (22.2.5.6) without the [u] flag maps a code unit to its
    upper case; a code unit of 128 or more never canonicalizes to one
    below 128.  Every literal of the two patterns is below 128, so only
    the mapping of the ASCII letters matters and the others are left
    unchanged. *)
Definition toUpperCase (c : code_unit) : code_unit :=
  if in_range 97%N 122%N c then (c - 32)%N else c.

Definition toLowerCase (c : code_unit) : code_unit :=
  if in_range 65%N 90%N c then (c + 32)%N else c.

Definition Canonicalize (ignoreCase : bool) (c : code_unit) : code_unit :=
  if ignoreCase then toUpperCase c else c.

Definition isDigit (c : code_unit) : bool := in_range 48%N 57%N c.

(** IsWordChar: [A-Za-z0-9_]. *)
Definition IsWordChar (c : code_unit) : bool :=
  in_range 97%N 122%N c || in_range 65%N 90%N c || isDigit c || (c =? 95)%N.

Definition in_atom (a : ClassAtom) (c : code_unit) : bool :=
  match a with
  | CRange lo hi => in_range lo hi c
  | CDigit => isDigit c
  end.

(** Membership of a class: some member has the same canonical form as
    the input character. *)
Definition in_class (ignoreCase : bool) (atoms : list ClassAtom) (c : code_unit)
  : bool :=
  existsb (fun a =>
    in_atom a c
    || (ignoreCase && (in_atom a (toUpperCase c) || in_atom a (toLowerCase c))))
    atoms.

(** CharacterSetMatcher, in the forward direction. *)
Definition CharacterSetMatcher (accepts : code_unit -> bool) : Matcher :=
  fun x c =>
    match after x with
    | [] => None
    | ch :: rest =>
        if accepts ch then c (mkState (ch :: before x) rest (captures x))
        else None
    end.

(** IsWordChar at the end index and just before it. *)
Definition word_before (x : State) : bool :=
  match before x with ch :: _ => IsWordChar ch | [] => false end.

Definition word_after (x : State) : bool :=
  match after x with ch :: _ => IsWordChar ch | [] => false end.

(** The text matched between two states of one input. *)
Definition matched (x y : State) : jsstring :=
  firstn (length (after x) - length (after y)) (after x).

(** BackreferenceMatcher: a prefix of the rest of the input equal to the
    captured text, up to canonicalization. *)
Fixpoint back_match (ignoreCase : bool) (s : jsstring) (x : State) : option State :=
  match s with
  | [] => Some x
  | a :: s' =>
      match after x with
      | [] => None
      | ch :: rest =>
          if (Canonicalize ignoreCase a =? Canonicalize ignoreCase ch)%N
          then back_match ignoreCase s' (mkState (ch :: before x) rest (captures x))
          else None
      end
  end.

(** RepeatMatcher (22.2.2.3.1) for a greedy quantifier.  Every call
    either lowers [max], lowers [min], or, once [min] is zero, has moved
    the end index forward; [fuel] bounds the number of calls. *)
Fixpoint RepeatMatcher (fuel : nat) (m : Matcher) (min : nat) (max : option nat)
    (parenIndices : list nat) (x : State) (c : Continuation) : MatchResult :=
  match fuel with
  | O => None
  | S fuel' =>
      match max with
      | Some O => c x
      | _ =>
          let d : Continuation := fun y =>
            if (min =? 0) && (endIndex y =? endIndex x) then None
            else RepeatMatcher fuel' m (pred min) (option_map pred max)
                   parenIndices y c in
          let xr := mkState (before x) (after x)
                      (clear_caps parenIndices (captures x)) in
          if negb (min =? 0) then m xr d
          else match m xr d with
               | Some z => Some z
               | None => c x
               end
      end
  end.

Definition repeat_fuel (min : nat) (max : option nat) (x : State) : nat :=
  S (match max with
     | Some n => n
     | None => min + length (after x)
     end).

(** CompileSubpattern, CompileAtom and CompileAssertion. *)
Fixpoint compile (ignoreCase : bool) (r : regex) (x : State) (c : Continuation)
  {struct r} : MatchResult :=
  match r with
  | Empty => c x
  | Chr ch =>
      CharacterSetMatcher
        (fun a => (Canonicalize ignoreCase a =? Canonicalize ignoreCase ch)%N) x c
  | Dot => CharacterSetMatcher (fun a => negb (isLineTerminator a)) x c
  | Class atoms => CharacterSetMatcher (in_class ignoreCase atoms) x c
  | LineStart => match before x with [] => c x | _ :: _ => None end
  | LineEnd => match after x with [] => c x | _ :: _ => None end
  | WordB => if xorb (word_before x) (word_after x) then c x else None
  | Seq r1 r2 => compile ignoreCase r1 x (fun y => compile ignoreCase r2 y c)
  | Alt r1 r2 =>
      match compile ignoreCase r1 x c with
      | Some z => Some z
      | None => compile ignoreCase r2 x c
      end
  | Group n r' =>
      compile ignoreCase r' x (fun y =>
        c (mkState (before y) (after y)
             (set_cap n (Some (matched x y)) (captures y))))
  | Quant r' min max =>
      RepeatMatcher (repeat_fuel min max x) (compile ignoreCase r') min max
        (parens r') x c
  | Look r' =>
      match compile ignoreCase r' x (fun y => Some y) with
      | Some y => c (mkState (before x) (after x) (captures y))
      | None => None
      end
  | NegLook r' =>
      match compile ignoreCase r' x (fun y => Some y) with
      | Some _ => None
      | None => c x
      end
  | BackRef n =>
      match get_cap n (captures x) with
      | None => c x
      | Some s =>
          match back_match ignoreCase s x with
          | Some y => c y
          | None => None
          end
      end
  end.

(** A compiled pattern with its flag and its number of capturing groups. *)
Record RegExp : Type := mkRegExp {
  pattern : regex;
  ignoreCase : bool;
  nCaptures : nat
}.

(** RegExpBuiltinExec for a pattern that is neither global nor sticky:
    the match is attempted at every start index from 0 on. *)
Fixpoint exec_from (re : RegExp) (bef aft : jsstring) : bool :=
  match compile (ignoreCase re) (pattern re)
          (mkState bef aft (repeat None (S (nCaptures re)))) (fun y => Some y) with
  | Some _ => true
  | None =>
      match aft with
      | [] => false
      | ch :: aft' => exec_from re (ch :: bef) aft'
      end
  end.

(** [RegExp.prototype.test]. *)
Definition test (re : RegExp) (s : jsstring) : bool := exec_from re [] s.

(** ** The two patterns of [regexes] *)

Definition seq (rs : list regex) : regex := fold_right Seq Empty rs.
Definition lit (s : string) : regex := Chr (chr s).
Definition range (lo hi : string) : ClassAtom := CRange (chr lo) (chr hi).
Definition digit : regex := Class [CDigit].                 (* \d *)
Definition opt (r : regex) : regex := Quant r 0 (Some 1).   (* r? *)
Definition times (n : nat) (r : regex) : regex := Quant r n (Some n).  (* r{n} *)
Definition star (r : regex) : regex := Quant r 0 None.      (* r* *)
Definition plus (r : regex) : regex := Quant r 1 None.      (* r+ *)

(** [(?:\d|[1-9]\d|1\d{2}|2[0-4]\d|25[0-5])] *)
Definition octet : regex :=
  Alt digit
 (Alt (seq [Class [range "1" "9"]; digit])
 (Alt (seq [lit "1"; times 2 digit])
 (Alt (seq [lit "2"; Class [range "0" "4"]; digit])
      (seq [lit "2"; lit "5"; Class [range "0" "5"]])))).

(** [/^(?:(?:\d|[1-9]\d|1\d{2}|2[0-4]\d|25[0-5])\.){3}(?:\d|[1-9]\d|1\d{2}|2[0-4]\d|25[0-5])$/] *)
Definition ipv4_pattern : regex :=
  seq [LineStart; times 3 (seq [octet; lit "."]); octet; LineEnd].

Definition hex : regex := Class [CDigit; range "A" "F"].    (* [\dA-F] *)
Definition hex14 : regex := Quant hex 1 (Some 4).           (* [\dA-F]{1,4} *)
Definition colons : regex := seq [lit ":"; lit ":"].        (* :: *)

(** [(::)] *)
Definition group2 : regex := Group 2 colons.
(** [(:|\b)] *)
Definition group4 : regex := Group 4 (Alt (lit ":") WordB).
(** [([\dA-F]{1,4}:(:|\b)|)] *)
Definition group3 : regex := Group 3 (Alt (seq [hex14; lit ":"; group4]) Empty).
(** [([\dA-F]{1,4}:)] *)
Definition group5 : regex := Group 5 (seq [hex14; lit ":"]).
(** [(?=.*::)] and [(?!.*::.+::)] *)
Definition has_compression : regex := Look (seq [star Dot; colons]).
Definition no_second_compression : regex :=
  NegLook (seq [star Dot; colons; plus Dot; colons]).
(** [((?=.*::)(?!.*::.+::)(::)?([\dA-F]{1,4}:(:|\b)|){5}|([\dA-F]{1,4}:){6})] *)
Definition group1 : regex :=
  Group 1
    (Alt (seq [has_compression; no_second_compression; opt group2; times 5 group3])
         (times 6 group5)).

(** [((?!\3)::|:\b|$)] *)
Definition group9 : regex :=
  Group 9
    (Alt (seq [NegLook (BackRef 3); colons])
    (Alt (seq [lit ":"; WordB])
         LineEnd)).
(** [([\dA-F]{1,4}((?!\3)::|:\b|$))] *)
Definition group8 : regex := Group 8 (seq [hex14; group9]).
(** [(([\dA-F]{1,4}((?!\3)::|:\b|$))|(?!\2\3))] *)
Definition group7 : regex :=
  Group 7 (Alt group8 (NegLook (seq [BackRef 2; BackRef 3]))).

(** [(2[0-4]|1\d|[1-9])] *)
Definition group12 : regex :=
  Group 12
    (Alt (seq [lit "2"; Class [range "0" "4"]])
    (Alt (seq [lit "1"; digit])
         (Class [range "1" "9"]))).
(** [((2[0-4]|1\d|[1-9])?\d|25[0-5])] *)
Definition group11 : regex :=
  Group 11
    (Alt (seq [opt group12; digit])
         (seq [lit "2"; lit "5"; Class [range "0" "5"]])).
(** [(((2[0-4]|1\d|[1-9])?\d|25[0-5])\.?\b)] *)
Definition group10 : regex := Group 10 (seq [group11; opt (lit "."); WordB]).

(** [(( ... ){2}|( ... ){4})] *)
Definition group6 : regex := Group 6 (Alt (times 2 group7) (times 4 group10)).

(** [/^((?=.*::)(?!.*::.+::)(::)?([\dA-F]{1,4}:(:|\b)|){5}|([\dA-F]{1,4}:){6})((([\dA-F]{1,4}((?!\3)::|:\b|$))|(?!\2\3)){2}|(((2[0-4]|1\d|[1-9])?\d|25[0-5])\.?\b){4})$/i] *)
Definition ipv6_pattern : regex := seq [LineStart; group1; group6; LineEnd].

Module regexes.
Definition ipv4 : RegExp := mkRegExp ipv4_pattern false 0.
Definition ipv6 : RegExp := mkRegExp ipv6_pattern true 12.
End regexes.

(** ** Values

    The values a caller can pass at run time: the declared parameter
    type [string | null | undefined] and, for the [typeof] guard of
    [getClientIpFromXForwardedFor], values outside it (booleans,
    integral numbers, objects). *)

Inductive MaybeString : Type :=
| Undefined
| Null
| Str (s : jsstring).

Inductive JsValue : Type :=
| JsUndefined
| JsNull
| JsString (s : jsstring)
| JsBoolean (b : bool)
| JsNumber (z : Z)
| JsObject.

Definition to_value (v : MaybeString) : JsValue :=
  match v with
  | Undefined => JsUndefined
  | Null => JsNull
  | Str s => JsString s
  end.

(** ToBoolean. *)
Definition ToBoolean (v : JsValue) : bool :=
  match v with
  | JsUndefined | JsNull => false
  | JsString s => match s with [] => false | _ :: _ => true end
  | JsBoolean b => b
  | JsNumber z => negb (z =? 0)%Z
  | JsObject => true
  end.

(** The [typeof] operator. *)
Definition typeof (v : JsValue) : jsstring :=
  match v with
  | JsUndefined => str "undefined"
  | JsNull | JsObject => str "object"
  | JsString _ => str "string"
  | JsBoolean _ => str "boolean"
  | JsNumber _ => str "number"
  end.

(** Completions: a normal return or a thrown error.  [TypeError] is the
    only error the program constructs. *)
Inductive Error : Type :=
| TypeError (message : jsstring).

Inductive completion (A : Type) : Type :=
| Normal (a : A)
| Throw (e : Error).

Arguments Normal {A} a.
Arguments Throw {A} e.

Definition bind {A B : Type} (m : completion A) (k : A -> completion B)
  : completion B :=
  match m with
  | Normal a => k a
  | Throw e => Throw e
  end.

Notation "x <- m ;; k" := (bind m (fun x => k))
  (at level 61, m at next level, right associativity).

(** ** [isIp]

    [value && (regexes.ipv4.test(value) || regexes.ipv6.test(value))]:
    a falsy [value] is returned as it is, otherwise the boolean. *)
Definition isIp (value : MaybeString) : JsValue :=
  match value with
  | Str s =>
      if ToBoolean (JsString s)
      then JsBoolean (test regexes.ipv4 s || test regexes.ipv6 s)
      else JsString s
  | Undefined => JsUndefined
  | Null => JsNull
  end.

(** The outcome of [isIp] where the program uses it, as a condition. *)
Definition accepts (value : MaybeString) : bool := ToBoolean (isIp value).

(** ** [getClientIpFromXForwardedFor] *)

Definition colon : code_unit := chr ":".
Definition comma : code_unit := chr ",".
Definition quote : code_unit := 34%N.

(** The callback of [map]: the token trimmed, and cut at its colon when
    it has exactly one. *)
Definition clean (e : jsstring) : jsstring :=
  let ip := trim e in
  if includes colon ip then
    let splitted := split colon ip in
    if length splitted =? 2 then nth 0 splitted [] else ip
  else ip.

(** The [for] loop over [forwardedIps], from index [i], with [remaining]
    iterations left before [i] reaches the length. *)
Fixpoint first_ip (forwardedIps : list jsstring) (remaining i : nat) : MaybeString :=
  match remaining with
  | O => Null
  | S remaining' =>
      if accepts (Str (nth i forwardedIps []))
      then Str (nth i forwardedIps [])
      else first_ip forwardedIps remaining' (S i)
  end.

(** The code units of a value whose [typeof] is ["string"]. *)
Definition string_value (v : JsValue) : jsstring :=
  match v with
  | JsString s => s
  | _ => []
  end.

Definition getClientIpFromXForwardedFor (value : JsValue) : completion MaybeString :=
  if negb (ToBoolean value) then Normal Null
  else if negb (jsstring_eqb (typeof value) (str "string")) then
    Throw (TypeError
             (str "Expected a string, got " ++ [quote] ++ typeof value ++ [quote]))
  else
    let forwardedIps := List.map clean (split comma (string_value value)) in
    Normal (first_ip forwardedIps (length forwardedIps) 0).

(** ** Requests and [Headers.get]

    A header list holds (name, value) pairs.  [get] compares names
    without regard to ASCII case and joins the values of all matching
    headers with a comma and a space (Fetch standard, "get a header");
    it returns [null] when there is none. *)
Definition Headers := list (jsstring * jsstring).

Definition byteLowercase (s : jsstring) : jsstring := List.map toLowerCase s.

Definition same_name (a b : jsstring) : bool :=
  jsstring_eqb (byteLowercase a) (byteLowercase b).

Fixpoint join (sep : jsstring) (l : list jsstring) : jsstring :=
  match l with
  | [] => []
  | [s] => s
  | s :: l' => s ++ sep ++ join sep l'
  end.

Definition get (h : Headers) (name : string) : MaybeString :=
  match filter (fun kv => same_name (fst kv) (str name)) h with
  | [] => Null
  | kvs => Str (join (str ", ") (List.map snd kvs))
  end.

Record Request : Type := mkRequest {
  headers : option Headers
}.

(** ** [getClientIp]

    Each block either returns a value ([Some]) or falls through
    ([None]) to the statement after it. *)

(** The first [if (req.headers) { ... }]. *)
Definition proxy_headers (h : Headers) : completion (option MaybeString) :=
  if accepts (get h "x-client-ip") then Normal (Some (get h "x-client-ip")) else
  xForwardedFor <- getClientIpFromXForwardedFor (to_value (get h "x-forwarded-for")) ;;
  if accepts xForwardedFor then Normal (Some xForwardedFor) else
  if accepts (get h "cf-connecting-ip") then Normal (Some (get h "cf-connecting-ip")) else
  if accepts (get h "do-connecting-ip") then Normal (Some (get h "do-connecting-ip")) else
  if accepts (get h "fastly-client-ip") then Normal (Some (get h "fastly-client-ip")) else
  if accepts (get h "true-client-ip") then Normal (Some (get h "true-client-ip")) else
  if accepts (get h "x-real-ip") then Normal (Some (get h "x-real-ip")) else
  if accepts (get h "x-cluster-client-ip") then Normal (Some (get h "x-cluster-client-ip")) else
  if accepts (get h "x-forwarded") then Normal (Some (get h "x-forwarded")) else
  if accepts (get h "forwarded-for") then Normal (Some (get h "forwarded-for")) else
  if accepts (get h "forwarded") then Normal (Some (get h "forwarded")) else
  if accepts (get h "x-appengine-user-ip") then Normal (Some (get h "x-appengine-user-ip")) else
  Normal None.

(** The second [if (req.headers) { ... }], the Cloudflare fallback. *)
Definition cloudflare_fallback (h : Headers) : option MaybeString :=
  if accepts (get h "Cf-Pseudo-IPv4") then Some (get h "Cf-Pseudo-IPv4") else None.

Definition getClientIp (req : Request) : completion MaybeString :=
  returned <- match headers req with
              | Some h => proxy_headers h
              | None => Normal None
              end ;;
  match returned with
  | Some ip => Normal ip
  | None =>
      match match headers req with
            | Some h => cloudflare_fallback h
            | None => None
            end with
      | Some ip => Normal ip
      | None => Normal Null
      end
  end.

(** ** The server

    [src/unnamed/part_000] serves every request with
    [Response.json({ ip: getClientIp(req) })]. *)

(** *** [JSON.stringify]

    QuoteJSONString and SerializeJSONObject (ECMA-262, 25.5.2), for an
    object whose properties hold strings, [null] or [undefined], and
    without indentation. *)

Definition isLeadingSurrogate (c : code_unit) : bool := in_range 55296%N 56319%N c.
Definition isTrailingSurrogate (c : code_unit) : bool := in_range 56320%N 57343%N c.

Definition hexDigitLower (n : N) : code_unit :=
  if (n <? 10)%N then (48 + n)%N else (87 + n)%N.

(** UnicodeEscape: a backslash, [u] and four lower case hexadecimal
    digits. *)
Definition UnicodeEscape (c : code_unit) : jsstring :=
  [92%N; 117%N;
   hexDigitLower ((c / 4096) mod 16); hexDigitLower ((c / 256) mod 16);
   hexDigitLower ((c / 16) mod 16); hexDigitLower (c mod 16)].

(** The code units with an escape sequence of their own: backspace,
    tab, line feed, form feed, carriage return, the double quote and
    the backslash. *)
Definition escape (c : code_unit) : option jsstring :=
  if (c =? 8)%N then Some [92%N; 98%N]
  else if (c =? 9)%N then Some [92%N; 116%N]
  else if (c =? 10)%N then Some [92%N; 110%N]
  else if (c =? 12)%N then Some [92%N; 102%N]
  else if (c =? 13)%N then Some [92%N; 114%N]
  else if (c =? 34)%N then Some [92%N; 34%N]
  else if (c =? 92)%N then Some [92%N; 92%N]
  else None.

(** The code points of the string, one after the other: a surrogate
    pair is kept, a lone surrogate and a control character are
    escaped. *)
Fixpoint quoted (s : jsstring) : jsstring :=
  match s with
  | [] => []
  | c :: s' =>
      match escape c with
      | Some e => e ++ quoted s'
      | None =>
          if (c <? 32)%N then UnicodeEscape c ++ quoted s'
          else if isLeadingSurrogate c then
            match s' with
            | d :: s'' =>
                if isTrailingSurrogate d then c :: d :: quoted s''
                else UnicodeEscape c ++ quoted s'
            | [] => UnicodeEscape c
            end
          else if isTrailingSurrogate c then UnicodeEscape c ++ quoted s'
          else c :: quoted s'
      end
  end.

Definition QuoteJSONString (s : jsstring) : jsstring :=
  [quote] ++ quoted s ++ [quote].

(** SerializeJSONProperty: a property that holds [undefined] is left
    out. *)
Definition SerializeJSONProperty (v : MaybeString) : option jsstring :=
  match v with
  | Undefined => None
  | Null => Some (str "null")
  | Str s => Some (QuoteJSONString s)
  end.

(** An object literal: its properties in the order they are written. *)
Definition JsonObject := list (jsstring * MaybeString).

Definition SerializeJSONObject (value : JsonObject) : jsstring :=
  let partial :=
    flat_map (fun kv =>
                match SerializeJSONProperty (snd kv) with
                | Some strP => [QuoteJSONString (fst kv) ++ [colon] ++ strP]
                | None => []
                end) value in
  match partial with
  | [] => str "{}"
  | _ :: _ => str "{" ++ join [comma] partial ++ str "}"
  end.

(** *** [Response.json] and [fetch]

    Of the response, the text of its body; the platform sends it
    encoded as UTF-8. *)
Record Response : Type := mkResponse {
  body : jsstring
}.

Definition Response_json (data : JsonObject) : Response :=
  mkResponse (SerializeJSONObject data).

Definition fetch (req : Request) : completion Response :=
  ip <- getClientIp req ;;
  Normal (Response_json [(str "ip", ip)]).

(** * Specification

    The vocabulary of the statements proved below: a declarative
    reading of the matcher, the text forms of addresses, and the
    header chain as a table. *)

(** ** A declarative reading of the matcher

    [Sem ic r x y]: the term [r] can take the match state [x] to [y],
    with [ic] the ignore-case flag.  The relation has no continuation
    and no fuel; [compile_adequate] below shows that the matcher finds a
    match exactly when the relation has one. *)

(** One character accepted by [P] is consumed. *)
Definition step (P : code_unit -> Prop) (x y : State) : Prop :=
  exists ch rest,
    after x = ch :: rest /\ P ch /\
    y = mkState (ch :: before x) rest (captures x).

(** The state with the captures of the groups [ps] made undefined. *)
Definition cleared (ps : list nat) (x : State) : State :=
  mkState (before x) (after x) (clear_caps ps (captures x)).

(** The iterations of a greedy quantifier over the relation [R] of its
    body. *)
Inductive Rep (R : State -> State -> Prop) (ps : list nat)
  : nat -> option nat -> State -> State -> Prop :=
| Rep_done : forall min max x,
    min = 0 \/ max = Some 0 -> Rep R ps min max x x
| Rep_more : forall min max x y z,
    max <> Some 0 ->
    R (cleared ps x) y ->
    (min = 0 -> endIndex y <> endIndex x) ->
    Rep R ps (pred min) (option_map pred max) y z ->
    Rep R ps min max x z.

Fixpoint Sem (ic : bool) (r : regex) (x y : State) {struct r} : Prop :=
  match r with
  | Empty => y = x
  | Chr ch => step (fun a => Canonicalize ic a = Canonicalize ic ch) x y
  | Dot => step (fun a => isLineTerminator a = false) x y
  | Class atoms => step (fun a => in_class ic atoms a = true) x y
  | LineStart => before x = [] /\ y = x
  | LineEnd => after x = [] /\ y = x
  | WordB => xorb (word_before x) (word_after x) = true /\ y = x
  | Seq r1 r2 => exists m, Sem ic r1 x m /\ Sem ic r2 m y
  | Alt r1 r2 => Sem ic r1 x y \/ Sem ic r2 x y
  | Group n r' =>
      exists m, Sem ic r' x m /\
        y = mkState (before m) (after m)
              (set_cap n (Some (matched x m)) (captures m))
  | Quant r' min max => Rep (Sem ic r') (parens r') min max x y
  | Look r' =>
      exists m, Sem ic r' x m /\ y = mkState (before x) (after x) (captures m)
  | NegLook r' => (forall m, ~ Sem ic r' x m) /\ y = x
  | BackRef n =>
      match get_cap n (captures x) with
      | None => y = x
      | Some s => back_match ic s x = Some y
      end
  end.

(** A lookahead [(?=r)] keeps the captures of the first match of [r];
    the relation is exact when [r] has no group, which holds for both
    patterns. *)
Fixpoint wf (r : regex) : bool :=
  match r with
  | Seq r1 r2 | Alt r1 r2 => wf r1 && wf r2
  | Group _ r' | Quant r' _ _ | NegLook r' => wf r'
  | Look r' => wf r' && match parens r' with [] => true | _ :: _ => false end
  | _ => true
  end.

(** [y] is reached from [x] by reading [w]. *)
Definition reads (w : jsstring) (x y : State) : Prop :=
  after x = w ++ after y /\ before y = rev w ++ before x.

(** A matcher finds only matches of [R], and finds one whenever [R] has
    one that the continuation accepts. *)
Definition sound (m : Matcher) (R : State -> State -> Prop) : Prop :=
  forall x c z, m x c = Some z -> exists y, R x y /\ c y = Some z.

Definition complete (m : Matcher) (R : State -> State -> Prop) : Prop :=
  forall x y c z, R x y -> c y = Some z -> m x c <> None.

(** The state in which a match attempt starts, no group defined. *)
Definition start (re : RegExp) (bef aft : jsstring) : State :=
  mkState bef aft (repeat None (S (nCaptures re))).

(** ** Texts

    The digits and the letters a to f, in either case. *)
Definition hexdigit (a : code_unit) : Prop :=
  isDigit a = true \/ in_range 65%N 70%N a = true \/ in_range 97%N 102%N a = true.

(** [n] rounds of the relation [R]. *)
Fixpoint iter (R : State -> State -> Prop) (n : nat) (x z : State) : Prop :=
  match n with
  | O => z = x
  | S n' => exists y, R x y /\ iter R n' y z
  end.

(** [y] is [x] after reading [w], with the same captures. *)
Definition moved (w : jsstring) (x y : State) : Prop :=
  reads w x y /\ captures y = captures x.

(** The digits of a decimal numeral as code units. *)
Fixpoint uint_chars (u : Decimal.uint) : jsstring :=
  match u with
  | Decimal.Nil => []
  | Decimal.D0 u' => 48%N :: uint_chars u'
  | Decimal.D1 u' => 49%N :: uint_chars u'
  | Decimal.D2 u' => 50%N :: uint_chars u'
  | Decimal.D3 u' => 51%N :: uint_chars u'
  | Decimal.D4 u' => 52%N :: uint_chars u'
  | Decimal.D5 u' => 53%N :: uint_chars u'
  | Decimal.D6 u' => 54%N :: uint_chars u'
  | Decimal.D7 u' => 55%N :: uint_chars u'
  | Decimal.D8 u' => 56%N :: uint_chars u'
  | Decimal.D9 u' => 57%N :: uint_chars u'
  end.

(** The decimal numeral of a natural number, as [String(n)] prints it:
    no sign, no leading zero. *)
Definition decimal (n : nat) : jsstring := uint_chars (Nat.to_uint n).

(** The dot between the octets. *)
Definition dot : code_unit := chr ".".

(** Numbers written in decimal and separated by dots. *)
Definition dotted (l : list nat) : jsstring := join [dot] (List.map decimal l).

(** The value of a numeral. *)
Definition numeral_value (w : jsstring) : nat :=
  fold_left (fun acc c => 10 * acc + N.to_nat (c - 48)) w 0.

(** The words of [(?:\d|[1-9]\d|1\d{2}|2[0-4]\d|25[0-5])]. *)
Definition octet_text (w : jsstring) : bool :=
  match w with
  | [a] => isDigit a
  | [a; b] => in_range 49%N 57%N a && isDigit b
  | [a; b; c] =>
      ((a =? 49)%N && isDigit b && isDigit c)
      || ((a =? 50)%N && in_range 48%N 52%N b && isDigit c)
      || ((a =? 50)%N && (b =? 53)%N && in_range 48%N 53%N c)
  | _ => false
  end.

(** The text begins with a colon. *)
Definition starts_colon (t : jsstring) : bool :=
  match t with
  | c :: _ => (c =? colon)%N
  | [] => false
  end.

(** The number of places where two colons stand side by side. *)
Fixpoint compressions (t : jsstring) : nat :=
  match t with
  | [] => 0
  | a :: t' => (if (a =? colon)%N && starts_colon t' then 1 else 0) + compressions t'
  end.

(** Three colons in a row somewhere. *)
Fixpoint triple_colon (t : jsstring) : bool :=
  match t with
  | [] => false
  | a :: t' =>
      ((a =? colon)%N && starts_colon t' && starts_colon (tl t')) || triple_colon t'
  end.

(** A text without colon. *)
Definition no_colon (u : jsstring) : Prop := Forall (fun c => c <> colon) u.

(** A group of an IPv6 address: one to four hexadecimal digits. *)
Definition hexgroup (h : jsstring) : Prop :=
  1 <= length h <= 4 /\ Forall hexdigit h.

(** The characters an address is written with. *)
Definition address_char (c : code_unit) : Prop :=
  hexdigit c \/ c = colon \/ c = dot.

(** A text [.] can read: no line terminator. *)
Definition no_line (w : jsstring) : Prop :=
  Forall (fun a => isLineTerminator a = false) w.

(** A digit, a letter a to f, or a dot. *)
Definition word_char (c : code_unit) : Prop := hexdigit c \/ c = dot.

(** What one round of a group reads: nothing, or a word of digits,
    letters and dots followed by at most two colons. *)
Definition piece (w : jsstring) : Prop :=
  w = [] \/
  exists u v, u <> [] /\ Forall word_char u /\
              (v = [] \/ v = [colon] \/ v = [colon; colon]) /\ w = u ++ v.

(** The same with at most one colon. *)
Definition piece1 (w : jsstring) : Prop :=
  w = [] \/
  exists u v, u <> [] /\ Forall word_char u /\
              (v = [] \/ v = [colon]) /\ w = u ++ v.

(** A text that can stand behind a piece: written with the characters
    of an address, without three colons in a row, not starting with a
    colon. *)
Definition tidy (t : jsstring) : Prop :=
  Forall address_char t /\ triple_colon t = false /\ starts_colon t = false.

(** The same without any compression. *)
Definition plain (t : jsstring) : Prop :=
  compressions t = 0 /\ starts_colon t = false.

(** A text of digits. *)
Definition digits (w : jsstring) : Prop := Forall (fun c => isDigit c = true) w.

(** Where a match stands: the text behind and ahead, the second and
    third captures, and all thirteen capture slots in place. *)
Definition at_ (b t : jsstring) (c2 c3 : option jsstring) (x : State) : Prop :=
  before x = b /\ after x = t /\
  get_cap 2 (captures x) = c2 /\ get_cap 3 (captures x) = c3 /\
  length (captures x) = 13.

(** The text begins with a digit, a letter or an underscore. *)
Definition starts_word (t : jsstring) : bool :=
  match t with
  | c :: _ => IsWordChar c
  | [] => false
  end.

(** A group with the colon or the two colons behind it. *)
Definition item : Type := (jsstring * bool)%type.

(** The text of an item and of a list of items. *)
Definition item_text (i : item) : jsstring :=
  fst i ++ (if snd i then [colon; colon] else [colon]).

Definition items_text (its : list item) : jsstring :=
  concat (List.map item_text its).

(** Every item is a group of hexadecimal digits, and one colon is
    followed by a digit or a letter. *)
Fixpoint chain (its : list item) (t : jsstring) : Prop :=
  match its with
  | [] => True
  | i :: its' =>
      hexgroup (fst i) /\
      (snd i = true \/ starts_word (items_text its' ++ t) = true) /\
      chain its' t
  end.

(** One round of the quantified third, fifth, seventh and tenth group. *)
Definition round3 (x y : State) : Prop :=
  Sem true group3 (cleared (parens group3) x) y.

(** The third capture after a run of rounds: the text of the last one. *)
Fixpoint last_cap (its : list item) (c3 : option jsstring) : option jsstring :=
  match its with
  | [] => c3
  | i :: its' => last_cap its' (Some (item_text i))
  end.

Definition round5 (x y : State) : Prop :=
  Sem true group5 (cleared (parens group5) x) y.

Definition round7 (x y : State) : Prop :=
  Sem true group7 (cleared (parens group7) x) y.

Definition round10 (x y : State) : Prop :=
  Sem true group10 (cleared (parens group10) x) y.

(** The captures that stop [\2\3] from matching at the end of the text. *)
Definition blocked (c2 c3 : option jsstring) : Prop :=
  (exists a s, c2 = Some (a :: s)) \/
  (c2 = None /\ exists a s, c3 = Some (a :: s)).

(** Where a match stands, the captures left aside. *)
Definition pos_ (b t : jsstring) (x : State) : Prop :=
  before x = b /\ after x = t.

(** The number of items with two colons, and the lists without any. *)
Definition doubles (its : list item) : nat :=
  length (filter (fun i : item => snd i) its).

(** A capture that begins with a digit or a letter. *)
Definition hexhead (c3 : option jsstring) : Prop :=
  exists c u, c3 = Some (c :: u) /\ hexdigit c.

Definition singles (its : list item) : Prop :=
  Forall (fun i : item => snd i = false) its.

(** The text [(::)?] reads and the second capture it leaves. *)
Definition lead_text (ld : bool) : jsstring :=
  if ld then [colon; colon] else [].

Definition lead_cap (ld : bool) : option jsstring :=
  if ld then Some [colon; colon] else None.

(** One for a last group, none for an empty end. *)
Definition final_count (fin : jsstring) : nat :=
  match fin with [] => 0 | _ :: _ => 1 end.

(** A text without colon written with the characters of an address:
    nothing, a last group, or a dotted quad. *)
Definition ending (fin : jsstring) : Prop :=
  no_colon fin /\ Forall address_char fin.

(** ** IPv6 literals

    The text forms of an address (RFC 4291, 2.2): eight groups of one to
    four hexadecimal digits separated by colons; the same with one run
    of groups replaced by [::]; and either with the last two groups
    written as a dotted quad. *)
Definition groups (gs : list jsstring) : jsstring := join [colon] gs.

Inductive ipv6_literal : jsstring -> Prop :=
| ipv6_full : forall gs,
    length gs = 8 -> Forall hexgroup gs ->
    ipv6_literal (groups gs)
| ipv6_full_quad : forall gs a b c d,
    length gs = 6 -> Forall hexgroup gs ->
    a <= 255 -> b <= 255 -> c <= 255 -> d <= 255 ->
    ipv6_literal (groups (gs ++ [dotted [a; b; c; d]]))
| ipv6_compressed : forall pre post,
    length pre + length post <= 7 ->
    Forall hexgroup pre -> Forall hexgroup post ->
    ipv6_literal (groups pre ++ [colon; colon] ++ groups post)
| ipv6_compressed_quad : forall pre post a b c d,
    length pre + length post <= 5 ->
    Forall hexgroup pre -> Forall hexgroup post ->
    a <= 255 -> b <= 255 -> c <= 255 -> d <= 255 ->
    ipv6_literal (groups pre ++ [colon; colon] ++
                  groups (post ++ [dotted [a; b; c; d]])).

(** A group as an item with one colon. *)
Definition single (h : jsstring) : item := (h, false).

(** ** The header chain, as a table

    The order in which the headers are tried, earlier first. *)
Definition priority : list string :=
  ["x-client-ip"; "x-forwarded-for"; "cf-connecting-ip"; "do-connecting-ip";
   "fastly-client-ip"; "true-client-ip"; "x-real-ip"; "x-cluster-client-ip";
   "x-forwarded"; "forwarded-for"; "forwarded"; "x-appengine-user-ip";
   "cf-pseudo-ipv4"].

(** What one header yields: its value when [isIp] accepts it, and for
    [x-forwarded-for] the result of the decomposer. *)
Definition header_ip (h : Headers) (name : string) : option MaybeString :=
  if String.eqb name "x-forwarded-for" then
    match getClientIpFromXForwardedFor (to_value (get h name)) with
    | Normal v => if accepts v then Some v else None
    | Throw _ => None
    end
  else if accepts (get h name) then Some (get h name) else None.

(** The first header of the list that yields an address. *)
Fixpoint first_valid (h : Headers) (names : list string) : MaybeString :=
  match names with
  | [] => Null
  | name :: rest =>
      match header_ip h name with
      | Some v => v
      | None => first_valid h rest
      end
  end.

(** A header of a request. *)
Definition header (name value : string) : jsstring * jsstring :=
  (str name, str value).

(** The headers tried before the fallback. *)
Definition listed : list string := removelast priority.

(** A check of [hexgroup] by computation. *)
Definition hexgroup_check (h : jsstring) : bool :=
  (1 <=? length h) && (length h <=? 4)
  && forallb (fun a => isDigit a || in_range 65%N 70%N a || in_range 97%N 102%N a) h.

(** ** Addresses, tokens and header lines *)

(** A text of the characters [trim] strips. *)
Definition whitespace (w : jsstring) : Prop :=
  Forall (fun c => isTrimmed c = true) w.

(** The first text of a list that [isIp] accepts, [null] when there is
    none. *)
Fixpoint first_accepted (l : list jsstring) : MaybeString :=
  match l with
  | [] => Null
  | t :: l' => if accepts (Str t) then Str t else first_accepted l'
  end.

(** The values of the header lines with a given name, in the order of
    the request. *)
Definition values (h : Headers) (name : string) : list jsstring :=
  List.map snd (filter (fun kv => same_name (fst kv) (str name)) h).

(** The request without the header lines of a given name. *)
Definition without (h : Headers) (name : string) : Headers :=
  filter (fun kv => negb (same_name (fst kv) (str name))) h.

(** An address as [isIp] takes it: a dotted quad of numbers up to 255,
    or an IPv6 literal. *)
Definition address (s : jsstring) : Prop :=
  (exists a b c d,
     a <= 255 /\ b <= 255 /\ c <= 255 /\ d <= 255 /\ s = dotted [a; b; c; d])
  \/ ipv6_literal s.

(** A code unit [JSON.stringify] writes as it is. *)
Definition json_plain (c : code_unit) : Prop :=
  (32 <= c)%N /\ c <> 34%N /\ c <> 92%N /\ (c < 55296 \/ 57343 < c)%N.

(** ** Decimal octets, in the widest sense of the words *)

(** A numeral of one digit or more whose value is at most 255; zeros
    in front are allowed. *)
Definition decimal_octet (w : jsstring) : Prop :=
  w <> [] /\ digits w /\ numeral_value w <= 255.

(** A zero in front of another digit. *)
Definition leading_zero (w : jsstring) : Prop :=
  exists c u, w = 48%N :: c :: u.

(** Checks of the two by computation. *)
Definition decimal_octet_check (w : jsstring) : bool :=
  negb (length w =? 0) && forallb isDigit w && (numeral_value w <=? 255).

Definition leading_zero_check (w : jsstring) : bool :=
  match w with
  | a :: _ :: _ => (a =? 48)%N
  | _ => false
  end.

(** * Verification *)

(** ** The matcher and its declarative reading *)

Section Semantics.

Variable ic : bool.

Lemma reads_refl : forall x, reads [] x x.
Proof. intros x. split; reflexivity. Qed.

Lemma reads_trans : forall v w x y z,
  reads v x y -> reads w y z -> reads (v ++ w) x z.
Proof.
  intros v w x y z [A1 B1] [A2 B2]. split.
  - rewrite A1, A2. now rewrite app_assoc.
  - rewrite B2, B1, rev_app_distr. now rewrite app_assoc.
Qed.

Lemma reads_length : forall w x y,
  reads w x y ->
  length (after x) = length w + length (after y) /\
  endIndex y = length w + endIndex x.
Proof.
  intros w x y [A B]. unfold endIndex. rewrite A, B.
  rewrite !length_app, length_rev. lia.
Qed.

Lemma step_reads : forall P x y, step P x y -> exists w, reads w x y.
Proof.
  intros P x y (ch & rest & A & _ & ->). exists [ch]. split; simpl; auto.
Qed.

Lemma back_match_reads : forall s x y,
  back_match ic s x = Some y -> exists w, reads w x y /\ captures y = captures x.
Proof.
  induction s as [|a s IH]; simpl; intros x y H.
  - inversion H; subst. exists []. split; [apply reads_refl | reflexivity].
  - destruct (after x) as [|ch rest] eqn:A; [discriminate|].
    destruct (Canonicalize ic a =? Canonicalize ic ch)%N; [|discriminate].
    apply IH in H. destruct H as (w & [A1 B1] & C). simpl in *.
    exists (ch :: w). split; [split|]; simpl.
    + now rewrite A, A1.
    + rewrite B1. now rewrite <- app_assoc.
    + exact C.
Qed.

Lemma Rep_reads : forall (R : State -> State -> Prop) ps,
  (forall x y, R x y -> exists w, reads w x y) ->
  forall min max x y, Rep R ps min max x y -> exists w, reads w x y.
Proof.
  intros R ps HR min max x y H. induction H as [min max x _|min max x y z _ H1 _ _ IH].
  - exists []. apply reads_refl.
  - destruct (HR _ _ H1) as (v & Hv). destruct IH as (w & Hw).
    exists (v ++ w). apply reads_trans with y; auto.
Qed.

(** A match only moves forward, within one input. *)
Lemma Sem_reads : forall r x y, Sem ic r x y -> exists w, reads w x y.
Proof.
  induction r; simpl; intros x y H.
  - subst. exists []. apply reads_refl.
  - eapply step_reads; eauto.
  - eapply step_reads; eauto.
  - eapply step_reads; eauto.
  - destruct H as [_ ->]. exists []. apply reads_refl.
  - destruct H as [_ ->]. exists []. apply reads_refl.
  - destruct H as [_ ->]. exists []. apply reads_refl.
  - destruct H as (m & H1 & H2).
    destruct (IHr1 _ _ H1) as (v & Hv). destruct (IHr2 _ _ H2) as (w & Hw).
    exists (v ++ w). eapply reads_trans; eauto.
  - destruct H as [H|H]; eauto.
  - destruct H as (m & H1 & ->). destruct (IHr _ _ H1) as (w & Hw).
    exists w. exact Hw.
  - eapply Rep_reads; eauto.
  - destruct H as (m & _ & ->). exists []. split; reflexivity.
  - destruct H as [_ ->]. exists []. apply reads_refl.
  - destruct (get_cap n (captures x)).
    + apply back_match_reads in H. destruct H as (w & Hw & _). eauto.
    + subst. exists []. apply reads_refl.
Qed.

Lemma Rep_captures : forall (R : State -> State -> Prop),
  (forall x y, R x y -> captures y = captures x) ->
  forall min max x y, Rep R [] min max x y -> captures y = captures x.
Proof.
  intros R HR min max x y H.
  induction H as [min max x _|min max x y z _ H1 _ _ IH]; auto.
  rewrite IH. apply HR in H1. exact H1.
Qed.

(** A term without groups leaves the captures alone. *)
Lemma step_captures : forall P x y, step P x y -> captures y = captures x.
Proof. intros P x y (ch & rest & _ & _ & ->). reflexivity. Qed.

Lemma Sem_captures : forall r x y,
  parens r = [] -> Sem ic r x y -> captures y = captures x.
Proof.
  induction r; simpl; intros x y Hp H.
  - now subst.
  - eapply step_captures; eauto.
  - eapply step_captures; eauto.
  - eapply step_captures; eauto.
  - destruct H as [_ ->]; reflexivity.
  - destruct H as [_ ->]; reflexivity.
  - destruct H as [_ ->]; reflexivity.
  - apply app_eq_nil in Hp. destruct Hp as [Hp1 Hp2].
    destruct H as (m & H1 & H2).
    rewrite (IHr2 _ _ Hp2 H2). apply (IHr1 _ _ Hp1 H1).
  - apply app_eq_nil in Hp. destruct Hp as [Hp1 Hp2].
    destruct H as [H|H]; auto.
  - discriminate.
  - rewrite Hp in H. apply Rep_captures with (2 := H). auto.
  - destruct H as (m & H1 & ->). simpl. apply (IHr _ _ Hp H1).
  - destruct H as [_ ->]; reflexivity.
  - destruct (get_cap n (captures x)).
    + apply back_match_reads in H. destruct H as (w & _ & C). exact C.
    + now subst.
Qed.

(** *** The matcher against the relation *)

Lemma CharacterSetMatcher_sound : forall f (P : code_unit -> Prop),
  (forall a, f a = true -> P a) -> sound (CharacterSetMatcher f) (step P).
Proof.
  intros f P HP x c z. unfold CharacterSetMatcher.
  destruct (after x) as [|ch rest] eqn:A; [discriminate|].
  destruct (f ch) eqn:F; [|discriminate]. intros H.
  eexists. split; [|exact H]. exists ch, rest. auto.
Qed.

Lemma CharacterSetMatcher_complete : forall f (P : code_unit -> Prop),
  (forall a, P a -> f a = true) -> complete (CharacterSetMatcher f) (step P).
Proof.
  intros f P HP x y c z (ch & rest & A & Pch & ->) H.
  unfold CharacterSetMatcher. rewrite A, (HP _ Pch), H. discriminate.
Qed.

Lemma RepeatMatcher_sound : forall m R ps,
  sound m R ->
  forall fuel min max, sound (RepeatMatcher fuel m min max ps) (Rep R ps min max).
Proof.
  intros m R ps Hm. induction fuel as [|fuel IH]; intros min max x c z; simpl.
  - discriminate.
  - assert (Hstep : forall d,
      d = (fun y => if (min =? 0) && (endIndex y =? endIndex x) then None
                    else RepeatMatcher fuel m (pred min) (option_map pred max) ps y c) ->
      max <> Some 0 ->
      m (mkState (before x) (after x) (clear_caps ps (captures x))) d = Some z ->
      exists y, Rep R ps min max x y /\ c y = Some z).
    { intros d -> Hmax H. apply Hm in H. destruct H as (y & Hy & H).
      destruct ((min =? 0) && (endIndex y =? endIndex x)) eqn:E; [discriminate|].
      apply IH in H. destruct H as (y' & Hy' & H).
      exists y'. split; [|exact H].
      eapply Rep_more; eauto. intros ->. simpl in E.
      now apply Nat.eqb_neq in E. }
    assert (Hdone : min = 0 \/ max = Some 0 -> c x = Some z ->
      exists y, Rep R ps min max x y /\ c y = Some z).
    { intros Hd H. exists x. split; [now apply Rep_done|exact H]. }
    destruct max as [[|n]|].
    + intros H. apply Hdone; auto.
    + destruct (min =? 0) eqn:E; simpl.
      * match goal with |- context [m ?xr ?d] => destruct (m xr d) eqn:M end.
        -- intros H. inversion H; subst. apply (Hstep _ eq_refl); [discriminate|exact M].
        -- apply Nat.eqb_eq in E. intros H. apply Hdone; auto.
      * intros H. apply (Hstep _ eq_refl); [discriminate|exact H].
    + destruct (min =? 0) eqn:E; simpl.
      * match goal with |- context [m ?xr ?d] => destruct (m xr d) eqn:M end.
        -- intros H. inversion H; subst. apply (Hstep _ eq_refl); [discriminate|exact M].
        -- apply Nat.eqb_eq in E. intros H. apply Hdone; auto.
      * intros H. apply (Hstep _ eq_refl); [discriminate|exact H].
Qed.

Lemma RepeatMatcher_complete : forall m (R : State -> State -> Prop) ps,
  complete m R ->
  (forall x y, R x y -> exists w, reads w x y) ->
  forall min max x y, Rep R ps min max x y ->
  forall c z fuel, c y = Some z -> repeat_fuel min max x <= fuel ->
  RepeatMatcher fuel m min max ps x c <> None.
Proof.
  intros m R ps Hm HR min max x y H.
  induction H as [min max x Hd|min max x y z Hmax H1 Hne H2 IH];
    intros c z0 fuel Hc Hfuel;
    (destruct fuel as [|fuel]; [unfold repeat_fuel in Hfuel; lia|]); simpl.
  - destruct max as [[|n]|]; try (rewrite Hc; discriminate).
    + destruct Hd as [->|Hd]; [|discriminate]. simpl.
      match goal with |- context [m ?xr ?d] => destruct (m xr d) end;
        [discriminate|rewrite Hc; discriminate].
    + destruct Hd as [->|Hd]; [|discriminate]. simpl.
      match goal with |- context [m ?xr ?d] => destruct (m xr d) end;
        [discriminate|rewrite Hc; discriminate].
  - assert (Hd : forall d,
      d = (fun y => if (min =? 0) && (endIndex y =? endIndex x) then None
                    else RepeatMatcher fuel m (pred min) (option_map pred max) ps y c) ->
      m (mkState (before x) (after x) (clear_caps ps (captures x))) d <> None).
    { intros d ->.
      destruct (HR _ _ H1) as (w & Hw). apply reads_length in Hw.
      unfold cleared, endIndex in Hw. simpl in Hw.
      destruct Hw as [L1 L2]. fold (endIndex x) (endIndex y) in L2.
      case_eq (RepeatMatcher fuel m (pred min) (option_map pred max) ps y c).
      - intros z1 Hz1. eapply Hm; [exact H1|].
        destruct ((min =? 0) && (endIndex y =? endIndex x)) eqn:E; [|exact Hz1].
        apply andb_prop in E. destruct E as [E1 E2].
        apply Nat.eqb_eq in E1, E2. now elim (Hne E1).
      - intros Hz1. exfalso. revert Hz1. eapply IH; eauto.
        unfold repeat_fuel in *. destruct max as [[|n]|]; simpl.
        + congruence.
        + lia.
        + destruct min as [|min]; simpl in *; [|lia].
          assert (endIndex y <> endIndex x) by auto. unfold endIndex in *. lia. }
    destruct max as [[|n]|]; [congruence| |].
    + destruct (min =? 0); simpl.
      * match goal with |- context [m ?xr ?d] => specialize (Hd d eq_refl); destruct (m xr d) end;
          [discriminate|congruence].
      * apply Hd. reflexivity.
    + destruct (min =? 0); simpl.
      * match goal with |- context [m ?xr ?d] => specialize (Hd d eq_refl); destruct (m xr d) end;
          [discriminate|congruence].
      * apply Hd. reflexivity.
Qed.

(** The matcher finds a match exactly when the relation has one.  The
    second half covers the fuel of [RepeatMatcher]: it never runs out
    before a match that exists is found. *)
Theorem compile_adequate : forall r,
  wf r = true ->
  sound (compile ic r) (Sem ic r) /\ complete (compile ic r) (Sem ic r).
Proof.
  induction r; intros W; simpl in W;
    (split; [intros x k z H|intros x y k z H Hc]); cbn [compile Sem] in *.
  - exists x. auto.
  - subst. congruence.
  - revert H. apply CharacterSetMatcher_sound. intros a. apply N.eqb_eq.
  - revert H Hc. apply CharacterSetMatcher_complete. intros a. apply N.eqb_eq.
  - revert H. apply CharacterSetMatcher_sound. intros a. apply negb_true_iff.
  - revert H Hc. apply CharacterSetMatcher_complete. intros a. apply negb_true_iff.
  - revert H. apply CharacterSetMatcher_sound. auto.
  - revert H Hc. apply CharacterSetMatcher_complete. auto.
  - destruct (before x) eqn:B; [|discriminate]. exists x. auto.
  - destruct H as [B ->]. rewrite B. congruence.
  - destruct (after x) eqn:A; [|discriminate]. exists x. auto.
  - destruct H as [A ->]. rewrite A. congruence.
  - destruct (xorb (word_before x) (word_after x)) eqn:B; [|discriminate].
    exists x. auto.
  - destruct H as [B ->]. rewrite B. congruence.
  - apply andb_prop in W. destruct W as [W1 W2].
    destruct (IHr1 W1) as [S1 C1]. destruct (IHr2 W2) as [S2 C2].
    apply S1 in H. destruct H as (m & H1 & H).
    apply S2 in H. destruct H as (y & H2 & H). exists y. eauto.
  - apply andb_prop in W. destruct W as [W1 W2].
    destruct (IHr1 W1) as [S1 C1]. destruct (IHr2 W2) as [S2 C2].
    destruct H as (m & H1 & H2).
    destruct (compile ic r2 m k) as [z'|] eqn:E.
    + eapply C1; eauto.
    + elim (C2 _ _ _ _ H2 Hc E).
  - apply andb_prop in W. destruct W as [W1 W2].
    destruct (IHr1 W1) as [S1 C1]. destruct (IHr2 W2) as [S2 C2].
    destruct (compile ic r1 x k) eqn:E.
    + inversion H; subst. apply S1 in E. destruct E as (y & H1 & E). eauto.
    + apply S2 in H. destruct H as (y & H1 & H). eauto.
  - apply andb_prop in W. destruct W as [W1 W2].
    destruct (IHr1 W1) as [S1 C1]. destruct (IHr2 W2) as [S2 C2].
    destruct (compile ic r1 x k) eqn:E; [discriminate|].
    destruct H as [H1|H2].
    + elim (C1 _ _ _ _ H1 Hc E).
    + eapply C2; eauto.
  - destruct (IHr W) as [S1 C1].
    apply S1 in H. destruct H as (m & H1 & H). eauto.
  - destruct (IHr W) as [S1 C1].
    destruct H as (m & H1 & ->). eapply C1; eauto.
  - destruct (IHr W) as [S1 C1].
    revert H. apply RepeatMatcher_sound. exact S1.
  - destruct (IHr W) as [S1 C1].
    eapply RepeatMatcher_complete; eauto. apply Sem_reads.
  - apply andb_prop in W. destruct W as [W P].
    destruct (IHr W) as [S1 C1].
    destruct (compile ic r x (fun y => Some y)) as [y0|] eqn:E; [|discriminate].
    apply S1 in E. destruct E as (y & H1 & E). inversion E; subst. eauto.
  - apply andb_prop in W. destruct W as [W P].
    assert (Hp : parens r = []) by (destruct (parens r); [reflexivity|discriminate]).
    destruct (IHr W) as [S1 C1].
    destruct H as (m & H1 & ->).
    destruct (compile ic r x (fun y => Some y)) as [y0|] eqn:E.
    + apply S1 in E. destruct E as (y & H2 & E). inversion E; subst.
      rewrite (Sem_captures _ _ _ Hp H2), <- (Sem_captures _ _ _ Hp H1). congruence.
    + elim (C1 _ _ _ _ H1 eq_refl E).
  - destruct (IHr W) as [S1 C1].
    destruct (compile ic r x (fun y => Some y)) as [y0|] eqn:E; [discriminate|].
    exists x. split; [split|]; auto.
    intros m Hm. elim (C1 _ _ _ _ Hm eq_refl E).
  - destruct (IHr W) as [S1 C1].
    destruct H as [Hn ->].
    destruct (compile ic r x (fun y => Some y)) as [y0|] eqn:E.
    + apply S1 in E. destruct E as (y & H2 & _). elim (Hn _ H2).
    + congruence.
  - destruct (get_cap n (captures x)) as [s|].
    + destruct (back_match ic s x) as [y|] eqn:E; [|discriminate]. eauto.
    + eauto.
  - destruct (get_cap n (captures x)) as [s|].
    + rewrite H. congruence.
    + subst. congruence.
Qed.

End Semantics.

(** *** [test] against the relation *)

Lemma exec_from_spec : forall re aft bef,
  wf (pattern re) = true ->
  (exec_from re bef aft = true <->
   exists pre post y,
     aft = pre ++ post /\
     Sem (ignoreCase re) (pattern re) (start re (rev pre ++ bef) post) y).
Proof.
  intros re aft bef W.
  destruct (compile_adequate (ignoreCase re) _ W) as [S1 C1].
  revert bef. induction aft as [|ch aft IH]; intros bef; simpl;
    match goal with |- context [compile ?i ?r ?x ?c] =>
      change x with (start re bef (after x));
      destruct (compile i r (start re bef (after x)) c) as [y0|] eqn:E
    end; simpl in E.
  - split; auto. intros _. apply S1 in E. destruct E as (y & H & _).
    exists [], [], y. auto.
  - split; [discriminate|]. intros (pre & post & y & A & H).
    symmetry in A. apply app_eq_nil in A. destruct A as [-> ->].
    elim (C1 _ _ _ _ H eq_refl E).
  - split; auto. intros _. apply S1 in E. destruct E as (y & H & _).
    exists [], (ch :: aft), y. auto.
  - rewrite IH. split.
    + intros (pre & post & y & -> & H). exists (ch :: pre), post, y.
      split; auto. simpl. now rewrite <- app_assoc.
    + intros (pre & post & y & A & H). destruct pre as [|a pre]; simpl in *.
      * subst post. elim (C1 _ _ _ _ H eq_refl E).
      * inversion A; subst. exists pre, post, y. split; auto.
        now rewrite <- app_assoc in H.
Qed.

(** A pattern that begins with [^] can only match from index 0: a match
    is a match of the whole prefix of the input. *)
Lemma test_anchored : forall re r s,
  pattern re = Seq LineStart r ->
  wf r = true ->
  (test re s = true <->
   exists y, Sem (ignoreCase re) r (start re [] s) y).
Proof.
  intros re r s P W. unfold test. rewrite exec_from_spec by (rewrite P; exact W).
  rewrite P. simpl. split.
  - intros (pre & post & y & -> & m & [B ->] & H). simpl in B.
    destruct pre as [|a pre].
    + exists y. exact H.
    + simpl in B. rewrite app_nil_r in B.
      apply (f_equal (@length _)) in B. rewrite length_app in B. simpl in B. lia.
  - intros (y & H). exists [], s, y. split; auto.
    exists (start re [] s). auto.
Qed.

(** ** Reasoning tools *)

(** Boolean comparisons on code units, turned into arithmetic. *)
Ltac chars_arith :=
  change colon with 58%N in *; change comma with 44%N in *;
  unfold IsWordChar, isLineTerminator, toUpperCase, toLowerCase in *;
  unfold isDigit in *; unfold in_range in *;
  repeat match goal with
  | H : context [(?a <=? ?b)%N] |- _ => destruct (N.leb_spec a b); simpl in H
  | |- context [(?a <=? ?b)%N] => destruct (N.leb_spec a b); simpl
  | H : context [(?a =? ?b)%N] |- _ => destruct (N.eqb_spec a b); simpl in H
  | |- context [(?a =? ?b)%N] => destruct (N.eqb_spec a b); simpl
  end;
  simpl in *;
  try discriminate; try reflexivity; try lia; try (exfalso; lia).

(** [[\dA-F]] with the [i] flag accepts the digits and the letters a to f
    in either case. *)
Lemma hex_class : forall a,
  in_class true [CDigit; range "A" "F"] a = true <-> hexdigit a.
Proof.
  intros a. unfold hexdigit, in_class, range, chr. simpl. split.
  - intros H. chars_arith; auto.
  - intros [H|[H|H]]; chars_arith.
Qed.

Lemma digit_class : forall ic a, in_class ic [CDigit] a = true <-> isDigit a = true.
Proof.
  intros ic a. unfold in_class. simpl. destruct ic; simpl; split; intros H;
    chars_arith.
Qed.

Lemma range_class : forall ic lo hi a,
  (48 <= lo)%N -> (hi <= 57)%N ->
  in_class ic [CRange lo hi] a = true <-> in_range lo hi a = true.
Proof.
  intros ic lo hi a L U. unfold in_class. simpl. destruct ic; simpl; split;
    intros H; chars_arith.
Qed.

(** A literal that is not a letter matches itself only, with or
    without the [i] flag. *)
Lemma canon_literal : forall ic a c,
  (c < 65)%N ->
  Canonicalize ic a = Canonicalize ic c <-> a = c.
Proof.
  intros ic a c L. unfold Canonicalize. destruct ic; [|tauto].
  split; intros H; [|now subst]. chars_arith.
Qed.

Lemma hexdigit_word : forall a, hexdigit a -> IsWordChar a = true.
Proof. intros a [H|[H|H]]; chars_arith. Qed.

Lemma hexdigit_not_colon : forall a, hexdigit a -> a <> colon.
Proof. intros a [H|[H|H]] E; subst; chars_arith. Qed.

(** *** Captures *)

Lemma set_cap_length : forall n v caps, length (set_cap n v caps) = length caps.
Proof.
  intros n v caps. revert n. induction caps as [|c caps IH]; intros [|n]; simpl; auto.
Qed.

Lemma get_set_same : forall n v caps,
  n < length caps -> get_cap n (set_cap n v caps) = v.
Proof.
  intros n v caps. revert n.
  induction caps as [|c caps IH]; intros [|n] L; simpl in *; try lia; auto.
  apply IH. lia.
Qed.

Lemma get_set_other : forall n m v caps,
  n <> m -> get_cap n (set_cap m v caps) = get_cap n caps.
Proof.
  intros n m v caps. revert n m. unfold get_cap.
  induction caps as [|c caps IH]; intros n m L; destruct n, m; simpl;
    try reflexivity; try lia.
  apply IH. lia.
Qed.

Lemma clear_caps_length : forall ps caps, length (clear_caps ps caps) = length caps.
Proof.
  induction ps as [|p ps IH]; intros caps; simpl; auto.
  now rewrite set_cap_length.
Qed.

Lemma get_clear_other : forall n ps caps,
  ~ In n ps -> get_cap n (clear_caps ps caps) = get_cap n caps.
Proof.
  induction ps as [|p ps IH]; intros caps N; simpl in *; auto.
  rewrite get_set_other by (intros E; apply N; auto). apply IH. tauto.
Qed.

Lemma cleared_nil : forall x, cleared [] x = x.
Proof. intros [b a c]. reflexivity. Qed.

Section SemTools.

Variable ic : bool.

Lemma Rep_cap_other : forall (R : State -> State -> Prop) ps n,
  ~ In n ps ->
  (forall x y, R x y -> get_cap n (captures y) = get_cap n (captures x)) ->
  forall min max x y, Rep R ps min max x y ->
  get_cap n (captures y) = get_cap n (captures x).
Proof.
  intros R ps n N HR min max x y H.
  induction H as [min max x _|min max x y z _ H1 _ _ IH]; auto.
  rewrite IH. apply HR in H1. rewrite H1. simpl. now apply get_clear_other.
Qed.

(** A term leaves alone the captures of the groups outside it. *)
Lemma Sem_cap_other : forall r n x y,
  ~ In n (parens r) -> Sem ic r x y ->
  get_cap n (captures y) = get_cap n (captures x).
Proof.
  induction r; simpl; intros k x y N H.
  - now subst.
  - apply step_captures in H. now rewrite H.
  - apply step_captures in H. now rewrite H.
  - apply step_captures in H. now rewrite H.
  - destruct H as [_ ->]; reflexivity.
  - destruct H as [_ ->]; reflexivity.
  - destruct H as [_ ->]; reflexivity.
  - destruct H as (m & H1 & H2). rewrite in_app_iff in N.
    rewrite (IHr2 _ _ _ (fun I => N (or_intror I)) H2).
    apply (IHr1 _ _ _ (fun I => N (or_introl I)) H1).
  - rewrite in_app_iff in N. destruct H as [H|H].
    + apply (IHr1 _ _ _ (fun I => N (or_introl I)) H).
    + apply (IHr2 _ _ _ (fun I => N (or_intror I)) H).
  - destruct H as (m & H1 & ->). simpl.
    rewrite get_set_other by (intros E; apply N; auto).
    apply (IHr _ _ _ (fun I => N (or_intror I)) H1).
  - eapply Rep_cap_other; eauto.
  - destruct H as (m & H1 & ->). simpl. apply (IHr _ _ _ N H1).
  - destruct H as [_ ->]; reflexivity.
  - destruct (get_cap n (captures x)).
    + apply back_match_reads in H. destruct H as (w & _ & C). now rewrite C.
    + now subst.
Qed.

(** *** Quantifiers *)

(** [r{n}] is [n] rounds of [r], each starting with the captures of [r]
    cleared. *)
Lemma Rep_times : forall (R : State -> State -> Prop) ps n x z,
  Rep R ps n (Some n) x z <-> iter (fun x y => R (cleared ps x) y) n x z.
Proof.
  intros R ps n. induction n as [|n IH]; intros x z; simpl; split; intros H.
  - inversion H; subst; auto. congruence.
  - subst. apply Rep_done. auto.
  - inversion H; subst.
    + destruct H0; discriminate.
    + simpl in *. exists y. split; auto. now apply IH.
  - destruct H as (y & H1 & H2). apply Rep_more with y; try discriminate; auto.
    simpl. now apply IH.
Qed.

(** [r?] is nothing, or one round of [r] that moves. *)
Lemma Rep_opt : forall (R : State -> State -> Prop) ps x z,
  Rep R ps 0 (Some 1) x z <->
  z = x \/ (R (cleared ps x) z /\ endIndex z <> endIndex x).
Proof.
  intros R ps x z. split; intros H.
  - inversion H; subst; auto. simpl in *. right.
    inversion H3; subst; auto. congruence.
  - destruct H as [->|[H1 H2]].
    + apply Rep_done. auto.
    + apply Rep_more with z; try discriminate; auto. simpl. apply Rep_done. auto.
Qed.

Lemma moved_eq : forall w x y,
  moved w x y -> y = mkState (rev w ++ before x) (after y) (captures x).
Proof. intros w x [b a c] [[A B] C]. simpl in *. now subst. Qed.

Lemma moved_refl : forall x, moved [] x x.
Proof. intros x. split; [apply reads_refl|reflexivity]. Qed.

Lemma moved_trans : forall v w x y z,
  moved v x y -> moved w y z -> moved (v ++ w) x z.
Proof.
  intros v w x y z [R1 C1] [R2 C2]. split.
  - eapply reads_trans; eauto.
  - congruence.
Qed.

Lemma step_moved : forall (P : code_unit -> Prop) x y,
  step P x y <-> exists ch, P ch /\ moved [ch] x y.
Proof.
  intros P x y. split.
  - intros (ch & rest & A & Pch & ->). exists ch. split; auto.
    split; [split|]; simpl; auto.
  - intros (ch & Pch & [[A B] C]). exists ch, (after y). simpl in *.
    repeat split; auto. destruct y as [b a c]. simpl in *. now subst.
Qed.

(** A quantified character class reads a word of its characters, of a
    length the quantifier allows. *)
Lemma Rep_chars : forall (P : code_unit -> Prop) min max x z,
  match max with Some n => min <= n | None => True end ->
  (Rep (step P) [] min max x z <->
   exists w, Forall P w /\ min <= length w /\
             match max with Some n => length w <= n | None => True end /\
             moved w x z).
Proof.
  intros P min max x z WF. split.
  - intros H. induction H as [min max x Hd|min max x y z Hmax H1 Hne H2 IH].
    + exists []. simpl. split; [auto|]. split; [|split].
      * destruct Hd as [Hd|Hd]; subst; simpl in *; lia.
      * destruct max; auto. lia.
      * apply moved_refl.
    + rewrite cleared_nil in H1. apply step_moved in H1.
      destruct H1 as (ch & Pch & M1).
      destruct IH as (w & Pw & L1 & L2 & M2).
      { destruct max as [n|]; simpl; auto. lia. }
      exists (ch :: w). simpl. split; [auto|]. split; [lia|]. split.
      * destruct max as [[|n]|]; simpl in *; auto; try congruence. lia.
      * exact (moved_trans [ch] w x y z M1 M2).
  - intros (w & Pw & L1 & L2 & M). revert min max x WF L1 L2 M.
    induction w as [|ch w IH]; intros min max x WF L1 L2 M.
    + assert (z = x) as ->.
      { rewrite (moved_eq _ _ _ M). destruct M as [[A B] C]. simpl in *.
        destruct x as [b a c]. simpl in *. now subst. }
      apply Rep_done. simpl in L1. lia.
    + inversion Pw; subst.
      set (y := mkState (ch :: before x) (w ++ after z) (captures x)).
      assert (M1 : moved [ch] x y).
      { destruct M as [[A B] C]. split; [split|]; simpl; auto. }
      assert (M2 : moved w y z).
      { destruct M as [[A B] C]. split; [split|]; simpl; auto.
        rewrite B. simpl. now rewrite <- app_assoc. }
      apply Rep_more with y.
      * destruct max as [[|n]|]; simpl in *; try discriminate. lia.
      * rewrite cleared_nil. apply step_moved. eauto.
      * intros _. unfold endIndex. simpl. lia.
      * apply IH; auto.
        -- destruct max as [n|]; simpl; auto. lia.
        -- simpl in L1. lia.
        -- destruct max as [n|]; simpl in *; auto. lia.
Qed.

End SemTools.

(** ** Atoms of the two patterns *)

Section Atoms.

Variable ic : bool.

Lemma Sem_lit : forall c x y,
  (c < 65)%N -> (Sem ic (Chr c) x y <-> moved [c] x y).
Proof.
  intros c x y L. simpl. rewrite step_moved. split.
  - intros (ch & E & M). apply canon_literal in E; auto. now subst.
  - intros M. exists c. auto.
Qed.

Lemma Sem_digit : forall x y,
  Sem ic digit x y <-> exists a, isDigit a = true /\ moved [a] x y.
Proof.
  intros x y. unfold digit. simpl. rewrite step_moved.
  split; intros (a & H & M); exists a; split; auto; now apply (digit_class ic).
Qed.

Lemma Sem_range : forall lo hi x y,
  (48 <= lo)%N -> (hi <= 57)%N ->
  (Sem ic (Class [CRange lo hi]) x y <->
   exists a, in_range lo hi a = true /\ moved [a] x y).
Proof.
  intros lo hi x y L U. simpl. rewrite step_moved.
  split; intros (a & H & M); exists a; split; auto;
    now apply (range_class ic lo hi a L U).
Qed.

Lemma moved_split : forall v w x z,
  moved (v ++ w) x z -> exists y, moved v x y /\ moved w y z.
Proof.
  intros v w x z [[A B] C].
  exists (mkState (rev v ++ before x) (w ++ after z) (captures x)).
  split; (split; [split|]); simpl; auto.
  - now rewrite <- app_assoc in A.
  - rewrite B, rev_app_distr. now rewrite app_assoc.
Qed.

Lemma moved_cons : forall a w x z,
  moved (a :: w) x z -> exists y, moved [a] x y /\ moved w y z.
Proof. intros a w x z. apply (moved_split [a] w). Qed.

End Atoms.

(** ** The IPv4 pattern *)

Ltac use_lit H := apply Sem_lit in H; [|reflexivity].
Ltac use_digit H a D := apply Sem_digit in H; destruct H as (a & D & H).
Ltac use_range H a D :=
  apply Sem_range in H; [|vm_compute; discriminate|vm_compute; discriminate];
  destruct H as (a & D & H); vm_compute chr in D.

Lemma Sem_octet : forall ic x y,
  Sem ic octet x y <-> exists w, octet_text w = true /\ moved w x y.
Proof.
  intros ic x y. split.
  - unfold octet. cbn [Sem seq fold_right]. unfold times.
    intros [H|[H|[H|[H|H]]]].
    + use_digit H a Da. exists [a]. auto.
    + destruct H as (m1 & H1 & m2 & H2 & ->).
      use_range H1 a Da. use_digit H2 b Db.
      exists [a; b]. split.
      * simpl. now rewrite Da, Db.
      * apply (moved_trans [a] [b] _ _ _ H1 H2).
    + destruct H as (m1 & H1 & m2 & H2 & ->). use_lit H1.
      apply Rep_times in H2. simpl in H2.
      destruct H2 as (m3 & H3 & m4 & H4 & ->).
      rewrite cleared_nil in H3, H4. apply step_moved in H3, H4.
      destruct H3 as (b & Db & H3). destruct H4 as (c & Dc & H4).
      apply digit_class in Db, Dc.
      exists [chr "1"; b; c]. split.
      * simpl. rewrite Db, Dc. reflexivity.
      * apply (moved_trans [chr "1"] [b; c] _ _ _ H1).
        apply (moved_trans [b] [c] _ _ _ H3 H4).
    + destruct H as (m1 & H1 & m2 & H2 & m3 & H3 & ->).
      use_lit H1. use_range H2 b Db. use_digit H3 c Dc.
      exists [chr "2"; b; c]. split.
      * simpl. rewrite Db, Dc. reflexivity.
      * apply (moved_trans [chr "2"] [b; c] _ _ _ H1).
        apply (moved_trans [b] [c] _ _ _ H2 H3).
    + destruct H as (m1 & H1 & m2 & H2 & m3 & H3 & ->).
      use_lit H1. use_lit H2. use_range H3 c Dc.
      exists [chr "2"; chr "5"; c]. split.
      * simpl. rewrite Dc. reflexivity.
      * apply (moved_trans [chr "2"] [chr "5"; c] _ _ _ H1).
        apply (moved_trans [chr "5"] [c] _ _ _ H2 H3).
  - intros (w & T & M). unfold octet. cbn [Sem seq fold_right]. unfold times.
    destruct w as [|a [|b [|c [|d w]]]]; simpl in T; try discriminate.
    + left. apply Sem_digit. eauto.
    + right. left. apply andb_prop in T. destruct T as [T1 T2].
      apply moved_cons in M. destruct M as (m1 & M1 & M2).
      exists m1. split; [apply Sem_range; [vm_compute; discriminate..|eauto]|].
      exists y. split; [apply Sem_digit; eauto|reflexivity].
    + apply moved_cons in M. destruct M as (m1 & M1 & M).
      apply moved_cons in M. destruct M as (m2 & M2 & M3).
      apply orb_prop in T. destruct T as [T|T];
        [apply orb_prop in T; destruct T as [T|T]|];
        apply andb_prop in T; destruct T as [T T3];
        apply andb_prop in T; destruct T as [T1 T2];
        apply N.eqb_eq in T1; subst a.
      * right. right. left. exists m1. split; [apply Sem_lit; [reflexivity|exact M1]|].
        exists y. split; [|reflexivity]. apply Rep_times. simpl.
        exists m2. split; [rewrite cleared_nil; apply step_moved; exists b;
                           split; [now apply digit_class|exact M2]|].
        exists y. split; [rewrite cleared_nil; apply step_moved; exists c;
                          split; [now apply digit_class|exact M3]|reflexivity].
      * right. right. right. left.
        exists m1. split; [apply Sem_lit; [reflexivity|exact M1]|].
        exists m2. split; [apply Sem_range; [vm_compute; discriminate..|eauto]|].
        exists y. split; [apply Sem_digit; eauto|reflexivity].
      * apply N.eqb_eq in T2; subst b. right. right. right. right.
        exists m1. split; [apply Sem_lit; [reflexivity|exact M1]|].
        exists m2. split; [apply Sem_lit; [reflexivity|exact M2]|].
        exists y. split; [apply Sem_range; [vm_compute; discriminate..|eauto]|reflexivity].
Qed.

Lemma moved_intro : forall w b t c,
  moved w (mkState b (w ++ t) c) (mkState (rev w ++ b) t c).
Proof. intros w b t c. split; [split|]; reflexivity. Qed.

Lemma moved_after : forall w x y, moved w x y -> after x = w ++ after y.
Proof. intros w x y [[A _] _]. exact A. Qed.

(** One octet and the dot behind it. *)
Lemma Sem_octet_dot : forall ic x y,
  Sem ic (seq [octet; lit "."]) x y <->
  exists w, octet_text w = true /\ moved (w ++ [dot]) x y.
Proof.
  intros ic x y. cbn [Sem seq fold_right]. split.
  - intros (m1 & H1 & m2 & H2 & ->). apply Sem_octet in H1.
    destruct H1 as (w & T & M). use_lit H2. exists w. split; auto.
    apply (moved_trans w [dot] _ _ _ M H2).
  - intros (w & T & M). apply moved_split in M. destruct M as (m & M1 & M2).
    exists m. split; [apply Sem_octet; eauto|].
    exists y. split; [apply Sem_lit; [reflexivity|exact M2]|reflexivity].
Qed.

(** The IPv4 pattern accepts exactly the strings made of four octet
    words separated by dots. *)
Theorem test_ipv4 : forall s,
  test regexes.ipv4 s = true <->
  exists o1 o2 o3 o4,
    octet_text o1 = true /\ octet_text o2 = true /\
    octet_text o3 = true /\ octet_text o4 = true /\
    s = o1 ++ [dot] ++ o2 ++ [dot] ++ o3 ++ [dot] ++ o4.
Proof.
  intros s.
  rewrite (test_anchored regexes.ipv4
             (seq [times 3 (seq [octet; lit "."]); octet; LineEnd]))
    by reflexivity.
  change (ignoreCase regexes.ipv4) with false.
  remember (start regexes.ipv4 [] s) as x eqn:Ex.
  assert (Hx : after x = s) by (subst x; reflexivity). clear Ex.
  split.
  - intros (y & m1 & H1 & m2 & H2 & m3 & [E ->] & ->).
    apply Rep_times in H1. destruct H1 as (a1 & A1 & a2 & A2 & a3 & A3 & ->).
    rewrite cleared_nil in A1, A2, A3.
    apply Sem_octet_dot in A1, A2, A3. apply Sem_octet in H2.
    destruct A1 as (o1 & T1 & M1). destruct A2 as (o2 & T2 & M2).
    destruct A3 as (o3 & T3 & M3). destruct H2 as (o4 & T4 & M4).
    exists o1, o2, o3, o4. repeat (split; [assumption|]).
    apply moved_after in M1, M2, M3, M4.
    rewrite <- Hx, M1, M2, M3, M4, E. rewrite <- !app_assoc. simpl.
    now rewrite app_nil_r.
  - intros (o1 & o2 & o3 & o4 & T1 & T2 & T3 & T4 & ->).
    destruct x as [b a c]. simpl in Hx. subst a.
    pose proof (moved_intro (o1 ++ [dot]) b (o2 ++ [dot] ++ o3 ++ [dot] ++ o4) c) as M1.
    pose proof (moved_intro (o2 ++ [dot]) (rev (o1 ++ [dot]) ++ b)
                  (o3 ++ [dot] ++ o4) c) as M2.
    pose proof (moved_intro (o3 ++ [dot])
                  (rev (o2 ++ [dot]) ++ rev (o1 ++ [dot]) ++ b) o4 c) as M3.
    pose proof (moved_intro o4
                  (rev (o3 ++ [dot]) ++ rev (o2 ++ [dot]) ++ rev (o1 ++ [dot]) ++ b)
                  [] c) as M4.
    rewrite app_nil_r in M4. rewrite <- !app_assoc in M1, M2, M3.
    eexists. eexists. split.
    + apply Rep_times. eexists. split.
      { rewrite cleared_nil. apply Sem_octet_dot. exists o1. split; [exact T1|exact M1]. }
      eexists. split.
      { rewrite cleared_nil. apply Sem_octet_dot. exists o2. split; [exact T2|exact M2]. }
      eexists. split.
      { rewrite cleared_nil. apply Sem_octet_dot. exists o3. split; [exact T3|exact M3]. }
      reflexivity.
    + eexists. split; [apply Sem_octet; exists o4; split; [exact T4|exact M4]|].
      eexists. split; [split; reflexivity|reflexivity].
Qed.

(** *** Octet words and numbers *)

Lemma digit_cases : forall a,
  isDigit a = true ->
  In a [48; 49; 50; 51; 52; 53; 54; 55; 56; 57]%N.
Proof.
  intros a H. simpl.
  assert (48 <= a <= 57)%N as R by chars_arith. lia.
Qed.

Ltac split_digit H :=
  apply digit_cases in H; simpl in H;
  repeat (destruct H as [H|H]; [subst|]); [..|contradiction].

(** The octet words are the decimal numerals of 0 to 255. *)
Lemma octet_text_decimal : forall w,
  octet_text w = true <-> exists n, n <= 255 /\ w = decimal n.
Proof.
  intros w. split.
  - intros T. exists (numeral_value w).
    destruct w as [|a [|b [|c [|d w]]]]; simpl in T; try discriminate.
    + split_digit T; split; vm_compute; try reflexivity; lia.
    + apply andb_prop in T. destruct T as [T1 T2].
      assert (D1 : isDigit a = true) by chars_arith.
      split_digit D1; try discriminate;
        split_digit T2; split; vm_compute; try reflexivity; lia.
    + assert (D1 : isDigit a = true /\ isDigit b = true /\ isDigit c = true).
      { chars_arith; auto. }
      destruct D1 as (D1 & D2 & D3).
      split_digit D1; try discriminate;
        split_digit D2; try discriminate;
        split_digit D3; try discriminate;
        split; vm_compute; try reflexivity; lia.
  - intros (n & L & ->).
    assert (H : forallb (fun n => octet_text (decimal n)) (List.seq 0 256) = true)
      by (vm_compute; reflexivity).
    rewrite forallb_forall in H. apply H. apply in_seq. lia.
Qed.

Lemma uint_chars_digits : forall u,
  Forall (fun c => isDigit c = true) (uint_chars u).
Proof. induction u; simpl; constructor; auto. Qed.

Lemma uint_chars_inj : forall u v, uint_chars u = uint_chars v -> u = v.
Proof.
  induction u; destruct v; simpl; intros H; try discriminate; auto;
    inversion H; f_equal; auto.
Qed.

Lemma decimal_digits : forall n, Forall (fun c => isDigit c = true) (decimal n).
Proof. intros n. apply uint_chars_digits. Qed.

Lemma decimal_inj : forall a b, decimal a = decimal b -> a = b.
Proof.
  intros a b H. apply uint_chars_inj in H.
  now apply DecimalNat.Unsigned.to_uint_inj.
Qed.

Lemma decimal_nonempty : forall n, decimal n <> [].
Proof.
  intros n H. unfold decimal in H.
  assert (E : Nat.to_uint n = Decimal.unorm (Nat.to_uint n)).
  { rewrite <- DecimalNat.Unsigned.to_of. now rewrite DecimalNat.Unsigned.of_to. }
  destruct (Nat.to_uint n) eqn:U; simpl in H; discriminate.
Qed.

Lemma dotted_cons : forall a b l,
  dotted (a :: b :: l) = decimal a ++ dot :: dotted (b :: l).
Proof. reflexivity. Qed.

Lemma digits_no_dot : forall w, Forall (fun c => isDigit c = true) w -> ~ In dot w.
Proof.
  intros w F I. rewrite Forall_forall in F. apply F in I. discriminate.
Qed.

(** Two texts that agree up to their first dot. *)
Lemma first_dot_inj : forall u u' v v',
  ~ In dot u -> ~ In dot u' ->
  u ++ dot :: v = u' ++ dot :: v' -> u = u' /\ v = v'.
Proof.
  induction u as [|a u IH]; intros [|a' u'] v v' N N' E; simpl in *.
  - inversion E. auto.
  - inversion E. subst. tauto.
  - inversion E. subst. tauto.
  - inversion E. subst. destruct (IH u' v v') as [-> ->]; auto.
Qed.

Lemma dotted_nonempty : forall a l, dotted (a :: l) <> [].
Proof.
  intros a [|b l] E.
  - apply (decimal_nonempty a). exact E.
  - rewrite dotted_cons in E. apply app_eq_nil in E. destruct E; discriminate.
Qed.

Lemma dotted_inj : forall l l', dotted l = dotted l' -> l = l'.
Proof.
  assert (ND : forall n, ~ In dot (decimal n))
    by (intros n; apply digits_no_dot, decimal_digits).
  induction l as [|a l IH]; intros [|a' l'] E.
  - reflexivity.
  - symmetry in E. elim (dotted_nonempty _ _ E).
  - elim (dotted_nonempty _ _ E).
  - destruct l as [|b l], l' as [|b' l'].
    + change (decimal a = decimal a') in E. apply decimal_inj in E. now subst.
    + change (decimal a = dotted (a' :: b' :: l')) in E.
      rewrite dotted_cons in E. exfalso. apply (ND a). rewrite E.
      apply in_or_app. right. left. reflexivity.
    + change (dotted (a :: b :: l) = decimal a') in E.
      rewrite dotted_cons in E. exfalso. apply (ND a'). rewrite <- E.
      apply in_or_app. right. left. reflexivity.
    + rewrite !dotted_cons in E. apply first_dot_inj in E; auto.
      destruct E as [E1 E2]. apply decimal_inj in E1. apply IH in E2.
      congruence.
Qed.

(** The IPv4 pattern accepts exactly the dotted quads of numbers up to
    255, written without leading zeros. *)
Theorem test_ipv4_dotted : forall s,
  test regexes.ipv4 s = true <->
  exists a b c d,
    a <= 255 /\ b <= 255 /\ c <= 255 /\ d <= 255 /\ s = dotted [a; b; c; d].
Proof.
  intros s. rewrite test_ipv4. split.
  - intros (o1 & o2 & o3 & o4 & T1 & T2 & T3 & T4 & ->).
    apply octet_text_decimal in T1, T2, T3, T4.
    destruct T1 as (a & La & ->). destruct T2 as (b & Lb & ->).
    destruct T3 as (c & Lc & ->). destruct T4 as (d & Ld & ->).
    exists a, b, c, d. repeat (split; [assumption|]). reflexivity.
  - intros (a & b & c & d & La & Lb & Lc & Ld & ->).
    exists (decimal a), (decimal b), (decimal c), (decimal d).
    repeat (split; [apply octet_text_decimal; eauto|]). reflexivity.
Qed.

(** ** The IPv6 pattern *)

(** *** Colons in a text *)

Lemma starts_colon_app : forall u t,
  no_colon u -> starts_colon t = false -> starts_colon (u ++ t) = false.
Proof.
  intros [|a u] t N S; simpl; auto.
  inversion N; subst. now apply N.eqb_neq.
Qed.

Lemma compressions_no_colon : forall u t,
  no_colon u -> compressions (u ++ t) = compressions t.
Proof.
  induction u as [|a u IH]; intros t N; simpl; auto.
  inversion N; subst. rewrite IH by assumption.
  destruct (N.eqb_spec a colon); [contradiction|reflexivity].
Qed.

Lemma compressions_colon : forall t,
  starts_colon t = false -> compressions (colon :: t) = compressions t.
Proof. intros t S. simpl. rewrite S. reflexivity. Qed.

Lemma compressions_colons : forall t,
  starts_colon t = false -> compressions (colon :: colon :: t) = S (compressions t).
Proof. intros t S. simpl. rewrite S. reflexivity. Qed.

Lemma compressions_app_r : forall a t, compressions t <= compressions (a ++ t).
Proof. induction a as [|c a IH]; intros t; simpl; [lia|]. specialize (IH t). lia. Qed.

Lemma compressions_colons_ge : forall t,
  S (compressions t) <= compressions (colon :: colon :: t).
Proof. intros t. simpl. lia. Qed.

(** A text with two compressions, however they are placed. *)
Lemma compressions_two : forall a b c,
  2 <= compressions (a ++ [colon; colon] ++ b ++ [colon; colon] ++ c).
Proof.
  intros a b c.
  pose proof (compressions_app_r a ([colon; colon] ++ b ++ [colon; colon] ++ c)).
  pose proof (compressions_colons_ge (b ++ [colon; colon] ++ c)).
  pose proof (compressions_app_r b ([colon; colon] ++ c)).
  pose proof (compressions_colons_ge c).
  simpl in *. lia.
Qed.

Lemma triple_no_colon : forall u t,
  no_colon u -> triple_colon (u ++ t) = triple_colon t.
Proof.
  induction u as [|a u IH]; intros t N; simpl; auto.
  inversion N; subst. rewrite IH by assumption.
  destruct (N.eqb_spec a colon); [contradiction|reflexivity].
Qed.

Lemma triple_colon_1 : forall t,
  starts_colon t = false -> triple_colon (colon :: t) = triple_colon t.
Proof. intros t S. simpl. rewrite S. reflexivity. Qed.

Lemma triple_colon_2 : forall t,
  starts_colon t = false -> triple_colon (colon :: colon :: t) = triple_colon t.
Proof.
  intros t S. cbn [triple_colon tl starts_colon].
  rewrite N.eqb_refl, S. reflexivity.
Qed.

Lemma triple_colon_app_r : forall a t,
  triple_colon t = true -> triple_colon (a ++ t) = true.
Proof.
  induction a as [|c a IH]; intros t H; simpl; auto.
  rewrite IH by assumption. apply orb_true_r.
Qed.

Lemma triple_colon_four : forall a c,
  triple_colon (a ++ [colon; colon] ++ [colon; colon] ++ c) = true.
Proof. intros a c. apply triple_colon_app_r. reflexivity. Qed.

(** The first compression of a text. *)
Lemma compressions_find : forall s,
  1 <= compressions s -> exists a c, s = a ++ [colon; colon] ++ c.
Proof.
  induction s as [|x s IH]; simpl; intros H; [lia|].
  destruct ((x =? colon)%N && starts_colon s) eqn:E.
  - apply andb_prop in E. destruct E as [E1 E2].
    apply N.eqb_eq in E1. subst x.
    destruct s as [|y s]; [discriminate|]. simpl in E2.
    apply N.eqb_eq in E2. subst y. exists [], s. reflexivity.
  - destruct IH as (a & c & ->); [simpl in H; lia|].
    exists (x :: a), c. reflexivity.
Qed.

(** Two compressions overlap in three colons, or stand apart. *)
Lemma compressions_split : forall s,
  2 <= compressions s ->
  triple_colon s = true \/
  exists a b c, s = a ++ [colon; colon] ++ b ++ [colon; colon] ++ c.
Proof.
  induction s as [|x s IH]; simpl; intros H; [lia|].
  destruct (le_lt_dec 2 (compressions s)) as [L|L].
  - destruct (IH L) as [T|(a & b & c & ->)].
    + left. rewrite T. apply orb_true_r.
    + right. exists (x :: a), b, c. reflexivity.
  - destruct ((x =? colon)%N && starts_colon s) eqn:E; [|lia].
    apply andb_prop in E. destruct E as [E1 E2].
    apply N.eqb_eq in E1. subst x.
    destruct s as [|y s]; [discriminate|]. simpl in E2.
    apply N.eqb_eq in E2. subst y. simpl in H, L.
    destruct (starts_colon s) eqn:S3.
    + left. cbn [tl]. rewrite S3. reflexivity.
    + destruct (compressions_find s) as (a & c & ->); [simpl in H; lia|].
      right. exists [], a, c. reflexivity.
Qed.

(** *** Groups of hexadecimal digits *)

Lemma hexgroup_no_colon : forall h, hexgroup h -> no_colon h.
Proof.
  intros h [_ F]. unfold no_colon. eapply Forall_impl; [|exact F].
  apply hexdigit_not_colon.
Qed.

Lemma hexgroup_head : forall h,
  hexgroup h -> exists c u, h = c :: u /\ hexdigit c.
Proof.
  intros [|c u] [[L _] F]; simpl in *; [lia|].
  inversion F; subst. eauto.
Qed.

Lemma address_char_line : forall c, address_char c -> isLineTerminator c = false.
Proof.
  intros c [[H|[H|H]]|[E|E]]; subst; try reflexivity; chars_arith.
Qed.

Lemma hexgroup_chars : forall h, hexgroup h -> Forall address_char h.
Proof.
  intros h [_ F]. eapply Forall_impl; [|exact F]. intros c H. now left.
Qed.

Lemma Sem_hex14 : forall x y,
  Sem true hex14 x y <-> exists h, hexgroup h /\ moved h x y.
Proof.
  intros x y. unfold hex14, hex. cbn [Sem parens].
  rewrite Rep_chars by (simpl; lia). unfold hexgroup. split.
  - intros (w & F & L1 & L2 & M). exists w. split; [split; [lia|]|exact M].
    eapply Forall_impl; [|exact F]. intros a. apply hex_class.
  - intros (w & [[L1 L2] F] & M). exists w.
    split; [|split; [exact L1|split; [exact L2|exact M]]].
    eapply Forall_impl; [|exact F]. intros a. apply hex_class.
Qed.

Lemma Sem_colons : forall x y,
  Sem true colons x y <-> moved [colon; colon] x y.
Proof.
  intros x y. unfold colons. cbn [Sem seq fold_right]. split.
  - intros (m1 & H1 & m2 & H2 & ->). use_lit H1. use_lit H2.
    apply (moved_trans [colon] [colon] _ _ _ H1 H2).
  - intros M. apply (moved_split [colon] [colon]) in M.
    destruct M as (m & M1 & M2).
    exists m. split; [apply Sem_lit; [reflexivity|exact M1]|].
    exists y. split; [apply Sem_lit; [reflexivity|exact M2]|reflexivity].
Qed.

Lemma Sem_star_dot : forall x y,
  Sem true (star Dot) x y <-> exists w, no_line w /\ moved w x y.
Proof.
  intros x y. unfold star. cbn [Sem parens]. rewrite Rep_chars by exact I.
  split.
  - intros (w & F & _ & _ & M). eauto.
  - intros (w & F & M). exists w.
    split; [exact F|split; [lia|split; [exact I|exact M]]].
Qed.

Lemma Sem_plus_dot : forall x y,
  Sem true (plus Dot) x y <-> exists w, no_line w /\ w <> [] /\ moved w x y.
Proof.
  intros x y. unfold plus. cbn [Sem parens]. rewrite Rep_chars by exact I.
  split.
  - intros (w & F & L & _ & M). exists w. split; [exact F|split; [|exact M]].
    intros ->. simpl in L. lia.
  - intros (w & F & N & M). exists w.
    split; [exact F|split; [|split; [exact I|exact M]]].
    destruct w; [congruence|simpl; lia].
Qed.

(** [.*::] finds a compression. *)
Lemma Sem_find_colons : forall x y,
  Sem true (seq [star Dot; colons]) x y <->
  exists a, no_line a /\ moved (a ++ [colon; colon]) x y.
Proof.
  intros x y. cbn [seq fold_right]. cbn [Sem]. split.
  - intros (m1 & H1 & m2 & H2 & ->).
    apply Sem_star_dot in H1. destruct H1 as (a & Na & M1).
    apply Sem_colons in H2. exists a. split; auto.
    apply (moved_trans _ _ _ _ _ M1 H2).
  - intros (a & Na & M). apply moved_split in M. destruct M as (m & M1 & M2).
    exists m. split; [apply Sem_star_dot; eauto|].
    exists y. split; [now apply Sem_colons|reflexivity].
Qed.

(** [.*::.+::] finds two compressions with something between them. *)
Lemma Sem_find_two : forall x y,
  Sem true (seq [star Dot; colons; plus Dot; colons]) x y <->
  exists a b, no_line a /\ no_line b /\ b <> [] /\
    moved (a ++ [colon; colon] ++ b ++ [colon; colon]) x y.
Proof.
  intros x y. cbn [seq fold_right]. cbn [Sem]. split.
  - intros (m1 & H1 & m2 & H2 & m3 & H3 & m4 & H4 & ->).
    apply Sem_star_dot in H1. destruct H1 as (a & Na & M1).
    apply Sem_colons in H2. apply Sem_plus_dot in H3.
    destruct H3 as (b & Nb & Eb & M3). apply Sem_colons in H4.
    exists a, b. repeat (split; [assumption|]).
    apply (moved_trans _ _ _ _ _ M1).
    apply (moved_trans _ _ _ _ _ H2).
    apply (moved_trans _ _ _ _ _ M3 H4).
  - intros (a & b & Na & Nb & Eb & M).
    apply moved_split in M. destruct M as (m1 & M1 & M).
    apply moved_split in M. destruct M as (m2 & M2 & M).
    apply moved_split in M. destruct M as (m3 & M3 & M4).
    exists m1. split; [apply Sem_star_dot; eauto|].
    exists m2. split; [now apply Sem_colons|].
    exists m3. split; [apply Sem_plus_dot; eauto|].
    exists y. split; [now apply Sem_colons|reflexivity].
Qed.


(** *** What a match of the IPv6 pattern has read *)

Lemma piece1_piece : forall w, piece1 w -> piece w.
Proof.
  intros w [-> |(u & v & N & F & V & ->)]; [now left|right].
  exists u, v. intuition.
Qed.

Lemma word_char_no_colon : forall u, Forall word_char u -> no_colon u.
Proof.
  intros u F. eapply Forall_impl; [|exact F].
  intros c [H| ->]; [now apply hexdigit_not_colon|discriminate].
Qed.

Lemma word_char_address : forall u, Forall word_char u -> Forall address_char u.
Proof.
  intros u F. eapply Forall_impl; [|exact F].
  intros c [H| ->]; [now left|right; now right].
Qed.

Lemma hexgroup_word : forall h, hexgroup h -> h <> [] /\ Forall word_char h.
Proof.
  intros h [[L _] F]. split.
  - intros ->. simpl in L. lia.
  - eapply Forall_impl; [|exact F]. intros c H. now left.
Qed.

Lemma starts_colon_word : forall u t,
  u <> [] -> Forall word_char u -> starts_colon (u ++ t) = false.
Proof.
  intros [|c u] t N F; [congruence|]. simpl.
  apply word_char_no_colon in F. inversion F; subst. now apply N.eqb_neq.
Qed.

Lemma piece_tidy : forall w t, piece w -> tidy t -> tidy (w ++ t).
Proof.
  intros w t [-> |(u & v & N & F & V & ->)] (A & T & S); [repeat split; auto|].
  rewrite <- app_assoc. split; [|split].
  - apply Forall_app. split; [now apply word_char_address|].
    apply Forall_app. split; auto.
    destruct V as [-> |[-> | ->]]; repeat constructor; right; now left.
  - rewrite triple_no_colon by now apply word_char_no_colon.
    destruct V as [-> |[-> | ->]]; simpl app.
    + exact T.
    + now rewrite triple_colon_1.
    + now rewrite triple_colon_2.
  - now apply starts_colon_word.
Qed.

Lemma piece1_plain : forall w t, piece1 w -> plain t -> plain (w ++ t).
Proof.
  intros w t [-> |(u & v & N & F & V & ->)] (C & S); [split; auto|].
  rewrite <- app_assoc. split.
  - rewrite compressions_no_colon by now apply word_char_no_colon.
    destruct V as [-> | ->]; simpl app; auto.
    now rewrite compressions_colon.
  - now apply starts_colon_word.
Qed.

Lemma iter_inv : forall (R : State -> State -> Prop) (F : State -> Prop)
    (B : jsstring -> Prop),
  (forall x y, R x y -> F x -> F y /\ (B (after y) -> B (after x))) ->
  forall n x y, iter R n x y -> F x -> F y /\ (B (after y) -> B (after x)).
Proof.
  intros R F B HR. induction n as [|n IH]; simpl; intros x y H Fx.
  - subst. auto.
  - destruct H as (m & H1 & H2).
    destruct (HR _ _ H1 Fx) as [Fm Bm].
    destruct (IH _ _ H2 Fm) as [Fy By]. auto.
Qed.

Ltac app_norm :=
  repeat first [rewrite <- app_assoc | progress cbn [app]].

Lemma group3_shape : forall x y,
  Sem true group3 x y -> exists w, reads w x y /\ piece w.
Proof.
  intros x y. unfold group3, group4. cbn [Sem seq fold_right].
  intros (m & [H|H] & ->).
  - destruct H as (m1 & H1 & m2 & H2 & m3 & (m4 & H4 & ->) & ->).
    apply Sem_hex14 in H1. destruct H1 as (h & Hh & M1). use_lit H2.
    pose proof (moved_trans _ _ _ _ _ M1 H2) as M12.
    destruct (hexgroup_word _ Hh) as [N F].
    destruct H4 as [H4|[_ ->]].
    + use_lit H4. pose proof (moved_trans _ _ _ _ _ M12 H4) as [M _].
      exists ((h ++ [colon]) ++ [colon]). split; [exact M|].
      right. exists h, [colon; colon]. rewrite <- app_assoc. intuition.
    + destruct M12 as [M _]. exists (h ++ [colon]). split; [exact M|].
      right. exists h, [colon]. intuition.
  - subst m. exists []. split; [split; reflexivity|now left].
Qed.

Lemma group5_shape : forall x y,
  Sem true group5 x y ->
  exists h, hexgroup h /\ reads (h ++ [colon]) x y.
Proof.
  intros x y. unfold group5. cbn [Sem seq fold_right].
  intros (m & (m1 & H1 & m2 & H2 & ->) & ->).
  apply Sem_hex14 in H1. destruct H1 as (h & Hh & M1). use_lit H2.
  destruct (moved_trans _ _ _ _ _ M1 H2) as [M _]. eauto.
Qed.

(** With the third group undefined, [(?!\3)] never holds. *)
Lemma no_backref3 : forall x,
  get_cap 3 (captures x) = None ->
  ~ (forall m, ~ Sem true (BackRef 3) x m).
Proof.
  intros x C H. apply (H x). simpl. now rewrite C.
Qed.

Lemma group7_shape : forall x y,
  Sem true group7 x y ->
  exists w, reads w x y /\ piece w /\
            (get_cap 3 (captures x) = None -> piece1 w).
Proof.
  intros x y. unfold group7, group8, group9. cbn [Sem seq fold_right].
  intros (m & [H|[_ ->]] & ->).
  - destruct H as (m0 & (m1 & H1 & m2 & (m3 & H3 & ->) & ->) & ->).
    apply Sem_hex14 in H1. destruct H1 as (h & Hh & M1).
    destruct (hexgroup_word _ Hh) as [N F].
    destruct H3 as [H3|[H3|[_ ->]]].
    + destruct H3 as (m4 & [H4 ->] & m5 & H5 & ->).
      apply Sem_colons in H5.
      destruct (moved_trans _ _ _ _ _ M1 H5) as [M _].
      exists (h ++ [colon; colon]). split; [exact M|]. split.
      * right. exists h, [colon; colon]. intuition.
      * intros C. exfalso. apply (no_backref3 m1); auto.
        destruct M1 as [_ ->]. exact C.
    + destruct H3 as (m4 & H4 & m5 & [_ ->] & ->). use_lit H4.
      destruct (moved_trans _ _ _ _ _ M1 H4) as [M _].
      exists (h ++ [colon]). split; [exact M|]. split; [|intros _];
        right; exists h, [colon]; intuition.
    + destruct M1 as [M _]. exists h. split; [exact M|].
      split; [|intros _]; right; exists h, []; rewrite app_nil_r; intuition.
  - exists []. split; [split; reflexivity|]. split; [|intros _]; now left.
Qed.

Lemma digits_word : forall w, digits w -> Forall word_char w.
Proof.
  intros w F. eapply Forall_impl; [|exact F]. intros c H. left. now left.
Qed.

Lemma group12_shape : forall x y,
  Sem true group12 x y -> exists w, reads w x y /\ digits w.
Proof.
  intros x y. unfold group12. cbn [Sem seq fold_right].
  intros (m & [H|[H|H]] & ->).
  - destruct H as (m1 & H1 & m2 & H2 & ->). use_lit H1. use_range H2 b Db.
    destruct (moved_trans _ _ _ _ _ H1 H2) as [M _].
    eexists. split; [exact M|]. repeat constructor. chars_arith.
  - destruct H as (m1 & H1 & m2 & H2 & ->). use_lit H1. use_digit H2 b Db.
    destruct (moved_trans _ _ _ _ _ H1 H2) as [M _].
    eexists. split; [exact M|]. constructor; [reflexivity|]. constructor; [exact Db|constructor].
  - use_range H b Db. destruct H as [M _].
    eexists. split; [exact M|]. repeat constructor. chars_arith.
Qed.

Lemma group11_shape : forall x y,
  Sem true group11 x y -> exists w, reads w x y /\ digits w /\ w <> [].
Proof.
  intros x y. unfold group11. cbn [Sem seq fold_right].
  intros (m & [H|H] & ->).
  - destruct H as (m1 & H1 & m2 & H2 & ->). use_digit H2 b Db.
    destruct H2 as [M2 _].
    unfold opt in H1. cbn [Sem] in H1. apply Rep_opt in H1.
    destruct H1 as [-> |[H1 _]].
    + exists [b]. split; [exact M2|]. split; [|discriminate].
      constructor; [exact Db|constructor].
    + apply group12_shape in H1. destruct H1 as (w & M1 & D1).
      exists (w ++ [b]). split; [apply (reads_trans _ _ _ _ _ M1 M2)|].
      split; [|intros E; apply app_eq_nil in E; destruct E; discriminate].
      apply Forall_app. split; [exact D1|]. constructor; [exact Db|constructor].
  - destruct H as (m1 & H1 & m2 & H2 & m3 & H3 & ->).
    use_lit H1. use_lit H2. use_range H3 c Dc.
    destruct (moved_trans _ _ _ _ _ H1 (moved_trans _ _ _ _ _ H2 H3)) as [M _].
    eexists. split; [exact M|]. split; [|discriminate].
    repeat constructor. chars_arith.
Qed.

Lemma group10_shape : forall x y,
  Sem true group10 x y -> exists w, reads w x y /\ piece1 w.
Proof.
  intros x y. unfold group10. cbn [Sem seq fold_right].
  intros (m & (m1 & H1 & m2 & H2 & m3 & [_ ->] & ->) & ->).
  apply group11_shape in H1. destruct H1 as (w & M1 & D & N).
  unfold opt in H2. cbn [Sem] in H2. apply Rep_opt in H2.
  destruct H2 as [-> |[H2 _]].
  - exists w. split; [exact M1|]. right. exists w, [].
    rewrite app_nil_r. repeat split; auto. now apply digits_word.
  - rewrite cleared_nil in H2. apply step_moved in H2.
    destruct H2 as (c & E & [M2 _]). apply canon_literal in E; [|reflexivity].
    subst c. exists (w ++ [dot]). split; [apply (reads_trans _ _ _ _ _ M1 M2)|].
    right. exists (w ++ [dot]), []. rewrite app_nil_r. repeat split; auto.
    + intros E. apply app_eq_nil in E. destruct E; discriminate.
    + apply Forall_app. split; [now apply digits_word|].
      constructor; [now right|constructor].
Qed.

Lemma rounds_back : forall g n (B : jsstring -> Prop),
  (forall x y, Sem true g x y -> B (after y) -> B (after x)) ->
  forall x y, Sem true (times n g) x y -> B (after y) -> B (after x).
Proof.
  intros g n B Hg x y H. unfold times in H. cbn [Sem] in H.
  apply Rep_times in H.
  apply (iter_inv (fun x y => Sem true g (cleared (parens g) x) y)
           (fun _ => True) B) with (n := n) (x := x) (y := y); auto.
  intros x' y' H' _. split; auto. apply (Hg _ _ H').
Qed.

Lemma rounds_back_undefined : forall g n k (B : jsstring -> Prop),
  ~ In k (parens g) ->
  (forall x y, Sem true g x y -> get_cap k (captures x) = None ->
               B (after y) -> B (after x)) ->
  forall x y, Sem true (times n g) x y -> get_cap k (captures x) = None ->
              B (after y) -> B (after x).
Proof.
  intros g n k B N Hg x y H. unfold times in H. cbn [Sem] in H.
  apply Rep_times in H.
  apply (iter_inv (fun x y => Sem true g (cleared (parens g) x) y)
           (fun x => get_cap k (captures x) = None) B) with (n := n) (x := x) (y := y);
    auto.
  intros x' y' H' C.
  assert (C' : get_cap k (captures (cleared (parens g) x')) = None).
  { simpl. now rewrite get_clear_other. }
  split.
  - rewrite (Sem_cap_other true g k _ _ N H'). exact C'.
  - apply (Hg _ _ H' C').
Qed.

Lemma reads_after : forall w x y, reads w x y -> after x = w ++ after y.
Proof. intros w x y [A _]. exact A. Qed.

(** The second half of the pattern, read backwards from the end. *)
Lemma group6_back : forall x y,
  Sem true group6 x y ->
  (tidy (after y) -> tidy (after x)) /\
  (get_cap 3 (captures x) = None -> plain (after y) -> plain (after x)).
Proof.
  intros x y. unfold group6. cbn [Sem].
  intros (m & [H|H] & ->); simpl after; split.
  - revert H. apply rounds_back. intros x' y' H' T.
    apply group7_shape in H'. destruct H' as (w & R & P & _).
    rewrite (reads_after _ _ _ R). now apply piece_tidy.
  - revert H. apply rounds_back_undefined.
    + simpl. intuition discriminate.
    + intros x' y' H' C T.
      apply group7_shape in H'. destruct H' as (w & R & _ & P).
      rewrite (reads_after _ _ _ R). apply piece1_plain; auto.
  - revert H. apply rounds_back. intros x' y' H' T.
    apply group10_shape in H'. destruct H' as (w & R & P).
    rewrite (reads_after _ _ _ R). apply piece_tidy; auto.
    now apply piece1_piece.
  - intros _. revert H. apply rounds_back. intros x' y' H' T.
    apply group10_shape in H'. destruct H' as (w & R & P).
    rewrite (reads_after _ _ _ R). now apply piece1_plain.
Qed.

Lemma moved_exists : forall w t x,
  after x = w ++ t -> exists y, moved w x y /\ after y = t.
Proof.
  intros w t x A. exists (mkState (rev w ++ before x) t (captures x)).
  split; [split; [split|]|]; auto.
Qed.

(** The first alternative of the first half: the text from here on has
    a colon, is written with the characters of an address, has no three
    colons in a row, and not two compressions apart. *)
Lemma compressed_back : forall x y,
  Sem true (seq [has_compression; no_second_compression; opt group2;
                 times 5 group3]) x y ->
  tidy (after y) ->
  In colon (after x) /\
  Forall address_char (after x) /\ triple_colon (after x) = false /\
  forall a b c, b <> [] ->
    after x <> a ++ [colon; colon] ++ b ++ [colon; colon] ++ c.
Proof.
  intros x y. cbn [seq fold_right]. unfold has_compression, no_second_compression.
  cbn [Sem].
  intros (m1 & (l & L & ->) & m2 & [Nl ->] & m3 & H3 & m4 & H4 & ->) T.
  assert (T3 : tidy (after m3)).
  { revert H4 T. apply rounds_back. intros x' y' H' T'.
    apply group3_shape in H'. destruct H' as (w & R & P).
    rewrite (reads_after _ _ _ R). now apply piece_tidy. }
  assert (A : Forall address_char (after x) /\ triple_colon (after x) = false).
  { apply Rep_opt in H3. destruct H3 as [-> |[H3 _]].
    - simpl. destruct T3 as (A1 & A2 & _). auto.
    - unfold group2 in H3. cbn [Sem] in H3. destruct H3 as (m & H3 & ->).
      apply Sem_colons in H3. destruct H3 as [R _].
      apply reads_after in R. simpl in R. rewrite R.
      destruct T3 as (A1 & A2 & A3). simpl after in *. split.
      + constructor; [right; now left|]. constructor; [right; now left|]. exact A1.
      + now rewrite triple_colon_2. }
  destruct A as [A1 A2]. split; [|split; [exact A1|split; [exact A2|]]].
  - apply Sem_find_colons in L. destruct L as (a & _ & [R _]).
    apply reads_after in R. rewrite R. rewrite <- app_assoc.
    apply in_or_app. right. left. reflexivity.
  - intros a b c Nb E.
    rewrite E in A1. apply Forall_app in A1. destruct A1 as [Fa A1].
    apply Forall_app in A1. destruct A1 as [_ A1].
    apply Forall_app in A1. destruct A1 as [Fb _].
    destruct (moved_exists (a ++ [colon; colon] ++ b ++ [colon; colon]) c
                (mkState (before x) (after x) (captures l))) as (m & M & _).
    { simpl after. rewrite E. app_norm. reflexivity. }
    apply (Nl m). apply Sem_find_two. exists a, b.
    split; [eapply Forall_impl; [|exact Fa]; apply address_char_line|].
    split; [eapply Forall_impl; [|exact Fb]; apply address_char_line|].
    split; [exact Nb|exact M].
Qed.

(** The second alternative of the first half: six groups, each with its
    colon. *)
Lemma six_groups_back : forall x y,
  Sem true (times 6 group5) x y ->
  plain (after y) ->
  In colon (after x) /\ plain (after x) /\
  get_cap 3 (captures y) = get_cap 3 (captures x).
Proof.
  intros x y H P. split; [|split].
  - unfold times in H. cbn [Sem] in H. apply Rep_times in H.
    destruct H as (m & H & _). apply group5_shape in H.
    destruct H as (h & _ & R). apply reads_after in R. simpl in R. rewrite R.
    rewrite <- app_assoc. apply in_or_app. right. left. reflexivity.
  - revert H P. apply rounds_back. intros x' y' H' P'.
    apply group5_shape in H'. destruct H' as (h & Hh & R).
    rewrite (reads_after _ _ _ R). apply piece1_plain; auto.
    right. exists h, [colon]. destruct (hexgroup_word _ Hh). auto.
  - apply (Sem_cap_other true (times 6 group5)); auto.
    simpl. intuition discriminate.
Qed.

(** What the IPv6 pattern accepts has a colon and does not have two
    compressions, overlapping or apart. *)
Theorem test_ipv6_inv : forall s,
  test regexes.ipv6 s = true ->
  In colon s /\
  compressions s <= 1 /\
  forall a b c, s <> a ++ [colon; colon] ++ b ++ [colon; colon] ++ c.
Proof.
  intros s H.
  rewrite (test_anchored regexes.ipv6 (seq [group1; group6; LineEnd])) in H
    by reflexivity.
  change (ignoreCase regexes.ipv6) with true in H.
  remember (start regexes.ipv6 [] s) as x eqn:Ex.
  assert (Hx : after x = s) by (subst x; reflexivity).
  assert (Cx : get_cap 3 (captures x) = None) by (subst x; reflexivity).
  clear Ex. rewrite <- Hx. clear Hx s.
  destruct H as (y & H). cbn [seq fold_right] in H. cbn [Sem] in H.
  destruct H as (x1 & H1 & x2 & H2 & x3 & [E ->] & ->).
  apply group6_back in H2. destruct H2 as [T P].
  unfold group1 in H1. cbn [Sem] in H1. destruct H1 as (m & [H1|H1] & ->).
  - cbn [captures after] in T, P.
    apply compressed_back in H1;
      [|apply T; rewrite E; repeat split; auto].
    destruct H1 as (I & A1 & A2 & N). split; [exact I|].
    assert (N' : forall a b c,
               after x <> a ++ [colon; colon] ++ b ++ [colon; colon] ++ c).
    { intros a b c Eq. destruct b as [|b0 b].
      - pose proof (triple_colon_four a c) as Q.
        rewrite Eq in A2. cbn [app] in Q, A2. congruence.
      - apply (N a (b0 :: b) c); [discriminate|exact Eq]. }
    split; [|exact N'].
    destruct (le_lt_dec 2 (compressions (after x))) as [L|L]; [|lia].
    destruct (compressions_split _ L) as [Tc|(a & b & c & Eq)];
      [congruence|now elim (N' a b c)].
  - cbn [captures after] in T, P.
    apply six_groups_back in H1.
    + destruct H1 as (I & [C _] & _). split; [exact I|]. split; [lia|].
      intros a b c Eq. rewrite Eq in C.
      pose proof (compressions_two a b c). lia.
    + apply P; [|rewrite E; split; reflexivity].
      rewrite get_set_other by discriminate.
      rewrite <- Cx. apply (Sem_cap_other true (times 6 group5)); auto.
      simpl. intuition discriminate.
Qed.

(** *** Building matches of the IPv6 pattern *)

Lemma matched_reads : forall w x y, reads w x y -> matched x y = w.
Proof.
  intros w x y [A _]. unfold matched. rewrite A, length_app.
  replace (length w + length (after y) - length (after y)) with (length w) by lia.
  rewrite firstn_app, firstn_all, Nat.sub_diag. simpl. apply app_nil_r.
Qed.

Lemma moved_from : forall w t x,
  after x = w ++ t ->
  moved w x (mkState (rev w ++ before x) t (captures x)).
Proof. intros w t x A. split; [split|]; auto. Qed.

Lemma hexgroup_starts_word : forall h t, hexgroup h -> starts_word (h ++ t) = true.
Proof.
  intros h t H. destruct (hexgroup_head _ H) as (c & u & -> & Hc).
  simpl. now apply hexdigit_word.
Qed.

(** One round of the third group that reads nothing. *)
Lemma group3_empty : forall b t c2 c3 x,
  at_ b t c2 c3 x ->
  exists y, Sem true group3 (cleared (parens group3) x) y /\
            at_ b t c2 (Some []) y.
Proof.
  intros b t c2 c3 x (B & A & C2 & C3 & L).
  eexists. split.
  - unfold group3. cbn [Sem]. eexists. split; [right; reflexivity|reflexivity].
  - unfold at_. cbn [before after captures cleared].
    rewrite get_set_other, get_clear_other by (simpl; intuition discriminate).
    rewrite get_set_same, set_cap_length, clear_caps_length
      by (rewrite clear_caps_length; lia).
    unfold matched. rewrite Nat.sub_diag. auto.
Qed.

Lemma at_cleared : forall ps b t c2 c3 x,
  ~ In 2 ps -> ~ In 3 ps ->
  at_ b t c2 c3 x -> at_ b t c2 c3 (cleared ps x).
Proof.
  intros ps b t c2 c3 x N2 N3 (B & A & C2 & C3 & L).
  unfold at_. cbn [before after captures cleared].
  rewrite !get_clear_other, clear_caps_length by assumption. auto.
Qed.

(** The state reached by a round of the third group that read [w]. *)
Lemma group3_at : forall w b t c2 c3 x m v,
  at_ b (w ++ t) c2 c3 x ->
  reads w (cleared (parens group3) x) m ->
  captures m = set_cap 4 v (clear_caps (parens group3) (captures x)) ->
  at_ (rev w ++ b) t c2 (Some w)
    (mkState (before m) (after m)
       (set_cap 3 (Some (matched (cleared (parens group3) x) m)) (captures m))).
Proof.
  intros w b t c2 c3 x m v (B & A & C2 & C3 & L) R C.
  rewrite (matched_reads _ _ _ R). destruct R as [R1 R2].
  cbn [before after cleared] in R1, R2.
  unfold at_. cbn [before after captures]. rewrite R2, B, C.
  rewrite A in R1. apply app_inv_head in R1.
  rewrite !get_set_other, get_clear_other by (simpl; intuition discriminate).
  rewrite get_set_same, !set_cap_length, clear_caps_length
    by (rewrite set_cap_length, clear_caps_length; lia).
  auto.
Qed.

(** One round of the third group that reads a group and two colons. *)
Lemma group3_double : forall h b t c2 c3 x,
  hexgroup h ->
  at_ b ((h ++ [colon; colon]) ++ t) c2 c3 x ->
  exists y, Sem true group3 (cleared (parens group3) x) y /\
            at_ (rev (h ++ [colon; colon]) ++ b) t c2 (Some (h ++ [colon; colon])) y.
Proof.
  intros h b t c2 c3 x Hh H.
  set (x' := cleared (parens group3) x).
  assert (A' : after x' = h ++ [colon] ++ [colon] ++ t).
  { destruct H as (_ & A & _). simpl. rewrite A. app_norm. reflexivity. }
  pose proof (moved_from h _ x' A') as M1.
  set (m1 := mkState (rev h ++ before x') _ (captures x')) in M1.
  pose proof (moved_from [colon] ([colon] ++ t) m1 eq_refl) as M2.
  set (m2 := mkState (rev [colon] ++ before m1) _ (captures m1)) in M2.
  pose proof (moved_from [colon] t m2 eq_refl) as M3.
  set (m3 := mkState (rev [colon] ++ before m2) _ (captures m2)) in M3.
  destruct (moved_trans _ _ _ _ _ M1 (moved_trans _ _ _ _ _ M2 M3)) as [R _].
  eexists. split.
  - unfold group3. cbn [Sem seq fold_right]. eexists. split; [left|reflexivity].
    exists m1. split; [apply Sem_hex14; eauto|].
    exists m2. split; [apply Sem_lit; [reflexivity|exact M2]|].
    eexists. split; [|reflexivity].
    unfold group4. cbn [Sem]. exists m3. split; [|reflexivity].
    left. apply Sem_lit; [reflexivity|exact M3].
  - eapply group3_at; [exact H| |reflexivity]. exact R.
Qed.

(** One round of the third group that reads a group and one colon, with
    a digit or a letter behind. *)
Lemma group3_single : forall h b t c2 c3 x,
  hexgroup h ->
  starts_word t = true ->
  at_ b ((h ++ [colon]) ++ t) c2 c3 x ->
  exists y, Sem true group3 (cleared (parens group3) x) y /\
            at_ (rev (h ++ [colon]) ++ b) t c2 (Some (h ++ [colon])) y.
Proof.
  intros h b t c2 c3 x Hh Hw H.
  set (x' := cleared (parens group3) x).
  assert (A' : after x' = h ++ [colon] ++ t).
  { destruct H as (_ & A & _). simpl. rewrite A. app_norm. reflexivity. }
  pose proof (moved_from h _ x' A') as M1.
  set (m1 := mkState (rev h ++ before x') _ (captures x')) in M1.
  pose proof (moved_from [colon] t m1 eq_refl) as M2.
  set (m2 := mkState (rev [colon] ++ before m1) _ (captures m1)) in M2.
  destruct (moved_trans _ _ _ _ _ M1 M2) as [R _].
  eexists. split.
  - unfold group3. cbn [Sem seq fold_right]. eexists. split; [left|reflexivity].
    exists m1. split; [apply Sem_hex14; eauto|].
    exists m2. split; [apply Sem_lit; [reflexivity|exact M2]|].
    eexists. split; [|reflexivity].
    unfold group4. cbn [Sem]. exists m2. split; [|reflexivity].
    right. split; [|reflexivity].
    unfold word_before, word_after. simpl. exact Hw.
  - eapply group3_at; [exact H| |reflexivity]. exact R.
Qed.

(** One round of the third group that reads an item. *)
Lemma group3_item : forall i b t c2 c3 x,
  hexgroup (fst i) ->
  snd i = true \/ starts_word t = true ->
  at_ b (item_text i ++ t) c2 c3 x ->
  exists y, Sem true group3 (cleared (parens group3) x) y /\
            at_ (rev (item_text i) ++ b) t c2 (Some (item_text i)) y.
Proof.
  intros [h [|]] b t c2 c3 x Hh Hd H; unfold item_text in *; simpl in Hh, Hd;
    cbn [fst snd] in *.
  - now apply group3_double with c3.
  - destruct Hd as [Hd|Hd]; [discriminate|]. now apply group3_single with c3.
Qed.

Lemma iter_app : forall (R : State -> State -> Prop) n m x y z,
  iter R n x y -> iter R m y z -> iter R (n + m) x z.
Proof.
  intros R. induction n as [|n IH]; simpl; intros m x y z H1 H2.
  - now subst.
  - destruct H1 as (x' & H & H1). exists x'. split; auto. eapply IH; eauto.
Qed.

Lemma items_text_cons : forall i its,
  items_text (i :: its) = item_text i ++ items_text its.
Proof. reflexivity. Qed.

Lemma items_text_app : forall l1 l2,
  items_text (l1 ++ l2) = items_text l1 ++ items_text l2.
Proof.
  intros l1 l2. unfold items_text. now rewrite map_app, concat_app.
Qed.

(** As many rounds of the third group as there are items. *)
Lemma group3_run : forall its b t c2 c3 x,
  chain its t ->
  at_ b (items_text its ++ t) c2 c3 x ->
  exists y, iter round3 (length its) x y /\
            at_ (rev (items_text its) ++ b) t c2 (last_cap its c3) y.
Proof.
  induction its as [|i its IH]; intros b t c2 c3 x Ch H.
  - exists x. split; [reflexivity|exact H].
  - destruct Ch as (Hh & Hd & Ch).
    rewrite items_text_cons, <- app_assoc in H.
    destruct (group3_item i _ _ _ _ _ Hh Hd H) as (m & S1 & H1).
    destruct (IH _ _ _ _ _ Ch H1) as (y & S2 & H2).
    exists y. split; [exists m; split; assumption|].
    rewrite items_text_cons, rev_app_distr, <- app_assoc. exact H2.
Qed.

(** Rounds of the third group that read nothing. *)
Lemma group3_idle : forall n b t c2 c3 x,
  at_ b t c2 c3 x ->
  exists y, iter round3 n x y /\
            at_ b t c2 (match n with O => c3 | S _ => Some [] end) y.
Proof.
  induction n as [|n IH]; intros b t c2 c3 x H.
  - exists x. split; [reflexivity|exact H].
  - destruct (group3_empty _ _ _ _ _ H) as (m & S1 & H1).
    destruct (IH _ _ _ _ _ H1) as (y & S2 & H2).
    exists y. split; [exists m; split; assumption|].
    destruct n; exact H2.
Qed.

(** Five rounds of the third group over at most five items: the idle
    rounds first. *)
Lemma group3_five : forall its b t c2 c3 x,
  length its <= 5 ->
  chain its t ->
  at_ b (items_text its ++ t) c2 c3 x ->
  exists y, Sem true (times 5 group3) x y /\
            at_ (rev (items_text its) ++ b) t c2
              (last_cap its (match 5 - length its with O => c3 | S _ => Some [] end)) y.
Proof.
  intros its b t c2 c3 x L Ch H.
  destruct (group3_idle (5 - length its) _ _ _ _ _ H) as (m & S1 & H1).
  destruct (group3_run its _ _ _ _ _ Ch H1) as (y & S2 & H2).
  exists y. split; [|exact H2].
  unfold times. cbn [Sem]. apply Rep_times.
  replace 5 with ((5 - length its) + length its) at 1 by lia.
  eapply iter_app; eauto.
Qed.

Lemma at_set : forall n v b t c2 c3 b' t' caps,
  n <> 2 -> n <> 3 ->
  at_ b t c2 c3 (mkState b' t' caps) ->
  at_ b t c2 c3 (mkState b' t' (set_cap n v caps)).
Proof.
  intros n v b t c2 c3 b' t' caps N2 N3 (B & A & C2 & C3 & L).
  unfold at_. cbn [before after captures] in *.
  rewrite !get_set_other, set_cap_length by congruence. auto.
Qed.

Lemma at_moved : forall w b t c2 c3 x y,
  moved w x y -> at_ b (w ++ t) c2 c3 x -> at_ (rev w ++ b) t c2 c3 y.
Proof.
  intros w b t c2 c3 x y [[R1 R2] C] (B & A & C2 & C3 & L).
  unfold at_. rewrite R2, B, C. rewrite A in R1. apply app_inv_head in R1.
  auto.
Qed.

(** A round of the seventh group over a group and one colon, with a
    digit or a letter behind. *)
Lemma group7_single : forall h b t c2 c3 x,
  hexgroup h ->
  starts_word t = true ->
  at_ b ((h ++ [colon]) ++ t) c2 c3 x ->
  exists y, round7 x y /\ at_ (rev (h ++ [colon]) ++ b) t c2 c3 y.
Proof.
  intros h b t c2 c3 x Hh Hw H.
  apply (at_cleared (parens group7)) in H; [|simpl; intuition discriminate..].
  set (x' := cleared (parens group7) x) in *.
  assert (A' : after x' = h ++ [colon] ++ t).
  { destruct H as (_ & A & _). rewrite A. app_norm. reflexivity. }
  pose proof (moved_from h _ x' A') as M1.
  set (m1 := mkState (rev h ++ before x') _ (captures x')) in M1.
  pose proof (moved_from [colon] t m1 eq_refl) as M2.
  set (m2 := mkState (rev [colon] ++ before m1) _ (captures m1)) in M2.
  pose proof (moved_trans _ _ _ _ _ M1 M2) as M.
  eexists. split.
  - unfold round7, group7, group8, group9. cbn [Sem seq fold_right].
    eexists. split; [left|reflexivity].
    eexists. split; [|reflexivity].
    exists m1. split; [apply Sem_hex14; eauto|].
    eexists. split; [|reflexivity].
    eexists. split; [|reflexivity].
    right. left. exists m2. split; [apply Sem_lit; [reflexivity|exact M2]|].
    exists m2. split; [|reflexivity]. split; [|reflexivity].
    unfold word_before, word_after. simpl. exact Hw.
  - cbn [before after captures].
    apply at_set; [discriminate..|]. apply at_set; [discriminate..|].
    apply at_set; [discriminate..|].
    apply (at_moved _ _ _ _ _ _ _ M H).
Qed.

(** A round of the seventh group over the last group of the text. *)
Lemma group7_last : forall h b c2 c3 x,
  hexgroup h ->
  at_ b h c2 c3 x ->
  exists y, round7 x y /\ at_ (rev h ++ b) [] c2 c3 y.
Proof.
  intros h b c2 c3 x Hh H.
  apply (at_cleared (parens group7)) in H; [|simpl; intuition discriminate..].
  set (x' := cleared (parens group7) x) in *.
  assert (A' : after x' = h ++ []).
  { destruct H as (_ & A & _). rewrite A. now rewrite app_nil_r. }
  pose proof (moved_from h _ x' A') as M1.
  set (m1 := mkState (rev h ++ before x') _ (captures x')) in M1.
  eexists. split.
  - unfold round7, group7, group8, group9. cbn [Sem seq fold_right].
    eexists. split; [left|reflexivity].
    eexists. split; [|reflexivity].
    exists m1. split; [apply Sem_hex14; eauto|].
    eexists. split; [|reflexivity].
    eexists. split; [|reflexivity].
    right. right. split; reflexivity.
  - cbn [before after captures].
    apply at_set; [discriminate..|]. apply at_set; [discriminate..|].
    apply at_set; [discriminate..|].
    apply (at_moved h b [] c2 c3 x' m1 M1). now rewrite app_nil_r.
Qed.

Lemma back_match_differs : forall c u x a rest,
  after x = a :: rest ->
  Canonicalize true c <> Canonicalize true a ->
  back_match true (c :: u) x = None.
Proof.
  intros c u x a rest A N. cbn [back_match]. rewrite A.
  destruct (N.eqb_spec (Canonicalize true c) (Canonicalize true a));
    [contradiction|reflexivity].
Qed.

Lemma back_match_end : forall c u x,
  after x = [] -> back_match true (c :: u) x = None.
Proof. intros c u x A. simpl. now rewrite A. Qed.

(** A round of the seventh group over a group and two colons, when the
    third capture begins with a digit or a letter. *)
Lemma group7_double : forall h b t c2 c u x,
  hexgroup h ->
  hexdigit c ->
  at_ b ((h ++ [colon; colon]) ++ t) c2 (Some (c :: u)) x ->
  exists y, round7 x y /\
            at_ (rev (h ++ [colon; colon]) ++ b) t c2 (Some (c :: u)) y.
Proof.
  intros h b t c2 c u x Hh Hc H.
  apply (at_cleared (parens group7)) in H; [|simpl; intuition discriminate..].
  set (x' := cleared (parens group7) x) in *.
  assert (A' : after x' = h ++ [colon; colon] ++ t).
  { destruct H as (_ & A & _). rewrite A. app_norm. reflexivity. }
  pose proof (moved_from h _ x' A') as M1.
  set (m1 := mkState (rev h ++ before x') _ (captures x')) in M1.
  pose proof (moved_from [colon; colon] t m1 eq_refl) as M2.
  set (m2 := mkState (rev [colon; colon] ++ before m1) _ (captures m1)) in M2.
  pose proof (moved_trans _ _ _ _ _ M1 M2) as M.
  eexists. split.
  - unfold round7, group7, group8, group9. cbn [Sem seq fold_right].
    eexists. split; [left|reflexivity].
    eexists. split; [|reflexivity].
    exists m1. split; [apply Sem_hex14; eauto|].
    eexists. split; [|reflexivity].
    eexists. split; [|reflexivity].
    left. exists m1. split.
    + split; [|reflexivity]. intros m Hm.
      destruct H as (_ & _ & _ & C3 & _). cbn [Sem] in Hm.
      change (get_cap 3 (captures m1)) with (get_cap 3 (captures x')) in Hm.
      rewrite C3 in Hm.
      rewrite (back_match_differs c u m1 colon (colon :: t)) in Hm;
        [discriminate|reflexivity|].
      intros E. apply canon_literal in E; [|reflexivity].
      now apply (hexdigit_not_colon c).
    + exists m2. split; [apply Sem_colons; exact M2|reflexivity].
  - cbn [before after captures].
    apply at_set; [discriminate..|]. apply at_set; [discriminate..|].
    apply at_set; [discriminate..|].
    apply (at_moved _ _ _ _ _ _ _ M H).
Qed.

(** A round of the seventh group that reads nothing, at the end of the
    text. *)
Lemma group7_idle : forall b c2 c3 x,
  blocked c2 c3 ->
  at_ b [] c2 c3 x ->
  exists y, round7 x y /\ at_ b [] c2 c3 y.
Proof.
  intros b c2 c3 x Bl H. unfold round7.
  apply (at_cleared (parens group7)) in H; [|simpl; intuition discriminate..].
  remember (cleared (parens group7) x) as x' eqn:Ex. clear Ex x.
  eexists. split.
  - unfold group7. cbn [Sem seq fold_right].
    eexists. split; [right|reflexivity]. split; [|reflexivity].
    intros m (m1 & H1 & m2 & H2 & ->).
    destruct H as (_ & A & C2 & C3 & _).
    cbn [Sem] in H1, H2. rewrite C2 in H1. destruct Bl as [(a & s & ->)|[-> (a & s & ->)]].
    + rewrite back_match_end in H1 by exact A. discriminate.
    + subst m1. rewrite C3 in H2.
      rewrite back_match_end in H2 by exact A. discriminate.
  - cbn [before after captures]. apply at_set; [discriminate..|]. exact H.
Qed.


(** *** The dotted quad at the end of an address *)

Lemma lit_from : forall c t x,
  (c < 65)%N -> after x = c :: t ->
  Sem true (Chr c) x (mkState (c :: before x) t (captures x)).
Proof.
  intros c t x L A. apply Sem_lit; auto. apply (moved_from [c] t x A).
Qed.

Lemma digit_from : forall c t x,
  isDigit c = true -> after x = c :: t ->
  Sem true digit x (mkState (c :: before x) t (captures x)).
Proof.
  intros c t x D A. apply Sem_digit. exists c. split; auto.
  apply (moved_from [c] t x A).
Qed.

Lemma range_from : forall lo hi c t x,
  (48 <= lo)%N -> (hi <= 57)%N ->
  in_range lo hi c = true -> after x = c :: t ->
  Sem true (Class [CRange lo hi]) x (mkState (c :: before x) t (captures x)).
Proof.
  intros lo hi c t x L U D A. apply Sem_range; auto. exists c. split; auto.
  apply (moved_from [c] t x A).
Qed.

(** [(2[0-4]|1\d|[1-9])?\d|25[0-5]] reads every octet word. *)
Lemma group11_octet : forall w t x,
  octet_text w = true ->
  after x = w ++ t ->
  exists y, Sem true group11 x y /\ pos_ (rev w ++ before x) t y.
Proof.
  intros w t x T A. unfold group11, group12, opt. cbn [Sem seq fold_right].
  destruct w as [|a [|b [|c [|d w]]]]; simpl in T; try discriminate; simpl in A.
  - eexists. split.
    { eexists. split; [left|reflexivity].
      exists x. split; [apply Rep_opt; now left|].
      eexists. split; [apply (digit_from a t); assumption|reflexivity]. }
    split; reflexivity.
  - apply andb_prop in T. destruct T as [T1 T2].
    eexists. split.
    { eexists. split; [left|reflexivity].
      eexists. split.
      - apply Rep_opt. right. split.
        + cbn [Sem]. eexists. split; [|reflexivity]. right. right.
          apply (range_from _ _ a (b :: t)); try (vm_compute; discriminate); auto.
        + unfold endIndex. simpl. lia.
      - eexists. split; [apply (digit_from b t); [assumption|reflexivity]|reflexivity]. }
    split; reflexivity.
  - apply orb_prop in T. destruct T as [T|T];
      [apply orb_prop in T; destruct T as [T|T]|];
      apply andb_prop in T; destruct T as [T T3];
      apply andb_prop in T; destruct T as [T1 T2];
      apply N.eqb_eq in T1; subst a.
    + eexists. split.
      { eexists. split; [left|reflexivity].
        eexists. split.
        - apply Rep_opt. right. split.
          + cbn [Sem]. eexists. split; [|reflexivity]. right. left.
            eexists. split; [apply (lit_from _ (b :: c :: t)); [reflexivity|exact A]|].
            eexists. split; [apply (digit_from b (c :: t)); [assumption|reflexivity]|].
            reflexivity.
          + unfold endIndex. simpl. lia.
        - eexists. split; [apply (digit_from c t); [assumption|reflexivity]|reflexivity]. }
      split; reflexivity.
    + eexists. split.
      { eexists. split; [left|reflexivity].
        eexists. split.
        - apply Rep_opt. right. split.
          + cbn [Sem]. eexists. split; [|reflexivity]. left.
            eexists. split; [apply (lit_from _ (b :: c :: t)); [reflexivity|exact A]|].
            eexists. split;
              [apply (range_from _ _ b (c :: t)); try (vm_compute; discriminate);
               [assumption|reflexivity]|].
            reflexivity.
          + unfold endIndex. simpl. lia.
        - eexists. split; [apply (digit_from c t); [assumption|reflexivity]|reflexivity]. }
      split; reflexivity.
    + apply N.eqb_eq in T2; subst b.
      eexists. split.
      { eexists. split; [right|reflexivity].
        eexists. split; [apply (lit_from _ (53%N :: c :: t)); [reflexivity|exact A]|].
        eexists. split; [apply (lit_from _ (c :: t)); [reflexivity|reflexivity]|].
        eexists. split;
          [apply (range_from _ _ c t); try (vm_compute; discriminate);
           [assumption|reflexivity]|].
        reflexivity. }
      split; reflexivity.
Qed.

Lemma octet_text_last : forall w,
  octet_text w = true -> exists c u, rev w = c :: u /\ IsWordChar c = true.
Proof.
  intros w T.
  destruct w as [|a [|b [|c [|d w]]]]; simpl in T; try discriminate; simpl.
  - exists a, []. split; auto. chars_arith.
  - exists b, [a]. split; auto. chars_arith.
  - exists c, [b; a]. split; auto. chars_arith.
Qed.

Lemma octet_text_first : forall w t,
  octet_text w = true -> starts_word (w ++ t) = true.
Proof.
  intros w t T.
  destruct w as [|a [|b [|c [|d w]]]]; simpl in T; try discriminate; simpl;
    chars_arith.
Qed.

(** A round of the tenth group over an octet and its dot. *)
Lemma group10_dot : forall w b t x,
  octet_text w = true ->
  starts_word t = true ->
  pos_ b ((w ++ [dot]) ++ t) x ->
  exists y, round10 x y /\ pos_ (rev (w ++ [dot]) ++ b) t y.
Proof.
  intros w b t x T Hw [B A]. unfold round10.
  remember (cleared (parens group10) x) as x' eqn:Ex.
  assert (B' : before x' = b) by (subst x'; exact B).
  assert (A' : after x' = w ++ dot :: t)
    by (subst x'; simpl; rewrite A; app_norm; reflexivity).
  clear Ex B A x.
  destruct (group11_octet w (dot :: t) x' T A') as (m1 & S1 & [B1 A1]).
  unfold group10, opt. cbn [Sem seq fold_right].
  eexists. split.
  - eexists. split; [|reflexivity].
    exists m1. split; [exact S1|].
    eexists. split.
    + apply Rep_opt. right. split.
      * rewrite cleared_nil. apply (lit_from dot t m1); [reflexivity|exact A1].
      * unfold endIndex. simpl. lia.
    + eexists. split; [|reflexivity]. split; [|reflexivity].
      unfold word_before, word_after. simpl. exact Hw.
  - split; simpl; [|reflexivity].
    rewrite B1, B', rev_app_distr. reflexivity.
Qed.

(** A round of the tenth group over the last octet of the text. *)
Lemma group10_last : forall w b x,
  octet_text w = true ->
  pos_ b w x ->
  exists y, round10 x y /\ pos_ (rev w ++ b) [] y.
Proof.
  intros w b x T [B A]. unfold round10.
  remember (cleared (parens group10) x) as x' eqn:Ex.
  assert (B' : before x' = b) by (subst x'; exact B).
  assert (A' : after x' = w ++ [])
    by (subst x'; simpl; rewrite A; now rewrite app_nil_r).
  clear Ex B A x.
  destruct (group11_octet w [] x' T A') as (m1 & S1 & [B1 A1]).
  unfold group10, opt. cbn [Sem seq fold_right].
  eexists. split.
  - eexists. split; [|reflexivity].
    exists m1. split; [exact S1|].
    exists m1. split; [apply Rep_opt; now left|].
    eexists. split; [|reflexivity]. split; [|reflexivity].
    unfold word_before, word_after. rewrite B1, A1.
    destruct (octet_text_last w T) as (c & u & -> & Hc). simpl.
    rewrite Hc. reflexivity.
  - split; simpl; [|exact A1]. rewrite B1, B'. reflexivity.
Qed.

(** Four rounds of the tenth group read a dotted quad. *)
Lemma quad_rounds : forall a b c d x,
  a <= 255 -> b <= 255 -> c <= 255 -> d <= 255 ->
  after x = dotted [a; b; c; d] ->
  exists y, Sem true (times 4 group10) x y /\ after y = [].
Proof.
  intros a b c d x La Lb Lc Ld A.
  assert (Ta : octet_text (decimal a) = true) by (apply octet_text_decimal; eauto).
  assert (Tb : octet_text (decimal b) = true) by (apply octet_text_decimal; eauto).
  assert (Tc : octet_text (decimal c) = true) by (apply octet_text_decimal; eauto).
  assert (Td : octet_text (decimal d) = true) by (apply octet_text_decimal; eauto).
  assert (P0 : pos_ (before x)
                 ((decimal a ++ [dot]) ++ decimal b ++ [dot] ++
                  decimal c ++ [dot] ++ decimal d ++ []) x).
  { split; [reflexivity|]. rewrite A. unfold dotted. simpl. app_norm.
    now rewrite app_nil_r. }
  destruct (group10_dot _ _ _ _ Ta (octet_text_first _ _ Tb) P0) as (x1 & R1 & P1).
  rewrite (app_assoc (decimal b) [dot]) in P1.
  destruct (group10_dot _ _ _ _ Tb (octet_text_first _ _ Tc) P1) as (x2 & R2 & P2).
  rewrite (app_assoc (decimal c) [dot]) in P2.
  destruct (group10_dot _ _ _ _ Tc (octet_text_first _ _ Td) P2) as (x3 & R3 & P3).
  rewrite app_nil_r in P3.
  destruct (group10_last _ _ _ Td P3) as (x4 & R4 & [_ A4]).
  exists x4. split; [|exact A4].
  unfold times. cbn [Sem]. apply Rep_times.
  exists x1. split; [exact R1|]. exists x2. split; [exact R2|].
  exists x3. split; [exact R3|]. exists x4. split; [exact R4|reflexivity].
Qed.


(** *** The text of a chain of items *)

Lemma item_text_starts : forall i t,
  hexgroup (fst i) -> starts_colon (item_text i ++ t) = false.
Proof.
  intros [h d] t H. unfold item_text. simpl fst. simpl snd.
  rewrite <- app_assoc. destruct (hexgroup_word _ H) as [N F].
  now apply starts_colon_word.
Qed.

Lemma items_starts : forall its t,
  chain its t -> starts_colon t = false ->
  starts_colon (items_text its ++ t) = false.
Proof.
  intros [|i its] t Ch S; [exact S|].
  destruct Ch as (H & _ & _). rewrite items_text_cons, <- app_assoc.
  now apply item_text_starts.
Qed.

Lemma items_compressions : forall its t,
  chain its t -> starts_colon t = false ->
  compressions (items_text its ++ t) = doubles its + compressions t.
Proof.
  induction its as [|[h d] its IH]; intros t Ch S; [reflexivity|].
  destruct Ch as (H & _ & Ch). simpl in H.
  rewrite items_text_cons, <- app_assoc. unfold item_text at 1.
  simpl fst. simpl snd. rewrite <- app_assoc.
  rewrite compressions_no_colon by now apply hexgroup_no_colon.
  pose proof (items_starts its t Ch S) as S'.
  unfold doubles. simpl filter. destruct d; simpl app.
  - rewrite compressions_colons by exact S'. rewrite IH by assumption.
    reflexivity.
  - rewrite compressions_colon by exact S'. now apply IH.
Qed.

Lemma items_chars : forall its t,
  chain its t -> Forall address_char t ->
  Forall address_char (items_text its ++ t).
Proof.
  induction its as [|[h d] its IH]; intros t Ch F; [exact F|].
  destruct Ch as (H & _ & Ch). simpl in H.
  rewrite items_text_cons, <- app_assoc. unfold item_text at 1.
  simpl fst. simpl snd. rewrite <- app_assoc.
  apply Forall_app. split; [now apply hexgroup_chars|].
  apply Forall_app. split; [|now apply IH].
  destruct d; repeat constructor; right; now left.
Qed.

Lemma chain_app : forall l1 l2 t,
  chain (l1 ++ l2) t <-> chain l1 (items_text l2 ++ t) /\ chain l2 t.
Proof.
  induction l1 as [|i l1 IH]; intros l2 t; simpl.
  - tauto.
  - rewrite IH, items_text_app, <- app_assoc. tauto.
Qed.

Lemma item_text_head : forall i,
  hexgroup (fst i) -> hexhead (Some (item_text i)).
Proof.
  intros [h d] H. destruct (hexgroup_head _ H) as (c & u & E & Hc).
  simpl in E. subst h. unfold item_text. simpl. eexists. eexists. eauto.
Qed.

Lemma last_cap_head : forall its t c3,
  chain its t -> its <> [] \/ hexhead c3 -> hexhead (last_cap its c3).
Proof.
  induction its as [|i its IH]; intros t c3 Ch H; simpl.
  - destruct H as [H|H]; [congruence|exact H].
  - destruct Ch as (Hh & _ & Ch). apply (IH t); auto.
    right. now apply item_text_head.
Qed.

(** *** The first half of the pattern *)

(** A round of the fifth group over a group and its colon. *)
Lemma group5_single : forall h b t c2 c3 x,
  hexgroup h ->
  at_ b ((h ++ [colon]) ++ t) c2 c3 x ->
  exists y, round5 x y /\ at_ (rev (h ++ [colon]) ++ b) t c2 c3 y.
Proof.
  intros h b t c2 c3 x Hh H.
  apply (at_cleared (parens group5)) in H; [|simpl; intuition discriminate..].
  set (x' := cleared (parens group5) x) in *.
  assert (A' : after x' = h ++ [colon] ++ t).
  { destruct H as (_ & A & _). rewrite A. app_norm. reflexivity. }
  pose proof (moved_from h _ x' A') as M1.
  set (m1 := mkState (rev h ++ before x') _ (captures x')) in M1.
  pose proof (moved_from [colon] t m1 eq_refl) as M2.
  set (m2 := mkState (rev [colon] ++ before m1) _ (captures m1)) in M2.
  pose proof (moved_trans _ _ _ _ _ M1 M2) as M.
  eexists. split.
  - unfold round5, group5. cbn [Sem seq fold_right].
    eexists. split; [|reflexivity].
    exists m1. split; [apply Sem_hex14; eauto|].
    exists m2. split; [apply Sem_lit; [reflexivity|exact M2]|reflexivity].
  - cbn [before after captures]. apply at_set; [discriminate..|].
    apply (at_moved _ _ _ _ _ _ _ M H).
Qed.

Lemma group5_run : forall its b t c2 c3 x,
  singles its ->
  chain its t ->
  at_ b (items_text its ++ t) c2 c3 x ->
  exists y, iter round5 (length its) x y /\
            at_ (rev (items_text its) ++ b) t c2 c3 y.
Proof.
  induction its as [|[h d] its IH]; intros b t c2 c3 x Si Ch H.
  - exists x. split; [reflexivity|exact H].
  - destruct Ch as (Hh & _ & Ch). inversion Si as [|? ? Hd Si']; subst.
    simpl in Hh, Hd. subst d.
    rewrite items_text_cons, <- app_assoc in H.
    destruct (group5_single h _ _ _ _ _ Hh H) as (m & S1 & H1).
    destruct (IH _ _ _ _ _ Si' Ch H1) as (y & S2 & H2).
    exists y. split; [exists m; split; assumption|].
    rewrite items_text_cons, rev_app_distr, <- app_assoc. exact H2.
Qed.

Lemma at_group : forall n b t c2 c3 m v,
  n <> 2 -> n <> 3 ->
  at_ b t c2 c3 m ->
  at_ b t c2 c3 (mkState (before m) (after m) (set_cap n v (captures m))).
Proof.
  intros n b t c2 c3 m v N2 N3 H. apply at_set; auto.
Qed.

(** The first half, by its second alternative: six groups. *)
Lemma first_half_six : forall its b t c2 c3 x,
  length its = 6 ->
  singles its ->
  chain its t ->
  at_ b (items_text its ++ t) c2 c3 x ->
  exists y, Sem true group1 x y /\ at_ (rev (items_text its) ++ b) t c2 c3 y.
Proof.
  intros its b t c2 c3 x L Si Ch H.
  destruct (group5_run its _ _ _ _ _ Si Ch H) as (y & R & Hy).
  eexists. split.
  - unfold group1. cbn [Sem]. exists y. split; [right|reflexivity].
    unfold times. cbn [Sem]. apply Rep_times. rewrite <- L. exact R.
  - apply at_group; [discriminate..|exact Hy].
Qed.

Lemma at_cleared_lead : forall b t c3 x,
  at_ b t None c3 x -> at_ b t None c3 (cleared (parens group2) x).
Proof.
  intros b t c3 x (B & A & C2 & C3 & L).
  unfold at_. cbn [before after captures cleared parens group2 colons seq
                   fold_right lit app clear_caps].
  rewrite get_set_same by lia. rewrite get_set_other by discriminate.
  rewrite set_cap_length. auto.
Qed.

Lemma lead_round : forall ld b t c3 x,
  at_ b (lead_text ld ++ t) None c3 x ->
  exists y, Sem true (opt group2) x y /\
            at_ (rev (lead_text ld) ++ b) t (lead_cap ld) c3 y.
Proof.
  intros [|] b t c3 x H; unfold opt; cbn [Sem].
  - apply at_cleared_lead in H.
    remember (cleared (parens group2) x) as x' eqn:Ex.
    pose proof H as (B & A & C2 & C3 & L).
    pose proof (moved_from [colon; colon] t x' A) as M.
    remember (mkState (rev [colon; colon] ++ before x') t (captures x')) as m eqn:Em.
    exists (mkState (before m) (after m)
              (set_cap 2 (Some (matched x' m)) (captures m))).
    split.
    + apply Rep_opt. right. split.
      * unfold group2. cbn [Sem]. exists m. split; [|subst x'; reflexivity].
        apply Sem_colons. subst x'. exact M.
      * subst m x'. unfold endIndex. simpl. lia.
    + destruct M as [R Cm]. rewrite (matched_reads _ _ _ R).
      unfold at_. cbn [before after captures lead_text lead_cap].
      rewrite Cm. subst m. cbn [before after]. rewrite B.
      rewrite get_set_same by lia. rewrite get_set_other by discriminate.
      rewrite set_cap_length. auto.
  - exists x. split; [apply Rep_opt; now left|exact H].
Qed.

(** The first half, by its first alternative: an optional [::] and at
    most five items, in a text with exactly one compression. *)
Lemma first_half_compressed : forall ld its t x,
  length its <= 5 ->
  chain its t ->
  at_ [] (lead_text ld ++ items_text its ++ t) None None x ->
  compressions (after x) = 1 ->
  Forall address_char (after x) ->
  exists y, Sem true group1 x y /\
            at_ (rev (lead_text ld ++ items_text its)) t (lead_cap ld)
              (last_cap its (match 5 - length its with O => None | S _ => Some [] end))
              y.
Proof.
  intros ld its t x L Ch H C F.
  assert (Ex : x = mkState (before x) (after x) (captures x)) by (destruct x; reflexivity).
  destruct (compressions_find (after x)) as (a & c & Ea); [lia|].
  assert (Na : no_line a).
  { rewrite Ea in F. apply Forall_app in F. destruct F as [F _].
    eapply Forall_impl; [|exact F]. apply address_char_line. }
  destruct (moved_exists (a ++ [colon; colon]) c x) as (l & Ml & _).
  { rewrite Ea. now rewrite <- app_assoc. }
  destruct (lead_round ld _ _ _ _ H) as (m3 & S3 & H3).
  destruct (group3_five its _ _ _ _ _ L Ch H3) as (m4 & S4 & H4).
  eexists. split.
  - unfold group1. cbn [Sem]. exists m4. split; [left|reflexivity].
    cbn [seq fold_right]. unfold has_compression, no_second_compression.
    cbn [Sem].
    exists x. split.
    { exists l. split; [apply Sem_find_colons; eauto|].
      destruct Ml as [_ ->]. exact Ex. }
    exists x. split.
    { split; [|reflexivity]. intros m Hm. apply Sem_find_two in Hm.
      destruct Hm as (a' & b' & _ & _ & _ & [[R _] _]).
      rewrite R in C. rewrite <- !app_assoc in C.
      pose proof (compressions_two a' b' (after m)). lia. }
    exists m3. split; [exact S3|].
    exists m4. split; [exact S4|reflexivity].
  - apply at_group; [discriminate..|].
    rewrite rev_app_distr. rewrite app_nil_r in H4. exact H4.
Qed.


(** *** The second half of the pattern *)

(** A round of the seventh group over an item. *)
Lemma group7_item : forall i b t c2 c3 x,
  hexgroup (fst i) ->
  (snd i = true -> hexhead c3) ->
  (snd i = false -> starts_word t = true) ->
  at_ b (item_text i ++ t) c2 c3 x ->
  exists y, round7 x y /\ at_ (rev (item_text i) ++ b) t c2 c3 y.
Proof.
  intros [h [|]] b t c2 c3 x Hh Hd Hs H; unfold item_text in *;
    cbn [fst snd] in *.
  - destruct (Hd eq_refl) as (c & u & -> & Hc). now apply group7_double.
  - apply group7_single; auto.
Qed.

Lemma items_text_one : forall i, items_text [i] = item_text i.
Proof. intros i. unfold items_text. simpl. apply app_nil_r. Qed.

Lemma items_text_two : forall i j, items_text [i; j] = item_text i ++ item_text j.
Proof. intros i j. unfold items_text. simpl. now rewrite app_nil_r. Qed.

(** The second half over at most two items and a last group: the idle
    rounds come last, at the end of the text. *)
Lemma second_half_groups : forall its fin b c2 c3 x,
  length its + final_count fin <= 2 ->
  chain its fin ->
  fin = [] \/ hexgroup fin ->
  (length its + final_count fin < 2 -> blocked c2 c3) ->
  (1 <= doubles its -> hexhead c3) ->
  at_ b (items_text its ++ fin) c2 c3 x ->
  exists y, Sem true group6 x y /\ after y = [].
Proof.
  intros its fin b c2 c3 x L Ch Hf Hb Hd H.
  assert (G : exists y, iter round7 2 x y /\ after y = []).
  { destruct its as [|i [|j [|k its]]]; simpl in L.
    - simpl in H. destruct Hf as [-> |Hf].
      + destruct (group7_idle _ _ _ _ (Hb ltac:(simpl; lia)) H) as (x1 & R1 & H1).
        destruct (group7_idle _ _ _ _ (Hb ltac:(simpl; lia)) H1) as (x2 & R2 & H2).
        exists x2. split; [exists x1; split; [exact R1|]; exists x2; split; [exact R2|reflexivity]|].
        now destruct H2 as (_ & A & _).
      + assert (Fc : final_count fin = 1).
        { destruct (hexgroup_head _ Hf) as (c & u & -> & _). reflexivity. }
        destruct (group7_last _ _ _ _ _ Hf H) as (x1 & R1 & H1).
        destruct (group7_idle _ _ _ _ (Hb ltac:(simpl; lia)) H1) as (x2 & R2 & H2).
        exists x2. split; [exists x1; split; [exact R1|]; exists x2; split; [exact R2|reflexivity]|].
        now destruct H2 as (_ & A & _).
    - destruct Ch as (Hi & Si & _). simpl in Si. rewrite items_text_one in H.
      destruct Hf as [-> |Hf].
      + assert (Di : snd i = true) by (destruct Si as [Si|Si]; [exact Si|discriminate]).
        destruct (group7_item i b [] c2 c3 x Hi) as (x1 & R1 & H1);
          [intros _; apply Hd; unfold doubles; simpl; rewrite Di; simpl; lia
          |intros E; congruence|exact H|].
        destruct (group7_idle _ _ _ _ (Hb ltac:(simpl; lia)) H1) as (x2 & R2 & H2).
        exists x2. split; [exists x1; split; [exact R1|]; exists x2; split; [exact R2|reflexivity]|].
        now destruct H2 as (_ & A & _).
      + destruct (group7_item i b fin c2 c3 x Hi) as (x1 & R1 & H1);
          [intros Di; apply Hd; unfold doubles; simpl; rewrite Di; simpl; lia
          |intros _; apply (hexgroup_starts_word fin []) in Hf;
           now rewrite app_nil_r in Hf
          |exact H|].
        destruct (group7_last _ _ _ _ _ Hf H1) as (x2 & R2 & H2).
        exists x2. split; [exists x1; split; [exact R1|]; exists x2; split; [exact R2|reflexivity]|].
        now destruct H2 as (_ & A & _).
    - assert (Ef : fin = []) by (destruct fin; [reflexivity|simpl in L; lia]).
      subst fin. destruct Ch as (Hi & Si & Hj & Sj & _).
      simpl in Si, Sj. rewrite items_text_two, <- app_assoc in H.
      assert (Dj : snd j = true) by (destruct Sj as [Sj|Sj]; [exact Sj|discriminate]).
      assert (D : 1 <= doubles [i; j]).
      { unfold doubles. simpl. rewrite Dj. destruct (snd i); simpl; lia. }
      destruct (group7_item i b (item_text j ++ []) c2 c3 x Hi) as (x1 & R1 & H1);
        [intros _; exact (Hd D)
        |intros _; destruct j as [h d]; unfold item_text; simpl fst;
         rewrite <- !app_assoc; now apply hexgroup_starts_word
        |exact H|].
      destruct (group7_item j (rev (item_text i) ++ b) [] c2 c3 x1 Hj)
        as (x2 & R2 & H2);
        [intros _; exact (Hd D)|intros E; congruence|exact H1|].
      exists x2. split; [exists x1; split; [exact R1|]; exists x2; split; [exact R2|reflexivity]|].
      now destruct H2 as (_ & A & _).
    - lia. }
  destruct G as (y & R & A).
  eexists. split.
  - unfold group6. cbn [Sem]. exists y. split; [left|reflexivity].
    unfold times. cbn [Sem]. apply Rep_times. exact R.
  - exact A.
Qed.

(** The second half over a dotted quad. *)
Lemma second_half_quad : forall a b c d x,
  a <= 255 -> b <= 255 -> c <= 255 -> d <= 255 ->
  after x = dotted [a; b; c; d] ->
  exists y, Sem true group6 x y /\ after y = [].
Proof.
  intros a b c d x La Lb Lc Ld A.
  destruct (quad_rounds a b c d x La Lb Lc Ld A) as (y & R & Ay).
  eexists. split.
  - unfold group6. cbn [Sem]. exists y. split; [right; exact R|reflexivity].
  - exact Ay.
Qed.

(** The two halves put together. *)
Lemma halves_accept : forall s x1 x2,
  Sem true group1 (start regexes.ipv6 [] s) x1 ->
  Sem true group6 x1 x2 ->
  after x2 = [] ->
  test regexes.ipv6 s = true.
Proof.
  intros s x1 x2 H1 H2 A.
  apply (test_anchored regexes.ipv6 (seq [group1; group6; LineEnd]));
    try reflexivity.
  exists x2. cbn [seq fold_right]. cbn [Sem].
  exists x1. split; [exact H1|]. exists x2. split; [exact H2|].
  exists x2. split; [split; [exact A|reflexivity]|reflexivity].
Qed.

Lemma start_at : forall s, at_ [] s None None (start regexes.ipv6 [] s).
Proof. intros s. repeat split. Qed.

(** *** Addresses as the pattern reads them *)

Lemma ending_nil : ending [].
Proof. split; constructor. Qed.

Lemma ending_group : forall h, hexgroup h -> ending h.
Proof.
  intros h H. split; [now apply hexgroup_no_colon|now apply hexgroup_chars].
Qed.

Lemma ending_starts : forall fin, ending fin -> starts_colon fin = false.
Proof.
  intros fin [N _]. rewrite <- (app_nil_r fin). now apply starts_colon_app.
Qed.

Lemma ending_compressions : forall fin, ending fin -> compressions fin = 0.
Proof.
  intros fin [N _]. rewrite <- (app_nil_r fin).
  now rewrite compressions_no_colon.
Qed.

Lemma dotted_ending : forall l, ending (dotted l).
Proof.
  assert (D : forall n, ending (decimal n)).
  { intros n. pose proof (decimal_digits n) as F. split.
    - eapply Forall_impl; [|exact F]. intros c H E. subst. discriminate.
    - eapply Forall_impl; [|exact F]. intros c H. left. now left. }
  induction l as [|a [|b l] IH].
  - apply ending_nil.
  - apply D.
  - rewrite dotted_cons. destruct (D a) as [N1 F1]. destruct IH as [N2 F2].
    split; apply Forall_app; split; auto; constructor; auto.
    + discriminate.
    + right. now right.
Qed.

(** The text of a compressed address has one compression and is
    written with the characters of an address. *)
Lemma compressed_text : forall (ld : bool) its fin,
  chain its fin -> ending fin ->
  (if ld then 1 else 0) + doubles its = 1 ->
  compressions (lead_text ld ++ items_text its ++ fin) = 1 /\
  Forall address_char (lead_text ld ++ items_text its ++ fin).
Proof.
  intros ld its fin Ch E D.
  pose proof (items_starts its fin Ch (ending_starts _ E)) as S.
  pose proof (items_compressions its fin Ch (ending_starts _ E)) as C.
  rewrite (ending_compressions _ E) in C.
  pose proof (items_chars its fin Ch (proj2 E)) as F.
  destruct ld; simpl lead_text; simpl app.
  - rewrite compressions_colons by exact S. split; [lia|].
    constructor; [right; now left|]. constructor; [right; now left|]. exact F.
  - split; [lia|exact F].
Qed.

Lemma firstn_five : forall (its : list item),
  length (firstn 5 its) <= 5 /\
  length (skipn 5 its) = length its - 5 /\
  (5 < length its -> length (firstn 5 its) = 5) /\
  (its <> [] -> firstn 5 its <> []).
Proof.
  intros its. rewrite length_firstn, length_skipn. repeat split; try lia.
  destruct its; [congruence|discriminate].
Qed.

(** A compressed address that ends in [::] or in a group. *)
Theorem accept_compressed : forall (ld : bool) its fin,
  chain its fin ->
  fin = [] \/ hexgroup fin ->
  length its + final_count fin <= 7 ->
  (if ld then 1 else 0) + doubles its = 1 ->
  test regexes.ipv6 (lead_text ld ++ items_text its ++ fin) = true.
Proof.
  intros ld its fin Ch Hf L D.
  assert (E : ending fin)
    by (destruct Hf as [-> |Hf]; [apply ending_nil|now apply ending_group]).
  destruct (compressed_text ld its fin Ch E D) as [C F].
  destruct (firstn_five its) as (L1 & L2 & L3 & L4).
  pose proof (firstn_skipn 5 its) as Eits.
  set (its1 := firstn 5 its) in *. set (its2 := skipn 5 its) in *.
  rewrite <- Eits in Ch. apply chain_app in Ch. destruct Ch as [Ch1 Ch2].
  set (s := lead_text ld ++ items_text its ++ fin) in *.
  assert (Es : s = lead_text ld ++ items_text its1 ++ items_text its2 ++ fin).
  { unfold s. rewrite <- Eits, items_text_app. now rewrite <- app_assoc. }
  pose proof (start_at s) as H0. rewrite Es in H0 at 1.
  destruct (first_half_compressed ld its1 _ _ L1 Ch1 H0 C F) as (x1 & S1 & H1).
  assert (Dd : doubles its = doubles its1 + doubles its2).
  { rewrite <- Eits. unfold doubles. now rewrite filter_app, length_app. }
  match type of H1 with at_ ?b _ ?c2 ?c3 _ =>
    destruct (second_half_groups its2 fin b c2 c3 x1) as (x2 & S2 & A2)
  end.
  - assert (final_count fin <= 1) by (destruct fin; simpl; lia). lia.
  - exact Ch2.
  - exact Hf.
  - intros _. destruct ld; simpl lead_cap.
    + left. eauto.
    + right. split; [reflexivity|].
      assert (N : its <> []) by (intros ->; unfold doubles in D; simpl in D; lia).
      destruct (last_cap_head its1 _
                  (match 5 - length its1 with O => None | S _ => Some [] end) Ch1)
        as (c & u & -> & _); [left; auto|]. eauto.
  - intros D2. apply (last_cap_head its1 _ _ Ch1). left.
    apply L4. intros ->. unfold its2, doubles in D2. simpl in D2. lia.
  - exact H1.
  - apply (halves_accept s x1 x2 S1 S2 A2).
Qed.

(** A compressed address that ends in a dotted quad. *)
Theorem accept_compressed_quad : forall (ld : bool) its a b c d,
  chain its (dotted [a; b; c; d]) ->
  length its <= 5 ->
  (if ld then 1 else 0) + doubles its = 1 ->
  a <= 255 -> b <= 255 -> c <= 255 -> d <= 255 ->
  test regexes.ipv6 (lead_text ld ++ items_text its ++ dotted [a; b; c; d]) = true.
Proof.
  intros ld its a b c d Ch L D La Lb Lc Ld.
  destruct (compressed_text ld its _ Ch (dotted_ending _) D) as [C F].
  pose proof (start_at (lead_text ld ++ items_text its ++ dotted [a; b; c; d])) as H0.
  destruct (first_half_compressed ld its _ _ L Ch H0 C F) as (x1 & S1 & H1).
  destruct (second_half_quad a b c d x1 La Lb Lc Ld) as (x2 & S2 & A2).
  { now destruct H1 as (_ & A & _). }
  apply (halves_accept _ x1 x2 S1 S2 A2).
Qed.

(** Eight groups. *)
Theorem accept_full : forall its i fin,
  length its = 6 ->
  singles (its ++ [i]) ->
  chain (its ++ [i]) fin ->
  hexgroup fin ->
  test regexes.ipv6 (items_text (its ++ [i]) ++ fin) = true.
Proof.
  intros its i fin L Si Ch Hf.
  apply chain_app in Ch. destruct Ch as [Ch1 Ch2].
  apply Forall_app in Si. destruct Si as [Si1 Si2].
  pose proof (start_at (items_text (its ++ [i]) ++ fin)) as H0.
  rewrite items_text_app, <- app_assoc in H0 at 1.
  destruct (first_half_six its _ _ _ _ _ L Si1 Ch1 H0) as (x1 & S1 & H1).
  match type of H1 with at_ ?b _ ?c2 ?c3 _ =>
    destruct (second_half_groups [i] fin b c2 c3 x1) as (x2 & S2 & A2)
  end.
  - destruct (hexgroup_head _ Hf) as (c & u & -> & _). simpl. lia.
  - exact Ch2.
  - now right.
  - destruct (hexgroup_head _ Hf) as (c & u & -> & _). simpl. lia.
  - inversion Si2 as [|? ? Hi _]; subst. unfold doubles. simpl. rewrite Hi.
    simpl. lia.
  - exact H1.
  - apply (halves_accept _ x1 x2 S1 S2 A2).
Qed.

(** Six groups and a dotted quad. *)
Theorem accept_full_quad : forall its a b c d,
  length its = 6 ->
  singles its ->
  chain its (dotted [a; b; c; d]) ->
  a <= 255 -> b <= 255 -> c <= 255 -> d <= 255 ->
  test regexes.ipv6 (items_text its ++ dotted [a; b; c; d]) = true.
Proof.
  intros its a b c d L Si Ch La Lb Lc Ld.
  pose proof (start_at (items_text its ++ dotted [a; b; c; d])) as H0.
  destruct (first_half_six its _ _ _ _ _ L Si Ch H0) as (x1 & S1 & H1).
  destruct (second_half_quad a b c d x1 La Lb Lc Ld) as (x2 & S2 & A2).
  { now destruct H1 as (_ & A & _). }
  apply (halves_accept _ x1 x2 S1 S2 A2).
Qed.

(** *** Every IPv6 literal is accepted *)

Lemma groups_snoc : forall gs g,
  groups (gs ++ [g]) = items_text (List.map single gs) ++ g.
Proof.
  induction gs as [|a gs IH]; intros g; [reflexivity|].
  simpl List.map. rewrite items_text_cons. unfold item_text at 1. simpl fst.
  simpl snd. rewrite <- !app_assoc, <- IH.
  unfold groups. simpl. destruct (gs ++ [g]) eqn:E; [|reflexivity].
  apply app_eq_nil in E. destruct E; discriminate.
Qed.

Lemma singles_map : forall gs, singles (List.map single gs).
Proof. induction gs; constructor; auto. Qed.

Lemma doubles_singles : forall gs, doubles (List.map single gs) = 0.
Proof. induction gs; auto. Qed.

Lemma doubles_app : forall l1 l2, doubles (l1 ++ l2) = doubles l1 + doubles l2.
Proof. intros l1 l2. unfold doubles. now rewrite filter_app, length_app. Qed.

Lemma chain_starts_word : forall its t,
  chain its t -> starts_word t = true -> starts_word (items_text its ++ t) = true.
Proof.
  intros [|[h d] its] t Ch S; [exact S|].
  destruct Ch as (H & _ & _). simpl in H.
  rewrite items_text_cons. unfold item_text. simpl fst.
  rewrite <- !app_assoc. now apply hexgroup_starts_word.
Qed.

Lemma chain_singles : forall gs t,
  Forall hexgroup gs -> starts_word t = true -> chain (List.map single gs) t.
Proof.
  induction gs as [|a gs IH]; intros t F S; [exact I|].
  inversion F; subst. simpl. split; [assumption|]. split; [|now apply IH].
  right. apply chain_starts_word; auto.
Qed.

Lemma quad_starts_word : forall a b c d,
  a <= 255 -> starts_word (dotted [a; b; c; d]) = true.
Proof.
  intros a b c d L. rewrite dotted_cons. apply octet_text_first.
  apply octet_text_decimal. eauto.
Qed.

Lemma split_last : forall (l : list jsstring),
  l = [] \/ exists l' a, l = l' ++ [a].
Proof.
  intros l. induction l as [|a l' _] using rev_ind; [now left|right; eauto].
Qed.

(** The groups before the [::], as items. *)
Lemma pre_items : forall pre,
  Forall hexgroup pre ->
  exists (ld : bool) its,
    groups pre ++ [colon; colon] = lead_text ld ++ items_text its /\
    (if ld then 1 else 0) + doubles its = 1 /\
    length its = length pre /\
    forall t, chain its t.
Proof.
  intros pre F. destruct (split_last pre) as [-> |(pre' & g & ->)].
  - exists true, []. repeat split; auto.
  - apply Forall_app in F. destruct F as [F Fg]. inversion Fg; subst.
    exists false, (List.map single pre' ++ [(g, true)]).
    split; [|split; [|split]].
    + rewrite groups_snoc, items_text_app, items_text_one.
      unfold item_text. simpl. now rewrite <- app_assoc.
    + rewrite doubles_app, doubles_singles. reflexivity.
    + rewrite !length_app, length_map. reflexivity.
    + intros t. apply chain_app. split.
      * apply chain_singles; auto. rewrite items_text_one. unfold item_text.
        simpl fst. rewrite <- !app_assoc. now apply hexgroup_starts_word.
      * simpl. auto.
Qed.

(** The groups after the [::], as items and a last group. *)
Lemma post_items : forall post,
  Forall hexgroup post ->
  exists its fin,
    groups post = items_text its ++ fin /\
    (fin = [] \/ hexgroup fin) /\
    chain its fin /\
    length its + final_count fin = length post /\
    doubles its = 0.
Proof.
  intros post F. destruct (split_last post) as [-> |(post' & g & ->)].
  - exists [], []. repeat split; auto.
  - apply Forall_app in F. destruct F as [F Fg]. inversion Fg; subst.
    exists (List.map single post'), g. split; [|split; [|split; [|split]]].
    + apply groups_snoc.
    + now right.
    + apply chain_singles; auto.
      rewrite <- (app_nil_r g). now apply hexgroup_starts_word.
    + rewrite length_app, length_map.
      destruct (hexgroup_head g) as (c & u & -> & _); auto.
    + apply doubles_singles.
Qed.

(** Every IPv6 literal is accepted by the IPv6 pattern. *)
Theorem ipv6_literal_accepted : forall s,
  ipv6_literal s -> test regexes.ipv6 s = true.
Proof.
  intros s H. destruct H as [gs L F|gs a b c d L F La Lb Lc Ld
                            |pre post L Fpre Fpost
                            |pre post a b c d L Fpre Fpost La Lb Lc Ld].
  - destruct (split_last gs) as [-> |(gs' & g8 & ->)]; [discriminate|].
    destruct (split_last gs') as [-> |(gs'' & g7 & ->)]; [discriminate|].
    rewrite !length_app in L. simpl in L.
    apply Forall_app in F. destruct F as [F F8]. inversion F8; subst.
    rewrite groups_snoc, map_app. simpl List.map.
    apply accept_full.
    + rewrite length_map. lia.
    + change [single g7] with (List.map single [g7]).
      rewrite <- map_app. apply singles_map.
    + change [single g7] with (List.map single [g7]).
      rewrite <- map_app. apply chain_singles; auto.
      rewrite <- (app_nil_r g8). now apply hexgroup_starts_word.
    + assumption.
  - rewrite groups_snoc. apply accept_full_quad; auto.
    + now rewrite length_map.
    + apply singles_map.
    + apply chain_singles; auto. now apply quad_starts_word.
  - destruct (pre_items pre Fpre) as (ld & its1 & E1 & D1 & L1 & C1).
    destruct (post_items post Fpost) as (its2 & fin & E2 & Hf & C2 & L2 & D2).
    rewrite app_assoc, E1, E2, <- app_assoc, app_assoc with (l := items_text its1).
    rewrite <- items_text_app. apply accept_compressed.
    + apply chain_app. split; [apply C1|exact C2].
    + exact Hf.
    + rewrite length_app. lia.
    + rewrite doubles_app. lia.
  - destruct (pre_items pre Fpre) as (ld & its1 & E1 & D1 & L1 & C1).
    rewrite app_assoc, E1, groups_snoc, <- app_assoc,
      app_assoc with (l := items_text its1).
    rewrite <- items_text_app. apply accept_compressed_quad; auto.
    + apply chain_app. split; [apply C1|].
      apply chain_singles; auto. now apply quad_starts_word.
    + rewrite length_app, length_map. lia.
    + rewrite doubles_app, doubles_singles. lia.
Qed.

(** *** What the IPv6 pattern accepts is an IPv6 literal *)

(** The rounds, read exactly. *)

Lemma boundary_after_colon : forall w x y,
  reads (w ++ [colon]) x y ->
  xorb (word_before y) (word_after y) = true ->
  starts_word (after y) = true.
Proof.
  intros w x y [_ B] H. unfold word_before in H.
  rewrite B, rev_app_distr in H. exact H.
Qed.

Lemma group3_exact : forall x y,
  Sem true group3 x y ->
  reads [] x y \/
  exists i, hexgroup (fst i) /\ reads (item_text i) x y /\
            (snd i = true \/ starts_word (after y) = true).
Proof.
  intros x y. unfold group3, group4. cbn [Sem seq fold_right].
  intros (m & [H|H] & ->).
  - destruct H as (m1 & H1 & m2 & H2 & m3 & (m4 & H4 & ->) & ->).
    apply Sem_hex14 in H1. destruct H1 as (h & Hh & M1). use_lit H2.
    pose proof (moved_trans _ _ _ _ _ M1 H2) as M12.
    right. destruct H4 as [H4|[Hb ->]].
    + use_lit H4. pose proof (moved_trans _ _ _ _ _ M12 H4) as [M _].
      rewrite <- app_assoc in M.
      exists (h, true). split; [exact Hh|]. split; [exact M|now left].
    + destruct M12 as [M _].
      exists (h, false). split; [exact Hh|]. split; [exact M|right].
      apply (boundary_after_colon h x m2 M Hb).
  - left. subst m. split; reflexivity.
Qed.

(** One round of the seventh group: nothing, which needs the second or
    the third capture; a group and two colons, which needs the third
    capture; a group and a colon before a digit or a letter; a group at
    the end of the text. *)
Lemma group7_exact : forall x y,
  Sem true group7 x y ->
  (reads [] x y /\
   ~ (get_cap 2 (captures x) = None /\ get_cap 3 (captures x) = None)) \/
  (exists h, hexgroup h /\ reads (h ++ [colon; colon]) x y /\
             get_cap 3 (captures x) <> None) \/
  (exists h, hexgroup h /\ reads (h ++ [colon]) x y /\
             starts_word (after y) = true) \/
  (exists h, hexgroup h /\ reads h x y /\ after y = []).
Proof.
  intros x y. unfold group7, group8, group9. cbn [Sem seq fold_right].
  intros (m & [H|[N ->]] & ->).
  - right.
    destruct H as (m0 & (m1 & H1 & m2 & (m3 & H3 & ->) & ->) & ->).
    apply Sem_hex14 in H1. destruct H1 as (h & Hh & M1).
    destruct H3 as [H3|[H3|[E ->]]].
    + left. destruct H3 as (m4 & [H4 ->] & m5 & H5 & ->).
      apply Sem_colons in H5.
      destruct (moved_trans _ _ _ _ _ M1 H5) as [M _].
      exists h. split; [exact Hh|]. split; [exact M|].
      intros C. apply (no_backref3 m1); auto.
      destruct M1 as [_ ->]. exact C.
    + right. left. destruct H3 as (m4 & H4 & m5 & [Hb ->] & ->). use_lit H4.
      destruct (moved_trans _ _ _ _ _ M1 H4) as [M _].
      exists h. split; [exact Hh|]. split; [exact M|].
      apply (boundary_after_colon h x m4 M Hb).
    + right. right. destruct M1 as [M _].
      exists h. split; [exact Hh|]. split; [exact M|exact E].
  - left. split; [split; reflexivity|].
    intros [C2 C3]. apply (N x). exists x. split.
    + cbn [Sem]. now rewrite C2.
    + exists x. split; [|reflexivity]. cbn [Sem]. now rewrite C3.
Qed.

Ltac octet_ok :=
  unfold octet_text; cbn [app];
  change (chr "1") with 49%N; change (chr "2") with 50%N;
  change (chr "5") with 53%N;
  repeat match goal with H : _ = true |- _ => rewrite H end;
  vm_compute; reflexivity.

Lemma group11_exact : forall x y,
  Sem true group11 x y -> exists w, octet_text w = true /\ reads w x y.
Proof.
  intros x y. unfold group11. cbn [Sem seq fold_right].
  intros (m & [H|H] & ->).
  - destruct H as (m1 & H1 & m2 & H2 & ->). use_digit H2 d Dd.
    unfold opt in H1. cbn [Sem] in H1. apply Rep_opt in H1.
    destruct H1 as [-> |[H1 _]].
    + destruct H2 as [M2 _]. exists [d]. split; [exact Dd|exact M2].
    + unfold group12 in H1.
      cbn [Sem seq fold_right] in H1.
      destruct H1 as (m3 & [H|[H|H]] & ->).
      * destruct H as (m4 & H4 & m5 & H5 & ->). use_lit H4. use_range H5 b Db.
        destruct (moved_trans _ _ _ _ _ H4 H5) as [M _].
        destruct H2 as [M2 _].
        exists ([chr "2"; b] ++ [d]). split; [|apply (reads_trans _ _ _ _ _ M M2)].
        octet_ok.
      * destruct H as (m4 & H4 & m5 & H5 & ->). use_lit H4. use_digit H5 b Db.
        destruct (moved_trans _ _ _ _ _ H4 H5) as [M _].
        destruct H2 as [M2 _].
        exists ([chr "1"; b] ++ [d]). split; [|apply (reads_trans _ _ _ _ _ M M2)].
        octet_ok.
      * use_range H b Db. destruct H as [M _]. destruct H2 as [M2 _].
        exists ([b] ++ [d]). split; [|apply (reads_trans _ _ _ _ _ M M2)].
        octet_ok.
  - destruct H as (m1 & H1 & m2 & H2 & m3 & H3 & ->).
    use_lit H1. use_lit H2. use_range H3 c Dc.
    destruct (moved_trans _ _ _ _ _ H1 (moved_trans _ _ _ _ _ H2 H3)) as [M _].
    exists [chr "2"; chr "5"; c]. split; [|exact M].
    octet_ok.
Qed.

(** One round of the tenth group: an octet before something that does
    not go on the word, or an octet and a dot before a digit or a
    letter. *)
Lemma group10_exact : forall x y,
  Sem true group10 x y ->
  exists w, octet_text w = true /\
    ((reads w x y /\ starts_word (after y) = false) \/
     (reads (w ++ [dot]) x y /\ starts_word (after y) = true)).
Proof.
  intros x y. unfold group10. cbn [Sem seq fold_right].
  intros (m & (m1 & H1 & m2 & H2 & m3 & [Hb ->] & ->) & ->).
  apply group11_exact in H1. destruct H1 as (w & O & M1).
  exists w. split; [exact O|].
  unfold opt in H2. cbn [Sem] in H2. apply Rep_opt in H2.
  destruct H2 as [-> |[H2 _]].
  - left. split; [exact M1|].
    destruct (octet_text_last _ O) as (c & u & R & W).
    unfold word_before in Hb. destruct M1 as [_ B]. rewrite B, R in Hb.
    cbn [app] in Hb. rewrite W in Hb.
    unfold starts_word. cbn [after]. unfold word_after in Hb.
    destruct (after m1) as [|a t]; [reflexivity|].
    destruct (IsWordChar a); [discriminate|reflexivity].
  - right. rewrite cleared_nil in H2. use_lit H2. destruct H2 as [M2 _].
    pose proof (reads_trans _ _ _ _ _ M1 M2) as M.
    split; [exact M|].
    unfold word_before in Hb. destruct M as [_ B].
    rewrite B, rev_app_distr in Hb. exact Hb.
Qed.

(** Runs of rounds. *)

Lemma group3_rounds : forall n x y,
  iter round3 n x y ->
  exists its, length its <= n /\ reads (items_text its) x y /\
              chain its (after y).
Proof.
  induction n as [|n IH]; simpl; intros x y H.
  - subst. exists []. split; [simpl; lia|]. split; [split; reflexivity|exact I].
  - destruct H as (m & H1 & H2). unfold round3 in H1. apply group3_exact in H1.
    destruct (IH _ _ H2) as (its & L & R & C).
    destruct H1 as [R1|(i & Hi & R1 & B)].
    + exists its. split; [lia|]. split; [|exact C].
      exact (reads_trans _ _ _ _ _ R1 R).
    + exists (i :: its). split; [simpl; lia|]. split.
      * rewrite items_text_cons. exact (reads_trans _ _ _ _ _ R1 R).
      * simpl. split; [exact Hi|]. split; [|exact C].
        destruct B as [B|B]; [now left|right].
        rewrite <- (reads_after _ _ _ R). exact B.
Qed.

Lemma group5_rounds : forall n x y,
  iter round5 n x y ->
  exists gs, length gs = n /\ Forall hexgroup gs /\
             reads (items_text (List.map single gs)) x y.
Proof.
  induction n as [|n IH]; simpl; intros x y H.
  - subst. exists []. split; [reflexivity|]. split; [constructor|split; reflexivity].
  - destruct H as (m & H1 & H2). unfold round5 in H1. apply group5_shape in H1.
    destruct H1 as (h & Hh & R1).
    destruct (IH _ _ H2) as (gs & L & F & R).
    exists (h :: gs). split; [simpl; lia|]. split; [now constructor|].
    cbn [List.map]. rewrite items_text_cons.
    exact (reads_trans _ _ _ _ _ R1 R).
Qed.

Lemma item_text_nonempty : forall i t, item_text i ++ t <> [].
Proof.
  intros [h [|]] t; unfold item_text; simpl; rewrite <- app_assoc;
    intros E; apply app_eq_nil in E; destruct E; discriminate.
Qed.

Lemma items_text_nil : forall its fin,
  items_text its ++ fin = [] -> its = [] /\ fin = [].
Proof.
  intros [|i its] fin E; [now split|].
  rewrite items_text_cons, <- app_assoc in E. now apply item_text_nonempty in E.
Qed.

Lemma hexgroup_nonempty : forall h, hexgroup h -> h <> [].
Proof.
  intros h [[L _] _] ->. simpl in L. lia.
Qed.

Lemma round7_cases : forall x y,
  round7 x y ->
  reads [] x y \/
  (exists i, hexgroup (fst i) /\ reads (item_text i) x y /\
             (snd i = true \/ starts_word (after y) = true)) \/
  (exists h, hexgroup h /\ reads h x y /\ after y = []).
Proof.
  intros x y H. unfold round7 in H. apply group7_exact in H.
  destruct H as [[R _]|[(h & Hh & R & _)|[(h & Hh & R & B)|H]]].
  - now left.
  - right. left. exists (h, true). split; [exact Hh|]. split; [exact R|now left].
  - right. left. exists (h, false). split; [exact Hh|]. split; [exact R|now right].
  - right. right. exact H.
Qed.

(** The rounds of the seventh group up to the end of the text: groups
    with their colons, and at most one group without. *)
Lemma group7_rounds : forall n x y,
  iter round7 n x y -> after y = [] ->
  exists its fin,
    length its + final_count fin <= n /\
    (fin = [] \/ hexgroup fin) /\ chain its fin /\
    after x = items_text its ++ fin.
Proof.
  induction n as [|n IH]; simpl; intros x y H E.
  - subst. exists [], []. split; [simpl; lia|]. split; [now left|].
    split; [exact I|exact E].
  - destruct H as (m & H1 & H2).
    destruct (IH _ _ H2 E) as (its & fin & L & F & C & A).
    apply round7_cases in H1.
    destruct H1 as [R|[(i & Hi & R & B)|(h & Hh & R & Em)]].
    + exists its, fin. split; [lia|]. split; [exact F|]. split; [exact C|].
      rewrite (reads_after _ _ _ R). exact A.
    + exists (i :: its), fin. split; [simpl; lia|]. split; [exact F|]. split.
      * simpl. split; [exact Hi|]. split; [|exact C].
        destruct B as [B|B]; [now left|right]. rewrite <- A. exact B.
      * rewrite (reads_after _ _ _ R), A, items_text_cons, <- app_assoc.
        reflexivity.
    + rewrite Em in A. symmetry in A. apply items_text_nil in A.
      exists [], h. split.
      * destruct h; [now elim (hexgroup_nonempty [])|simpl; lia].
      * split; [now right|]. split; [exact I|].
        rewrite (reads_after _ _ _ R), Em, app_nil_r. reflexivity.
Qed.

Lemma reads_from : forall w ps x y,
  reads w (cleared ps x) y -> after x = w ++ after y.
Proof. intros w ps x y [A _]. exact A. Qed.

(** With the second and the third capture undefined, two rounds up to
    the end of the text read two groups with a colon between them. *)
Lemma group7_plain_rounds : forall x y,
  iter round7 2 x y -> after y = [] ->
  get_cap 2 (captures x) = None -> get_cap 3 (captures x) = None ->
  exists g h, hexgroup g /\ hexgroup h /\ after x = g ++ [colon] ++ h.
Proof.
  intros x y H E C2 C3. simpl in H.
  destruct H as (m & H1 & z & H2 & Ey). subst y. rename z into y.
  assert (K : forall k, ~ In k (parens group7) ->
                        get_cap k (captures m) = get_cap k (captures x)).
  { intros k N. unfold round7 in H1.
    rewrite (Sem_cap_other true group7 k _ _ N H1).
    cbn [cleared captures]. now apply get_clear_other. }
  assert (N2 : ~ In 2 (parens group7)) by (simpl; intuition discriminate).
  assert (N3 : ~ In 3 (parens group7)) by (simpl; intuition discriminate).
  unfold round7 in H1, H2. apply group7_exact in H1. apply group7_exact in H2.
  cbn [cleared captures] in H1, H2.
  rewrite !get_clear_other in H1, H2 by assumption.
  rewrite (K 2 N2), (K 3 N3) in H2.
  destruct H1 as [[_ N]|[(g & _ & _ & N)|[(g & Hg & R1 & B1)|(g & Hg & R1 & E1)]]];
    [elim N; now split|now elim N| |].
  - destruct H2 as [[_ N]|[(h & _ & _ & N)|[(h & Hh & R2 & B2)|(h & Hh & R2 & E2)]]];
      [elim N; now split|now elim N| |].
    + rewrite E in B2. discriminate.
    + exists g, h. split; [exact Hg|]. split; [exact Hh|].
      rewrite (reads_from _ (parens group7) x _ R1), (reads_from _ (parens group7) m _ R2), E2, app_nil_r.
      rewrite <- app_assoc. reflexivity.
  - exfalso.
    assert (A : exists h t, hexgroup h /\ after m = h ++ t).
    { destruct H2 as [[_ N]|[(h & _ & _ & N)|[(h & Hh & R2 & _)|(h & Hh & R2 & _)]]];
        [elim N; now split|now elim N| |].
      - exists h, ([colon] ++ after y). split; [exact Hh|].
        rewrite (reads_from _ (parens group7) m _ R2), <- app_assoc. reflexivity.
      - exists h, (after y). split; [exact Hh|]. exact (reads_from _ (parens group7) m _ R2). }
    destruct A as (h & t & Hh & A). rewrite E1 in A.
    symmetry in A. apply app_eq_nil in A. destruct A as [A _].
    now apply (hexgroup_nonempty h).
Qed.

Lemma round10_next : forall x m y,
  round10 x m -> round10 m y ->
  exists w, octet_text w = true /\ after x = w ++ [dot] ++ after m.
Proof.
  intros x m y H1 H2. unfold round10 in H1, H2.
  apply group10_exact in H1. apply group10_exact in H2.
  destruct H2 as (v & Ov & H2).
  assert (W : starts_word (after m) = true).
  { destruct H2 as [[R _]|[R _]]; rewrite (reads_from _ _ _ _ R);
      try rewrite <- app_assoc; now apply octet_text_first. }
  destruct H1 as (w & Ow & [[_ B]|[R _]]); [congruence|].
  exists w. split; [exact Ow|].
  rewrite (reads_from _ _ _ _ R), <- app_assoc. reflexivity.
Qed.

Lemma round10_last : forall x y,
  round10 x y -> after y = [] -> octet_text (after x) = true.
Proof.
  intros x y H E. unfold round10 in H. apply group10_exact in H.
  destruct H as (w & Ow & [[R _]|[_ B]]); [|rewrite E in B; discriminate].
  rewrite (reads_from _ _ _ _ R), E, app_nil_r. exact Ow.
Qed.

(** Four rounds of the tenth group up to the end of the text read a
    dotted quad. *)
Lemma group10_rounds : forall x y,
  iter round10 4 x y -> after y = [] ->
  exists a b c d,
    a <= 255 /\ b <= 255 /\ c <= 255 /\ d <= 255 /\
    after x = dotted [a; b; c; d].
Proof.
  intros x y H E. simpl in H.
  destruct H as (m1 & H1 & m2 & H2 & m3 & H3 & m4 & H4 & Ey). subst y.
  rename m4 into y.
  destruct (round10_next _ _ _ H1 H2) as (w1 & O1 & A1).
  destruct (round10_next _ _ _ H2 H3) as (w2 & O2 & A2).
  destruct (round10_next _ _ _ H3 H4) as (w3 & O3 & A3).
  pose proof (round10_last _ _ H4 E) as O4.
  apply octet_text_decimal in O1, O2, O3, O4.
  destruct O1 as (a & La & ->). destruct O2 as (b & Lb & ->).
  destruct O3 as (c & Lc & ->). destruct O4 as (d & Ld & O4).
  exists a, b, c, d. repeat (split; [assumption|]).
  rewrite A1, A2, A3, O4. reflexivity.
Qed.

(** From groups with their colons to the text forms. *)

Lemma singles_single : forall its,
  singles its -> its = List.map single (List.map fst its).
Proof.
  induction its as [|[h d] its IH]; intros S; [reflexivity|].
  inversion S as [|? ? Hd S']; subst. simpl in Hd. subst d.
  cbn [List.map fst]. unfold single at 1. f_equal. now apply IH.
Qed.

Lemma singles_text : forall its (g : jsstring),
  singles its -> items_text its ++ g = groups (List.map fst its ++ [g]).
Proof.
  intros its g S. rewrite groups_snoc, <- (singles_single its S). reflexivity.
Qed.

Lemma chain_groups : forall its t,
  chain its t -> Forall hexgroup (List.map fst its).
Proof.
  induction its as [|i its IH]; simpl; intros t C; [constructor|].
  destruct C as (H & _ & C). constructor; [exact H|now apply (IH t)].
Qed.

Lemma chain_end : forall its, chain its [] -> singles its -> its = [].
Proof.
  induction its as [|i its IH]; simpl; intros C S; [reflexivity|].
  destruct C as (_ & B & C). inversion S as [|? ? Hd S']; subst.
  rewrite (IH C S') in B. simpl in B.
  destruct B as [B|B]; [congruence|discriminate].
Qed.

Lemma doubles_none : forall its, doubles its = 0 -> singles its.
Proof.
  induction its as [|[h d] its IH]; intros D; [constructor|].
  unfold doubles in D. cbn [filter snd] in D. destruct d; [discriminate|].
  constructor; [reflexivity|now apply IH].
Qed.

Lemma doubles_one : forall its,
  doubles its = 1 ->
  exists l1 h l2, its = l1 ++ (h, true) :: l2 /\ singles l1 /\ singles l2.
Proof.
  induction its as [|[h d] its IH]; intros D; [discriminate|].
  unfold doubles in D. cbn [filter snd] in D. destruct d.
  - exists [], h, its. split; [reflexivity|]. split; [constructor|].
    apply doubles_none. simpl in D. unfold doubles. lia.
  - destruct (IH D) as (l1 & g & l2 & -> & S1 & S2).
    exists ((h, false) :: l1), g, l2. split; [reflexivity|].
    split; [constructor; [reflexivity|exact S1]|exact S2].
Qed.

(** Groups with one colon each, up to a last group or to the end. *)
Lemma tail_groups : forall its (fin : jsstring),
  singles its -> chain its fin -> fin = [] \/ hexgroup fin ->
  exists post,
    Forall hexgroup post /\ length post = length its + final_count fin /\
    items_text its ++ fin = groups post.
Proof.
  intros its fin S C [-> |F].
  - rewrite (chain_end its C S). exists []. repeat split. constructor.
  - exists (List.map fst its ++ [fin]). split; [|split].
    + apply Forall_app. split; [now apply (chain_groups its fin)|].
      constructor; [exact F|constructor].
    + rewrite length_app, length_map. simpl.
      destruct fin; [now elim (hexgroup_nonempty [])|reflexivity].
    + now apply singles_text.
Qed.

Lemma compressed_count : forall (ld : bool) its fin,
  chain its fin -> ending fin ->
  compressions (lead_text ld ++ items_text its ++ fin)
  = (if ld then 1 else 0) + doubles its.
Proof.
  intros ld its fin C E.
  pose proof (items_compressions its fin C (ending_starts _ E)) as K.
  rewrite (ending_compressions _ E), Nat.add_0_r in K.
  destruct ld; cbn [lead_text app]; [|exact K].
  rewrite compressions_colons by (apply items_starts; [exact C|now apply ending_starts]).
  now rewrite K.
Qed.

Lemma literal_compressed : forall pre h post,
  Forall hexgroup pre -> Forall hexgroup post ->
  forall s,
    s = h ++ groups post ->
    (h = groups pre ++ [colon; colon]) ->
    length pre + length post <= 7 ->
    ipv6_literal s.
Proof.
  intros pre h post Fp Fq s -> -> L. rewrite <- app_assoc.
  now apply ipv6_compressed.
Qed.

(** The text before the compression and the compression itself. *)
Lemma head_groups : forall (ld : bool) its (t : jsstring),
  chain its t ->
  (if ld then 1 else 0) + doubles its = 1 ->
  exists pre l2,
    Forall hexgroup pre /\ singles l2 /\ chain l2 t /\
    length pre + length l2 = length its /\
    lead_text ld ++ items_text its
    = (groups pre ++ [colon; colon]) ++ items_text l2.
Proof.
  intros ld its t C D. destruct ld.
  - exists [], its. split; [constructor|]. split; [apply doubles_none; lia|].
    split; [exact C|]. split; reflexivity.
  - destruct (doubles_one its) as (l1 & h & l2 & -> & S1 & S2); [lia|].
    apply chain_app in C. destruct C as [C1 C2].
    cbn [chain fst snd] in C2. destruct C2 as (Hh & _ & C2).
    exists (List.map fst l1 ++ [h]), l2. split; [|split; [exact S2|split; [exact C2|split]]].
    + apply Forall_app. split; [now apply (chain_groups l1 _ C1)|].
      constructor; [exact Hh|constructor].
    + rewrite !length_app, length_map. cbn [length]. unfold item. lia.
    + cbn [lead_text app]. rewrite items_text_app, items_text_cons.
      unfold item_text at 1. cbn [fst snd].
      rewrite <- (singles_text l1 h S1), <- !app_assoc. reflexivity.
Qed.

Lemma items_literal : forall (ld : bool) its (fin : jsstring),
  chain its fin ->
  fin = [] \/ hexgroup fin ->
  length its + final_count fin <= 7 ->
  (if ld then 1 else 0) + doubles its = 1 ->
  ipv6_literal (lead_text ld ++ items_text its ++ fin).
Proof.
  intros ld its fin C F L D.
  destruct (head_groups ld its fin C D) as (pre & l2 & Fp & S2 & C2 & Lp & E).
  destruct (tail_groups l2 fin S2 C2 F) as (post & Fq & Lq & Eq).
  rewrite app_assoc, E, <- app_assoc, Eq, <- app_assoc.
  apply ipv6_compressed; [unfold item in *; lia|exact Fp|exact Fq].
Qed.

Lemma items_literal_quad : forall (ld : bool) its a b c d,
  chain its (dotted [a; b; c; d]) ->
  length its <= 5 ->
  (if ld then 1 else 0) + doubles its = 1 ->
  a <= 255 -> b <= 255 -> c <= 255 -> d <= 255 ->
  ipv6_literal (lead_text ld ++ items_text its ++ dotted [a; b; c; d]).
Proof.
  intros ld its a b c d C L D La Lb Lc Ld.
  destruct (head_groups ld its _ C D) as (pre & l2 & Fp & S2 & C2 & Lp & E).
  rewrite app_assoc, E, <- app_assoc, (singles_text l2 _ S2), <- app_assoc.
  apply ipv6_compressed_quad; try assumption.
  - rewrite length_map. unfold item in *. lia.
  - now apply (chain_groups l2 _ C2).
Qed.

(** The pattern as a whole. *)

Lemma lead_exact : forall x y,
  Sem true (opt group2) x y ->
  exists ld : bool, after x = lead_text ld ++ after y.
Proof.
  intros x y H. unfold opt in H. cbn [Sem] in H. apply Rep_opt in H.
  destruct H as [-> |[H _]]; [now exists false|].
  unfold group2 in H. cbn [Sem] in H. destruct H as (m & H & ->).
  apply Sem_colons in H. destruct H as [R _].
  exists true. exact (reads_from _ _ _ _ R).
Qed.

(** Every string the IPv6 pattern accepts is an IPv6 literal. *)
Theorem test_ipv6_literal : forall s,
  test regexes.ipv6 s = true -> ipv6_literal s.
Proof.
  intros s H. pose proof (test_ipv6_inv s H) as (_ & C1 & _).
  rewrite (test_anchored regexes.ipv6 (seq [group1; group6; LineEnd])) in H
    by reflexivity.
  change (ignoreCase regexes.ipv6) with true in H.
  remember (start regexes.ipv6 [] s) as x eqn:Ex.
  assert (Hx : after x = s) by (subst x; reflexivity).
  assert (Cx2 : get_cap 2 (captures x) = None) by (subst x; reflexivity).
  assert (Cx3 : get_cap 3 (captures x) = None) by (subst x; reflexivity).
  clear Ex. subst s.
  destruct H as (y & H). cbn [seq fold_right] in H. cbn [Sem] in H.
  destruct H as (x1 & H1 & x2 & H2 & x3 & [E ->] & ->).
  unfold group1 in H1. cbn [Sem] in H1. destruct H1 as (m & H1 & ->).
  unfold group6 in H2. cbn [Sem] in H2. destruct H2 as (n & H2 & ->).
  cbn [after] in E.
  destruct H1 as [H1|H1].
  - (* one compression *)
    cbn [seq fold_right] in H1. unfold has_compression, no_second_compression in H1.
    cbn [Sem] in H1.
    destruct H1 as (m1 & (l & L & ->) & m2 & [_ ->] & m3 & H3 & m4 & H4 & ->).
    apply Sem_find_colons in L. destruct L as (a0 & _ & [RL _]).
    apply reads_after in RL.
    assert (C0 : compressions (after x) = 1).
    { rewrite RL, <- app_assoc in *.
      pose proof (compressions_app_r a0 ([colon; colon] ++ after l)) as K1.
      pose proof (compressions_colons_ge (after l)) as K2.
      cbn [app] in *. lia. }
    clear RL C1.
    apply lead_exact in H3. destruct H3 as (ld & A3). cbn [after] in A3.
    unfold times in H4. cbn [Sem] in H4. apply Rep_times in H4.
    apply group3_rounds in H4. destruct H4 as (its & L3 & R4 & C4).
    apply reads_after in R4.
    destruct H2 as [H2|H2]; unfold times in H2; cbn [Sem] in H2;
      apply Rep_times in H2.
    + apply (group7_rounds 2 _ _) in H2; [|exact E].
      destruct H2 as (its' & fin & L7 & F & C7 & A7). cbn [after] in A7.
      assert (C : chain (its ++ its') fin).
      { apply chain_app. split; [|exact C7]. rewrite <- A7. exact C4. }
      assert (T : after x = lead_text ld ++ items_text (its ++ its') ++ fin).
      { rewrite A3, R4, A7, items_text_app, <- app_assoc. reflexivity. }
      rewrite T in *.
      rewrite compressed_count in C0;
        [|exact C|destruct F as [-> |F]; [apply ending_nil|now apply ending_group]].
      apply items_literal; auto. rewrite length_app. lia.
    + apply group10_rounds in H2; [|exact E].
      destruct H2 as (a & b & c & d & La & Lb & Lc & Ld & A10). cbn [after] in A10.
      rewrite A10 in *.
      assert (T : after x = lead_text ld ++ items_text its ++ dotted [a; b; c; d]).
      { rewrite A3, R4. reflexivity. }
      rewrite T in *.
      rewrite compressed_count in C0; [|exact C4|apply dotted_ending].
      now apply items_literal_quad.
  - (* eight groups *)
    assert (K : forall k, k <> 1 -> k <> 5 ->
              get_cap k (captures
                (mkState (before m) (after m)
                   (set_cap 1 (Some (matched x m)) (captures m))))
              = get_cap k (captures x)).
    { intros k N1 N5. cbn [captures]. rewrite get_set_other by exact N1.
      apply (Sem_cap_other true (times 6 group5)); [|exact H1].
      simpl. intuition. }
    unfold times in H1. cbn [Sem] in H1. apply Rep_times in H1.
    apply group5_rounds in H1. destruct H1 as (gs & L & F & R).
    apply reads_after in R.
    destruct H2 as [H2|H2]; unfold times in H2; cbn [Sem] in H2;
      apply Rep_times in H2.
    + apply group7_plain_rounds in H2;
        [|exact E|rewrite K by discriminate; exact Cx2
         |rewrite K by discriminate; exact Cx3].
      destruct H2 as (g & h & Hg & Hh & A). cbn [after] in A.
      rewrite R, A.
      replace (items_text (List.map single gs) ++ g ++ [colon] ++ h)
        with (groups ((gs ++ [g]) ++ [h])).
      * apply ipv6_full.
        -- rewrite !length_app. simpl. lia.
        -- apply Forall_app. split; [|constructor; [exact Hh|constructor]].
           apply Forall_app. split; [exact F|constructor; [exact Hg|constructor]].
      * rewrite groups_snoc, map_app, items_text_app. cbn [List.map].
        rewrite items_text_one. unfold single, item_text. cbn [fst snd].
        rewrite <- !app_assoc. reflexivity.
    + apply group10_rounds in H2; [|exact E].
      destruct H2 as (a & b & c & d & La & Lb & Lc & Ld & A). cbn [after] in A.
      rewrite R, A, <- groups_snoc.
      now apply ipv6_full_quad.
Qed.

(** ** The program *)

(** *** [isIp] as a condition *)

Lemma accepts_str : forall s,
  accepts (Str s) = test regexes.ipv4 s || test regexes.ipv6 s.
Proof. intros [|c s]; [vm_compute|]; reflexivity. Qed.

Lemma accepts_is_string : forall v,
  accepts v = true -> exists s, v = Str s.
Proof. intros [| |s] H; try discriminate. eauto. Qed.

(** Without a colon, only the IPv4 pattern can accept. *)
Lemma accepts_no_colon : forall s,
  ~ In colon s -> accepts (Str s) = test regexes.ipv4 s.
Proof.
  intros s N. rewrite accepts_str.
  destruct (test regexes.ipv6 s) eqn:E; [|apply orb_false_r].
  apply test_ipv6_inv in E. tauto.
Qed.

(** *** [split] *)

Lemma split_nonempty : forall c s, split c s <> [].
Proof.
  intros c s. destruct s as [|a s]; simpl; [discriminate|].
  destruct (a =? c)%N; [discriminate|]. destruct (split c s); discriminate.
Qed.

(** The pieces have no separator, and joined by it give the text
    back. *)
Lemma split_spec : forall c s,
  join [c] (split c s) = s /\ Forall (fun p => ~ In c p) (split c s).
Proof.
  intros c s. induction s as [|a s IH]; simpl.
  - split; [reflexivity|]. constructor; [tauto|constructor].
  - destruct IH as [J F]. destruct (N.eqb_spec a c) as [-> |N].
    + split.
      * pose proof (split_nonempty c s). destruct (split c s) eqn:E; [congruence|].
        simpl. simpl in J. now rewrite J.
      * constructor; [tauto|exact F].
    + pose proof (split_nonempty c s). destruct (split c s) as [|p ps] eqn:E;
        [congruence|].
      inversion F as [|? ? Fp Fps]. split.
      * destruct ps; simpl in *; now rewrite J.
      * constructor; [|assumption]. simpl. intuition.
Qed.

Lemma split_two : forall c s a b,
  split c s = [a; b] -> s = a ++ c :: b /\ ~ In c a /\ ~ In c b.
Proof.
  intros c s a b E. destruct (split_spec c s) as [J F]. rewrite E in J, F.
  inversion F as [|? ? Fa F']. inversion F' as [|? ? Fb _].
  simpl in J. auto.
Qed.

(** *** The loop of [getClientIpFromXForwardedFor] *)

Lemma first_ip_spec : forall ips n i,
  (first_ip ips n i = Null /\
   forall j, i <= j < i + n -> accepts (Str (nth j ips [])) = false) \/
  (exists k, i <= k < i + n /\
     first_ip ips n i = Str (nth k ips []) /\
     accepts (Str (nth k ips [])) = true /\
     forall j, i <= j < k -> accepts (Str (nth j ips [])) = false).
Proof.
  intros ips. induction n as [|n IH]; intros i; simpl.
  - left. split; [reflexivity|]. intros j Hj. lia.
  - destruct (accepts (Str (nth i ips []))) eqn:E.
    + right. exists i. split; [lia|]. split; [reflexivity|]. split; [exact E|].
      intros j Hj. lia.
    + destruct (IH (S i)) as [[H1 H2]|(k & Hk & H1 & H2 & H3)].
      * left. split; [exact H1|]. intros j Hj.
        destruct (Nat.eq_dec j i) as [-> |N]; [exact E|apply H2; lia].
      * right. exists k. split; [lia|]. split; [exact H1|]. split; [exact H2|].
        intros j Hj.
        destruct (Nat.eq_dec j i) as [-> |N]; [exact E|apply H3; lia].
Qed.

(** The decomposer returns [null] or a string that [isIp] accepts. *)
Lemma decomposer_result : forall v r,
  getClientIpFromXForwardedFor v = Normal r ->
  r = Null \/ exists s, r = Str s /\ accepts (Str s) = true.
Proof.
  intros v r. unfold getClientIpFromXForwardedFor.
  destruct (negb (ToBoolean v)); [intros H; inversion H; auto|].
  destruct v; try discriminate. intros H. inversion H; subst. clear H.
  match goal with |- context [first_ip ?ips ?n 0] =>
    destruct (first_ip_spec ips n 0) as [[-> _]|(k & _ & -> & A & _)] end; eauto.
Qed.

(** A header value never makes the decomposer throw. *)
Lemma decomposer_header : forall v,
  exists r, getClientIpFromXForwardedFor (to_value v) = Normal r.
Proof.
  intros [| |s]; simpl; unfold getClientIpFromXForwardedFor; simpl; eauto.
  destruct s; simpl; eauto.
Qed.

(** *** [Headers.get] ignores the case of the name *)

Lemma get_pseudo_ipv4 : forall h, get h "Cf-Pseudo-IPv4" = get h "cf-pseudo-ipv4".
Proof. intros h. reflexivity. Qed.

(** ** More about what [isIp] accepts *)

Lemma accepts_address : forall s, accepts (Str s) = true -> address s.
Proof.
  intros s H. rewrite accepts_str in H. apply orb_true_iff in H.
  destruct H as [H|H].
  - left. now apply test_ipv4_dotted.
  - right. now apply test_ipv6_literal.
Qed.

Lemma groups_chars : forall gs,
  Forall (Forall address_char) gs -> Forall address_char (groups gs).
Proof.
  unfold groups. induction gs as [|g gs IH]; intros F; [constructor|].
  inversion F as [|? ? Hg F']; subst.
  destruct gs as [|g' gs']; [exact Hg|].
  change (join [colon] (g :: g' :: gs'))
    with (g ++ [colon] ++ join [colon] (g' :: gs')).
  apply Forall_app. split; [exact Hg|].
  constructor; [right; now left|now apply IH].
Qed.

Lemma dotted_chars : forall l, Forall address_char (dotted l).
Proof. intros l. apply (dotted_ending l). Qed.

Lemma hexgroups_chars : forall gs,
  Forall hexgroup gs -> Forall (Forall address_char) gs.
Proof.
  intros gs F. eapply Forall_impl; [|exact F]. apply hexgroup_chars.
Qed.

Lemma ipv6_literal_chars : forall s, ipv6_literal s -> Forall address_char s.
Proof.
  intros s H. destruct H.
  - apply groups_chars. now apply hexgroups_chars.
  - apply groups_chars. apply Forall_app. split; [now apply hexgroups_chars|].
    constructor; [apply dotted_chars|constructor].
  - apply Forall_app. split; [apply groups_chars; now apply hexgroups_chars|].
    constructor; [right; now left|]. constructor; [right; now left|].
    apply groups_chars. now apply hexgroups_chars.
  - apply Forall_app. split; [apply groups_chars; now apply hexgroups_chars|].
    constructor; [right; now left|]. constructor; [right; now left|].
    apply groups_chars. apply Forall_app. split; [now apply hexgroups_chars|].
    constructor; [apply dotted_chars|constructor].
Qed.

Lemma address_chars : forall s, address s -> Forall address_char s.
Proof.
  intros s [(a & b & c & d & _ & _ & _ & _ & ->)|H].
  - apply dotted_chars.
  - now apply ipv6_literal_chars.
Qed.

(** *** Lengths *)

Lemma singles_length : forall gs,
  Forall hexgroup gs ->
  2 * length gs <= length (items_text (List.map single gs)) <= 5 * length gs.
Proof.
  induction gs as [|g gs IH]; intros F; [simpl; lia|].
  inversion F as [|? ? [Hg _] F']; subst.
  cbn [List.map]. rewrite items_text_cons.
  unfold single at 1 3, item_text. cbn [fst snd].
  rewrite !length_app. specialize (IH F'). simpl length. lia.
Qed.

Lemma groups_length : forall gs,
  Forall hexgroup gs -> length (groups gs) <= 5 * length gs - 1.
Proof.
  intros gs F. destruct (split_last gs) as [-> |(gs' & g & ->)]; [simpl; lia|].
  apply Forall_app in F. destruct F as [F G].
  inversion G as [|? ? [Hg _] _]; subst.
  rewrite groups_snoc, !length_app.
  pose proof (singles_length gs' F). simpl length. lia.
Qed.

Lemma decimal_length : forall n, n <= 255 -> 1 <= length (decimal n) <= 3.
Proof.
  intros n L.
  assert (O : octet_text (decimal n) = true) by (apply octet_text_decimal; eauto).
  destruct (decimal n) as [|a [|b [|c [|d w]]]]; simpl in *; try discriminate; lia.
Qed.

Lemma quad_length : forall a b c d,
  a <= 255 -> b <= 255 -> c <= 255 -> d <= 255 ->
  7 <= length (dotted [a; b; c; d]) <= 15.
Proof.
  intros a b c d La Lb Lc Ld. unfold dotted. cbn [List.map join].
  rewrite !length_app.
  pose proof (decimal_length a La). pose proof (decimal_length b Lb).
  pose proof (decimal_length c Lc). pose proof (decimal_length d Ld).
  simpl length. lia.
Qed.

Lemma groups_quad_length : forall gs q,
  Forall hexgroup gs ->
  2 * length gs + length q <= length (groups (gs ++ [q]))
  <= 5 * length gs + length q.
Proof.
  intros gs q F. rewrite groups_snoc, length_app.
  pose proof (singles_length gs F). lia.
Qed.

Lemma ipv6_literal_length : forall s, ipv6_literal s -> 2 <= length s <= 45.
Proof.
  intros s H. destruct H as [gs L F|gs a b c d L F La Lb Lc Ld
                            |pre post L Fp Fq|pre post a b c d L Fp Fq La Lb Lc Ld].
  - destruct (split_last gs) as [-> |(gs' & g & ->)]; [discriminate|].
    apply Forall_app in F. destruct F as [F G].
    inversion G as [|? ? [Hg _] _]; subst.
    rewrite length_app in L. simpl in L.
    pose proof (groups_quad_length gs' g F). unfold jsstring, code_unit in *; lia.
  - pose proof (groups_quad_length gs (dotted [a; b; c; d]) F).
    pose proof (quad_length a b c d La Lb Lc Ld). unfold jsstring, code_unit in *; lia.
  - rewrite !length_app.
    pose proof (groups_length pre Fp). pose proof (groups_length post Fq).
    simpl length. unfold jsstring, code_unit in *; lia.
  - rewrite !length_app.
    pose proof (groups_length pre Fp).
    pose proof (groups_quad_length post (dotted [a; b; c; d]) Fq).
    pose proof (quad_length a b c d La Lb Lc Ld).
    simpl length. unfold jsstring, code_unit in *; lia.
Qed.

Lemma address_length : forall s, address s -> 2 <= length s <= 45.
Proof.
  intros s [(a & b & c & d & La & Lb & Lc & Ld & ->)|H].
  - pose proof (quad_length a b c d La Lb Lc Ld). lia.
  - now apply ipv6_literal_length.
Qed.

(** *** Colons *)

Lemma groups_three : forall g1 g2 g3 gs,
  groups (g1 :: g2 :: g3 :: gs)
  = g1 ++ [colon] ++ g2 ++ [colon] ++ groups (g3 :: gs).
Proof. reflexivity. Qed.

(** An IPv6 literal has two colons or more. *)
Lemma ipv6_literal_colons : forall s,
  ipv6_literal s -> exists u v w, s = u ++ [colon] ++ v ++ [colon] ++ w.
Proof.
  intros s H. destruct H as [gs L F|gs a b c d L F La Lb Lc Ld
                            |pre post L Fp Fq|pre post a b c d L Fp Fq La Lb Lc Ld].
  - destruct gs as [|g1 [|g2 [|g3 gs]]]; try discriminate.
    exists g1, g2, (groups (g3 :: gs)). apply groups_three.
  - destruct gs as [|g1 [|g2 gs]]; try discriminate.
    destruct gs as [|g3 gs]; [discriminate|].
    exists g1, g2, (groups (g3 :: gs ++ [dotted [a; b; c; d]])).
    apply groups_three.
  - exists (groups pre), [], (groups post). reflexivity.
  - exists (groups pre), [], (groups (post ++ [dotted [a; b; c; d]])). reflexivity.
Qed.

(** ** The decomposer on tokens *)

(** *** [trim] *)

Lemma trimStart_pad : forall w s, whitespace w -> trimStart (w ++ s) = trimStart s.
Proof.
  induction w as [|c w IH]; intros s W; [reflexivity|].
  inversion W as [|? ? Hc W']; subst. simpl. rewrite Hc. now apply IH.
Qed.

Lemma trimStart_middle : forall a x t,
  isTrimmed x = false -> trimStart (a ++ x :: t) = trimStart a ++ x :: t.
Proof.
  induction a as [|c a IH]; intros x t H; simpl.
  - now rewrite H.
  - destruct (isTrimmed c); [now apply IH|reflexivity].
Qed.

Lemma trimEnd_pad : forall s w, whitespace w -> trimEnd (s ++ w) = trimEnd s.
Proof.
  intros s w W. unfold trimEnd. rewrite rev_app_distr, trimStart_pad; [reflexivity|].
  now apply Forall_rev.
Qed.

Lemma trimEnd_middle : forall u x p,
  isTrimmed x = false -> trimEnd (u ++ x :: p) = u ++ x :: trimEnd p.
Proof.
  intros u x p H. unfold trimEnd.
  rewrite rev_app_distr. cbn [rev]. rewrite <- app_assoc. cbn [app].
  rewrite trimStart_middle by exact H.
  rewrite rev_app_distr. cbn [rev]. rewrite rev_involutive, <- app_assoc.
  reflexivity.
Qed.

(** White space around a text does not count. *)
Lemma trim_pad : forall w1 s w2,
  whitespace w1 -> whitespace w2 -> trim (w1 ++ s ++ w2) = trim s.
Proof.
  intros w1 s w2 W1 W2. unfold trim. rewrite trimStart_pad by exact W1.
  induction s as [|c s IH].
  - cbn [app]. rewrite <- (app_nil_r w2), trimStart_pad by exact W2. reflexivity.
  - cbn [app trimStart]. destruct (isTrimmed c); [exact IH|].
    now apply (trimEnd_pad (c :: s)).
Qed.

(** A text without white space is its own [trim]. *)
Lemma trim_clean : forall s,
  Forall (fun c => isTrimmed c = false) s -> trim s = s.
Proof.
  intros s F. unfold trim.
  assert (E : trimStart s = s).
  { destruct F as [|c s Hc F]; [reflexivity|]. simpl. now rewrite Hc. }
  rewrite E. clear E.
  assert (S : s = [] \/ exists s' c, s = s' ++ [c]).
  { destruct s as [|a s0]; [now left|right].
    destruct (@exists_last _ (a :: s0)) as (s' & c & ->); [discriminate|eauto]. }
  destruct S as [-> |(s' & c & ->)]; [reflexivity|].
  apply Forall_app in F. destruct F as [_ F]. inversion F as [|? ? Hc _]; subst.
  rewrite (trimEnd_middle s' c [] Hc). reflexivity.
Qed.

Lemma trimEnd_sub : forall c p, In c (trimEnd p) -> In c p.
Proof.
  intros c p H. unfold trimEnd in H. apply in_rev in H. apply in_rev.
  revert H. generalize (rev p). induction l as [|a l IH]; simpl; [auto|].
  destruct (isTrimmed a); [right; now apply IH|auto].
Qed.

Lemma address_char_kept : forall c, address_char c -> isTrimmed c = false.
Proof.
  intros c [[H|[H|H]]|[-> | ->]]; try reflexivity;
    unfold isTrimmed, isWhiteSpace; chars_arith.
Qed.

Lemma address_char_not_comma : forall c, address_char c -> c <> comma.
Proof.
  intros c [[H|[H|H]]|[-> | ->]]; try discriminate; intros ->; chars_arith.
Qed.

Lemma address_trim : forall s, Forall address_char s -> trim s = s.
Proof.
  intros s F. apply trim_clean. eapply Forall_impl; [|exact F].
  apply address_char_kept.
Qed.

Lemma whitespace_no_comma : forall w, whitespace w -> ~ In comma w.
Proof.
  intros w W H. unfold whitespace in W. rewrite Forall_forall in W.
  specialize (W _ H). discriminate.
Qed.

(** *** [split] and [includes] *)

Lemma includes_In : forall c s, includes c s = true <-> In c s.
Proof.
  intros c s. unfold includes. rewrite existsb_exists. split.
  - intros (x & I & E). apply N.eqb_eq in E. now subst.
  - intros I. exists c. split; [exact I|apply N.eqb_refl].
Qed.

Lemma split_none : forall c s, ~ In c s -> split c s = [s].
Proof.
  intros c. induction s as [|a s IH]; intros N; [reflexivity|].
  simpl. destruct (N.eqb_spec a c) as [-> |D]; [elim N; now left|].
  rewrite IH by (intros I; apply N; now right). reflexivity.
Qed.

Lemma split_app : forall c a b,
  split c (a ++ c :: b) = split c a ++ split c b.
Proof.
  intros c. induction a as [|x a IH]; intros b.
  - simpl. now rewrite N.eqb_refl.
  - cbn [app split]. destruct (x =? c)%N.
    + now rewrite IH.
    + rewrite IH. destruct (split c a) as [|p ps] eqn:E; [|reflexivity].
      now elim (split_nonempty c a).
Qed.

Lemma split_pad : forall c w b,
  ~ In c w ->
  split c (w ++ b)
  = match split c b with p :: ps => (w ++ p) :: ps | [] => [w] end.
Proof.
  intros c. induction w as [|x w IH]; intros b N.
  - cbn [app]. destruct (split c b) eqn:E; [now elim (split_nonempty c b)|reflexivity].
  - cbn [app split]. destruct (N.eqb_spec x c) as [-> |D]; [elim N; now left|].
    rewrite IH by (intros I; apply N; now right).
    destruct (split c b); reflexivity.
Qed.

Lemma split_length : forall c s, 1 <= length (split c s).
Proof.
  intros c s. pose proof (split_nonempty c s). destruct (split c s); [congruence|simpl; lia].
Qed.

Lemma split_two_seps : forall c u v w,
  length (split c (u ++ [c] ++ v ++ [c] ++ w)) <> 2.
Proof.
  intros c u v w. cbn [app]. rewrite split_app, split_app, !length_app.
  pose proof (split_length c u). pose proof (split_length c v).
  pose proof (split_length c w). unfold jsstring, code_unit in *. lia.
Qed.

(** *** The cleaning step *)

Lemma clean_pad : forall w1 e w2,
  whitespace w1 -> whitespace w2 -> clean (w1 ++ e ++ w2) = clean e.
Proof.
  intros w1 e w2 W1 W2. unfold clean. now rewrite trim_pad.
Qed.

(** The cleaning step leaves an address as it is. *)
Lemma clean_address : forall s, address s -> clean s = s.
Proof.
  intros s A. unfold clean. rewrite (address_trim s (address_chars s A)).
  destruct (includes colon s) eqn:I; [|reflexivity].
  destruct A as [(a & b & c & d & _ & _ & _ & _ & ->)|H].
  - apply includes_In in I. destruct (dotted_ending [a; b; c; d]) as [N _].
    unfold no_colon in N. rewrite Forall_forall in N. now elim (N _ I).
  - destruct (ipv6_literal_colons s H) as (u & v & w & ->).
    pose proof (split_two_seps colon u v w) as N.
    apply Nat.eqb_neq in N. now rewrite N.
Qed.

(** *** The loop *)

Lemma first_ip_from : forall ips pre,
  first_ip (pre ++ ips) (length ips) (length pre) = first_accepted ips.
Proof.
  induction ips as [|t ips IH]; intros pre; [reflexivity|].
  cbn [length first_ip first_accepted]. rewrite nth_middle.
  destruct (accepts (Str t)); [reflexivity|].
  replace (pre ++ t :: ips) with ((pre ++ [t]) ++ ips)
    by (rewrite <- app_assoc; reflexivity).
  replace (S (length pre)) with (length (pre ++ [t]))
    by (rewrite length_app; simpl; lia).
  apply IH.
Qed.

(** The decomposer on a string: the first of the cleaned tokens that
    [isIp] accepts. *)
Lemma decomposer_tokens : forall s,
  getClientIpFromXForwardedFor (JsString s)
  = Normal (first_accepted (List.map clean (split comma s))).
Proof.
  intros [|c s]; [reflexivity|].
  unfold getClientIpFromXForwardedFor.
  change (negb (ToBoolean (JsString (c :: s)))) with false.
  change (negb (jsstring_eqb (typeof (JsString (c :: s))) (str "string")))
    with false.
  cbv iota. cbn [string_value]. f_equal.
  apply (first_ip_from _ []).
Qed.

Lemma first_accepted_app : forall l1 l2,
  first_accepted (l1 ++ l2)
  = match first_accepted l1 with Null => first_accepted l2 | r => r end.
Proof.
  induction l1 as [|t l1 IH]; intros l2; [reflexivity|].
  cbn [app first_accepted]. destruct (accepts (Str t)); [reflexivity|apply IH].
Qed.

Lemma first_accepted_result : forall l,
  first_accepted l = Null \/
  exists s, first_accepted l = Str s /\ accepts (Str s) = true.
Proof.
  induction l as [|t l IH]; [now left|]. simpl.
  destruct (accepts (Str t)) eqn:E; [right; eauto|exact IH].
Qed.

Lemma tokens_pad : forall w b,
  whitespace w ->
  List.map clean (split comma (w ++ b)) = List.map clean (split comma b).
Proof.
  intros w b W. rewrite split_pad by now apply whitespace_no_comma.
  destruct (split comma b) as [|p ps] eqn:E; [now elim (split_nonempty comma b)|].
  cbn [List.map]. f_equal.
  rewrite <- (app_nil_r p) at 1. apply clean_pad; [exact W|constructor].
Qed.

Lemma tokens_app : forall a w b,
  whitespace w ->
  List.map clean (split comma (a ++ [comma] ++ w ++ b))
  = List.map clean (split comma a) ++ List.map clean (split comma b).
Proof.
  intros a w b W. cbn [app]. rewrite split_app, map_app, tokens_pad by exact W.
  reflexivity.
Qed.

(** *** Decimal octets with and without zeros in front *)

Lemma decimal_octet_checked : forall w,
  decimal_octet_check w = true <-> decimal_octet w.
Proof.
  intros w. unfold decimal_octet_check, decimal_octet, digits.
  rewrite !andb_true_iff, negb_true_iff, Nat.eqb_neq, Nat.leb_le,
    forallb_forall, Forall_forall.
  destruct w; simpl; intuition (try discriminate; try lia).
Qed.

Lemma leading_zero_checked : forall w,
  leading_zero_check w = true <-> leading_zero w.
Proof.
  intros [|a [|c u]]; simpl; split; try discriminate;
    try (intros (c0 & u0 & E); discriminate).
  - intros E. apply N.eqb_eq in E. subst a. now exists c, u.
  - intros (c0 & u0 & E). injection E as -> _ _. reflexivity.
Qed.

(** On the texts of up to three digits the words of the pattern are the
    decimal octets without a zero in front. *)
Lemma octet_text_check : forall w,
  digits w -> length w <= 3 ->
  octet_text w = decimal_octet_check w && negb (leading_zero_check w).
Proof.
  intros [|a [|b [|c [|d w]]]] D L; try reflexivity; [| | |simpl in L; lia].
  - inversion D as [|? ? Da _]; subst. split_digit Da; reflexivity.
  - inversion D as [|? ? Da D1]; subst. inversion D1 as [|? ? Db _]; subst.
    split_digit Da; split_digit Db; reflexivity.
  - inversion D as [|? ? Da D1]; subst. inversion D1 as [|? ? Db D2]; subst.
    inversion D2 as [|? ? Dc _]; subst.
    split_digit Da; split_digit Db; split_digit Dc; reflexivity.
Qed.

Lemma numeral_fold_ge : forall w acc,
  acc * 10 ^ length w
  <= fold_left (fun acc c => 10 * acc + N.to_nat (c - 48)) w acc.
Proof.
  induction w as [|c w IH]; intros acc; cbn [fold_left length].
  - rewrite Nat.pow_0_r. lia.
  - specialize (IH (10 * acc + N.to_nat (c - 48))).
    rewrite Nat.pow_succ_r'.
    remember (10 ^ length w) as k. remember (N.to_nat (c - 48)) as v.
    apply Nat.le_trans with ((10 * acc + v) * k); [nia|exact IH].
Qed.

(** A numeral of four digits or more without a zero in front is a
    thousand at least. *)
Lemma long_numeral : forall a b c d w,
  isDigit a = true -> a <> 48%N ->
  1000 <= numeral_value (a :: b :: c :: d :: w).
Proof.
  intros a b c d w Da Na. unfold numeral_value.
  assert (A : 1 <= N.to_nat (a - 48)) by chars_arith.
  assert (P : 1 <= 10 ^ length w) by (apply Nat.pow_lower_bound; lia).
  cbn [fold_left].
  match goal with
  | |- _ <= fold_left _ w ?acc =>
      pose proof (numeral_fold_ge w acc) as K;
      assert (B : 1000 <= acc) by lia;
      remember acc as n
  end.
  eapply Nat.le_trans; [|exact K].
  apply Nat.le_trans with (n * 1); [lia|].
  apply Nat.mul_le_mono_l. exact P.
Qed.

Lemma octet_text_words : forall w,
  octet_text w = true <-> decimal_octet w /\ ~ leading_zero w.
Proof.
  intros w. split.
  - intros T.
    assert (D : digits w).
    { apply octet_text_decimal in T. destruct T as (n & _ & ->).
      apply decimal_digits. }
    assert (L : length w <= 3).
    { destruct w as [|a [|b [|c [|d w]]]]; simpl in *; try lia; discriminate. }
    rewrite (octet_text_check w D L) in T. apply andb_prop in T.
    destruct T as [T1 T2]. split; [now apply decimal_octet_checked|].
    intros Z. apply leading_zero_checked in Z. rewrite Z in T2. discriminate.
  - intros [O Z]. pose proof O as (N & D & V).
    assert (L : length w <= 3).
    { destruct w as [|a [|b [|c [|d w]]]]; simpl; try lia. exfalso.
      inversion D as [|? ? Da _]; subst.
      assert (Na : a <> 48%N) by (intros ->; apply Z; now exists b, (c :: d :: w)).
      pose proof (long_numeral a b c d w Da Na). lia. }
    rewrite (octet_text_check w D L).
    apply andb_true_iff. split; [now apply decimal_octet_checked|].
    apply negb_true_iff. destruct (leading_zero_check w) eqn:E; [|reflexivity].
    apply leading_zero_checked in E. now elim Z.
Qed.

(** The four octets of a dotted text are determined by it. *)
Lemma quad_inj : forall o1 o2 o3 o4 p1 p2 p3 p4,
  digits o1 -> digits o2 -> digits o3 ->
  digits p1 -> digits p2 -> digits p3 ->
  o1 ++ [dot] ++ o2 ++ [dot] ++ o3 ++ [dot] ++ o4
  = p1 ++ [dot] ++ p2 ++ [dot] ++ p3 ++ [dot] ++ p4 ->
  o1 = p1 /\ o2 = p2 /\ o3 = p3 /\ o4 = p4.
Proof.
  intros o1 o2 o3 o4 p1 p2 p3 p4 D1 D2 D3 E1 E2 E3 H.
  apply first_dot_inj in H; [|now apply digits_no_dot|now apply digits_no_dot].
  destruct H as [-> H].
  apply first_dot_inj in H; [|now apply digits_no_dot|now apply digits_no_dot].
  destruct H as [-> H].
  apply first_dot_inj in H; [|now apply digits_no_dot|now apply digits_no_dot].
  destruct H as [-> ->]. auto.
Qed.

Lemma octet_text_digits : forall w, octet_text w = true -> digits w.
Proof.
  intros w T. apply octet_text_decimal in T. destruct T as (n & _ & ->).
  apply decimal_digits.
Qed.

Lemma digits_no_colon : forall w, digits w -> ~ In colon w.
Proof.
  intros w F I. unfold digits in F. rewrite Forall_forall in F.
  apply F in I. discriminate.
Qed.

(** Four decimal octets with dots between them are accepted exactly when
    none has a zero in front. *)
Lemma octets_accepted : forall o1 o2 o3 o4,
  decimal_octet o1 -> decimal_octet o2 -> decimal_octet o3 -> decimal_octet o4 ->
  (accepts (Str (join [dot] [o1; o2; o3; o4])) = true <->
   ~ leading_zero o1 /\ ~ leading_zero o2 /\ ~ leading_zero o3 /\ ~ leading_zero o4).
Proof.
  intros o1 o2 o3 o4 H1 H2 H3 H4.
  change (join [dot] [o1; o2; o3; o4])
    with (o1 ++ [dot] ++ o2 ++ [dot] ++ o3 ++ [dot] ++ o4).
  pose proof H1 as (_ & D1 & _). pose proof H2 as (_ & D2 & _).
  pose proof H3 as (_ & D3 & _). pose proof H4 as (_ & D4 & _).
  rewrite accepts_no_colon.
  - rewrite test_ipv4. split.
    + intros (p1 & p2 & p3 & p4 & T1 & T2 & T3 & T4 & E).
      apply quad_inj in E; try assumption; try now apply octet_text_digits.
      destruct E as (-> & -> & -> & ->).
      apply octet_text_words in T1, T2, T3, T4. tauto.
    + intros (Z1 & Z2 & Z3 & Z4). exists o1, o2, o3, o4.
      repeat (split; [apply octet_text_words; tauto|]). reflexivity.
  - intros I.
    repeat (apply in_app_or in I; destruct I as [I|I];
            [first [now apply (digits_no_colon _ D1)
                   |now apply (digits_no_colon _ D2)
                   |now apply (digits_no_colon _ D3)
                   |destruct I as [I|[]]; discriminate]|]).
    now apply (digits_no_colon _ D4).
Qed.

(** For a string that is not empty [isIp] returns a boolean. *)
Lemma isIp_boolean : forall s,
  s <> [] -> isIp (Str s) = JsBoolean (accepts (Str s)).
Proof.
  intros [|c s] N; [congruence|]. reflexivity.
Qed.

(** *** The resolver against the table of headers *)

Ltac header_step :=
  match goal with
  | |- context [if accepts ?v then _ else _] =>
      let E := fresh "E" in destruct (accepts v) eqn:E
  end.

Ltac eval_name_tests :=
  repeat match goal with
  | |- context [String.eqb ?a ?b] =>
      let v := eval vm_compute in (String.eqb a b) in
      change (String.eqb a b) with v
  end;
  cbv iota.

Lemma resolver_first_valid : forall h,
  getClientIp (mkRequest (Some h)) = Normal (first_valid h priority).
Proof.
  intros h. unfold getClientIp, proxy_headers, cloudflare_fallback.
  cbn [headers]. rewrite get_pseudo_ipv4.
  unfold priority. cbn [first_valid]. unfold header_ip. eval_name_tests.
  destruct (decomposer_header (get h "x-forwarded-for")) as (r & ->).
  cbn [bind].
  repeat (header_step; cbn [bind]; try reflexivity).
Qed.

Lemma resolver_no_headers : getClientIp (mkRequest None) = Normal Null.
Proof. reflexivity. Qed.

Lemma first_valid_result : forall h names,
  first_valid h names = Null \/
  exists s, first_valid h names = Str s /\ accepts (Str s) = true.
Proof.
  intros h names. induction names as [|name rest IH]; simpl; [now left|].
  unfold header_ip. destruct (String.eqb name "x-forwarded-for").
  - destruct (getClientIpFromXForwardedFor (to_value (get h name))) as [v|e];
      [|exact IH].
    destruct (accepts v) eqn:E; [|exact IH].
    right. destruct (accepts_is_string v E) as (s & ->). eauto.
  - destruct (accepts (get h name)) eqn:E; [|exact IH].
    right. destruct (accepts_is_string _ E) as (s & Es). rewrite Es in *. eauto.
Qed.

(** The resolver returns normally, [null] or a string that [isIp]
    accepts. *)
Lemma resolver_returns : forall req,
  exists r, getClientIp req = Normal r /\
            (r = Null \/ exists s, r = Str s /\ accepts (Str s) = true).
Proof.
  intros [[h|]].
  - rewrite resolver_first_valid. eexists. split; [reflexivity|].
    apply first_valid_result.
  - rewrite resolver_no_headers. eauto.
Qed.

(** * The claims *)

(** C1. For every header source, [getClientIp] never returns a string
    that [isIp] rejects: it returns normally, and its result is [null],
    the not-found sentinel, or a string that [isIp] accepts. *)
Theorem C1_resolver_result_is_valid : forall req,
  exists r, getClientIp req = Normal r /\
            (r = Null \/ exists s, r = Str s /\ accepts (Str s) = true).
Proof.
  intros [[h|]].
  - rewrite resolver_first_valid. eexists. split; [reflexivity|].
    induction priority as [|name rest IH]; simpl; [now left|].
    unfold header_ip. destruct (String.eqb name "x-forwarded-for").
    + destruct (getClientIpFromXForwardedFor (to_value (get h name))) as [v|e];
        [|exact IH].
      destruct (accepts v) eqn:E; [|exact IH].
      right. destruct (accepts_is_string v E) as (s & ->). eauto.
    + destruct (accepts (get h name)) eqn:E; [|exact IH].
      right. destruct (accepts_is_string _ E) as (s & Es). rewrite Es in *. eauto.
  - exists Null. split; [reflexivity|now left].
Qed.

(** C2, as the claim states it, fails: [false] is present and is not a
    string, and the decomposer returns [null] for it without raising. *)
Lemma C2_counterexample :
  JsBoolean false <> JsUndefined /\ JsBoolean false <> JsNull /\
  typeof (JsBoolean false) <> str "string" /\
  getClientIpFromXForwardedFor (JsBoolean false) = Normal Null.
Proof.
  repeat split; discriminate.
Qed.

(** C2, amended.  For every input value that is truthy and not of
    string type, [getClientIpFromXForwardedFor] raises a [TypeError]
    (InvalidInputType); every falsy input (undefined, null, the empty
    string, and falsy values of other types such as [false] and [0])
    returns [null] without raising; the decomposer raises in no other
    case, and [getClientIp], which passes it header values only, never
    raises. *)
Theorem C2_type_error : forall v,
  (ToBoolean v = true -> typeof v <> str "string" ->
   exists msg, getClientIpFromXForwardedFor v = Throw (TypeError msg)) /\
  (ToBoolean v = false -> getClientIpFromXForwardedFor v = Normal Null) /\
  (forall e, getClientIpFromXForwardedFor v = Throw e ->
             ToBoolean v = true /\ typeof v <> str "string") /\
  (forall req e, getClientIp req <> Throw e).
Proof.
  intros v. unfold getClientIpFromXForwardedFor.
  split; [|split; [|split]].
  - intros T N. rewrite T. simpl negb. cbv iota.
    destruct v; try (eexists; reflexivity). elim N. reflexivity.
  - intros T. rewrite T. reflexivity.
  - intros e H. destruct (ToBoolean v); [|discriminate]. split; [reflexivity|].
    simpl in H. destruct v; try discriminate; vm_compute; discriminate.
  - intros req e E. destruct (resolver_returns req) as (r & R & _).
    congruence.
Qed.

Lemma C2_type_error_witness :
  ToBoolean (JsNumber 5) = true /\
  typeof (JsNumber 5) <> str "string" /\
  exists msg, getClientIpFromXForwardedFor (JsNumber 5) = Throw (TypeError msg).
Proof.
  split; [reflexivity|]. split; [vm_compute; discriminate|].
  apply (proj1 (C2_type_error (JsNumber 5))); [reflexivity|].
  vm_compute. discriminate.
Defined.

(** C3. [getClientIp] tries the headers in the fixed order x-client-ip,
    x-forwarded-for (through the decomposer), cf-connecting-ip,
    do-connecting-ip, fastly-client-ip, true-client-ip, x-real-ip,
    x-cluster-client-ip, x-forwarded, forwarded-for, forwarded,
    x-appengine-user-ip, cf-pseudo-ipv4, and returns what the first
    header that yields a valid address yields; with x-client-ip
    "9.9.9.9" and x-forwarded-for "1.1.1.1" both present it returns
    "9.9.9.9". *)
Theorem C3_priority_order :
  (forall h, getClientIp (mkRequest (Some h)) = Normal (first_valid h priority)) /\
  (forall h,
     get h "x-client-ip" = Str (str "9.9.9.9") ->
     get h "x-forwarded-for" = Str (str "1.1.1.1") ->
     getClientIp (mkRequest (Some h)) = Normal (Str (str "9.9.9.9"))).
Proof.
  split; [exact resolver_first_valid|].
  intros h H1 H2. rewrite resolver_first_valid.
  unfold priority. cbn [first_valid]. unfold header_ip at 1.
  eval_name_tests. rewrite H1.
  replace (accepts (Str (str "9.9.9.9"))) with true by (vm_compute; reflexivity).
  reflexivity.
Qed.

Lemma C3_priority_order_witness :
  let h := [header "X-Forwarded-For" "1.1.1.1"; header "X-Client-IP" "9.9.9.9"] in
  get h "x-client-ip" = Str (str "9.9.9.9") /\
  get h "x-forwarded-for" = Str (str "1.1.1.1") /\
  getClientIp (mkRequest (Some h)) = Normal (Str (str "9.9.9.9")).
Proof.
  split; [reflexivity|]. split; [reflexivity|].
  apply (proj2 C3_priority_order); reflexivity.
Defined.

(** C4. For every forwarded-for string, the decomposer returns the
    first cleaned token, from the left, that [isIp] accepts, and [null]
    when there is none; the tokens before it are skipped because [isIp]
    rejects them.  For "unknown, 70.41.3.18" it returns "70.41.3.18",
    and for "203.0.113.5, 70.41.3.18, 150.172.238.178" it returns
    "203.0.113.5". *)
Theorem C4_first_valid_token :
  (forall s,
     let tokens := List.map clean (split comma s) in
     (exists i, i < length tokens /\
        accepts (Str (nth i tokens [])) = true /\
        (forall j, j < i -> accepts (Str (nth j tokens [])) = false) /\
        getClientIpFromXForwardedFor (JsString s) = Normal (Str (nth i tokens []))) \/
     ((forall j, j < length tokens -> accepts (Str (nth j tokens [])) = false) /\
      getClientIpFromXForwardedFor (JsString s) = Normal Null)) /\
  getClientIpFromXForwardedFor (JsString (str "unknown, 70.41.3.18"))
    = Normal (Str (str "70.41.3.18")) /\
  getClientIpFromXForwardedFor
    (JsString (str "203.0.113.5, 70.41.3.18, 150.172.238.178"))
    = Normal (Str (str "203.0.113.5")).
Proof.
  split; [|split; vm_compute; reflexivity].
  intros s tokens. destruct s as [|c s].
  - right. split; [|reflexivity]. intros j Hj.
    destruct j; [vm_compute; reflexivity|simpl in Hj; lia].
  - unfold getClientIpFromXForwardedFor.
    change (negb (ToBoolean (JsString (c :: s)))) with false.
    change (negb (jsstring_eqb (typeof (JsString (c :: s))) (str "string")))
      with false.
    cbv iota. cbn [string_value]. fold tokens.
    destruct (first_ip_spec tokens (length tokens) 0)
      as [[E H]|(k & Hk & E & A & H)]; rewrite E.
    + right. split; [|reflexivity]. intros j Hj. apply H. lia.
    + left. exists k. split; [lia|]. split; [exact A|]. split; [|reflexivity].
      intros j Hj. apply H. lia.
Qed.

(** C5. In the cleaning step, a trimmed token that splits on the colon
    into exactly two parts (it has one colon) is replaced by the part
    before the colon, and a token whose split has any other number of
    parts, such as a bare IPv6 literal, is kept whole; hence
    x-forwarded-for "203.0.113.5:4711, 70.41.3.18" resolves to
    "203.0.113.5". *)
Theorem C5_port_is_cut :
  (forall e,
     length (split colon (trim e)) = 2 ->
     exists a b,
       trim e = a ++ colon :: b /\ ~ In colon a /\ ~ In colon b /\
       includes colon (trim e) = true /\ clean e = a) /\
  (forall e, length (split colon (trim e)) <> 2 -> clean e = trim e) /\
  clean (str " 2001:db8::1 ") = str "2001:db8::1" /\
  getClientIp
    (mkRequest (Some [header "X-Forwarded-For" "203.0.113.5:4711, 70.41.3.18"]))
    = Normal (Str (str "203.0.113.5")).
Proof.
  split; [|split; [|split; vm_compute; reflexivity]].
  - intros e L. unfold clean.
    destruct (split colon (trim e)) as [|a [|b [|c l]]] eqn:E; try discriminate.
    destruct (split_two _ _ _ _ E) as (Et & Na & Nb).
    assert (I : includes colon (trim e) = true).
    { unfold includes. apply existsb_exists. exists colon.
      split; [|apply N.eqb_refl]. rewrite Et. apply in_or_app. right. now left. }
    exists a, b. rewrite I. simpl. auto.
  - intros e L. unfold clean. destruct (includes colon (trim e)); [|reflexivity].
    apply Nat.eqb_neq in L. now rewrite L.
Qed.

Lemma C5_port_is_cut_witness :
  length (split colon (trim (str " 203.0.113.5:4711"))) = 2 /\
  exists a b,
    trim (str " 203.0.113.5:4711") = a ++ colon :: b /\
    ~ In colon a /\ ~ In colon b /\
    includes colon (trim (str " 203.0.113.5:4711")) = true /\
    clean (str " 203.0.113.5:4711") = a.
Proof.
  split; [reflexivity|].
  apply (proj1 C5_port_is_cut (str " 203.0.113.5:4711")). reflexivity.
Defined.

(** C6. Without any header source [getClientIp] returns [null] at once;
    with a header source in which no listed header yields a valid
    address and cf-pseudo-ipv4 is absent it returns [null], a normal
    result and not an error. *)
Theorem C6_none_found :
  getClientIp (mkRequest None) = Normal Null /\
  (forall h,
     (forall name, In name listed -> header_ip h name = None) ->
     get h "cf-pseudo-ipv4" = Null ->
     getClientIp (mkRequest (Some h)) = Normal Null).
Proof.
  split; [reflexivity|]. intros h H P. rewrite resolver_first_valid.
  assert (L : forall names, (forall name, In name names -> header_ip h name = None) ->
                first_valid h names = Null).
  { induction names as [|n names IH]; intros Hn; [reflexivity|]. simpl.
    rewrite Hn by now left. apply IH. intros name I. apply Hn. now right. }
  f_equal. apply L. intros name I.
  change priority with (listed ++ ["cf-pseudo-ipv4"]) in I.
  apply in_app_or in I. destruct I as [I|[<- |[]]]; [now apply H|].
  unfold header_ip. eval_name_tests. rewrite P. reflexivity.
Qed.

Lemma C6_none_found_witness :
  let h := [header "X-Real-IP" "unknown"; header "Host" "example.org"] in
  (forall name, In name listed -> header_ip h name = None) /\
  get h "cf-pseudo-ipv4" = Null /\
  getClientIp (mkRequest (Some h)) = Normal Null.
Proof.
  assert (H : forall name,
            In name listed ->
            header_ip [header "X-Real-IP" "unknown"; header "Host" "example.org"] name
            = None).
  { intros name I. simpl in I.
    repeat (destruct I as [<- |I]; [vm_compute; reflexivity|]). destruct I. }
  split; [exact H|]. split; [reflexivity|].
  apply (proj2 C6_none_found); [exact H|reflexivity].
Defined.

(** C7, as the claim states it, fails: "01.2.3.4" is a string of four
    decimal octets separated by dots, each in the range from 0 to 255,
    and [isIp] returns [false] for it. *)
Lemma C7_counterexample :
  decimal_octet (str "01") /\ decimal_octet (str "2") /\
  decimal_octet (str "3") /\ decimal_octet (str "4") /\
  join [dot] [str "01"; str "2"; str "3"; str "4"] = str "01.2.3.4" /\
  isIp (Str (str "01.2.3.4")) = JsBoolean false.
Proof.
  repeat (split; [apply decimal_octet_checked; reflexivity|]).
  split; vm_compute; reflexivity.
Qed.

(** C7, amended.  Every string of four decimal octets from 0 to 255
    separated by dots in which no octet has a zero in front (the octets
    as ECMAScript prints numbers, which is the grammar of the pattern)
    is accepted by [isIp], and one in which an octet has a zero in
    front is rejected; a dotted string of numbers with an octet above
    255, or with other than four segments, is rejected; a string
    without colon is accepted only when the whole of it is such a
    dotted quad, so that a quad inside a longer string does not count;
    and for every string that is not empty what [isIp] returns is the
    boolean [true] or [false]. *)
Theorem C7_ipv4_validation :
  (forall a b c d,
     a <= 255 -> b <= 255 -> c <= 255 -> d <= 255 ->
     accepts (Str (dotted [a; b; c; d])) = true) /\
  (forall l,
     length l <> 4 \/ Exists (fun n => 255 < n) l ->
     accepts (Str (dotted l)) = false) /\
  (forall s,
     ~ In colon s -> accepts (Str s) = true ->
     exists a b c d,
       a <= 255 /\ b <= 255 /\ c <= 255 /\ d <= 255 /\ s = dotted [a; b; c; d]) /\
  accepts (Str (str "1.2.3.4 ")) = false /\
  accepts (Str (str "x1.2.3.4")) = false /\
  accepts (Str (str "1.2.3.4.5")) = false /\
  accepts (Str (str "01.2.3.4")) = false /\
  (forall o1 o2 o3 o4,
     decimal_octet o1 -> decimal_octet o2 ->
     decimal_octet o3 -> decimal_octet o4 ->
     (accepts (Str (join [dot] [o1; o2; o3; o4])) = true <->
      ~ leading_zero o1 /\ ~ leading_zero o2 /\
      ~ leading_zero o3 /\ ~ leading_zero o4)) /\
  (forall s, s <> [] -> isIp (Str s) = JsBoolean (accepts (Str s))).
Proof.
  assert (Q : forall s, ~ In colon s -> accepts (Str s) = true ->
              exists a b c d,
                a <= 255 /\ b <= 255 /\ c <= 255 /\ d <= 255 /\
                s = dotted [a; b; c; d]).
  { intros s N A. rewrite accepts_no_colon in A by exact N.
    now apply test_ipv4_dotted. }
  assert (ND : forall l, ~ In colon (dotted l)).
  { intros l I. destruct (dotted_ending l) as [N _].
    unfold no_colon in N. rewrite Forall_forall in N. now apply (N colon). }
  split; [|split; [|split; [exact Q|]]].
  - intros a b c d La Lb Lc Ld. rewrite accepts_no_colon by apply ND.
    apply test_ipv4_dotted. exists a, b, c, d. auto.
  - intros l H. destruct (accepts (Str (dotted l))) eqn:A; [|reflexivity].
    destruct (Q _ (ND l) A) as (a & b & c & d & La & Lb & Lc & Ld & E).
    apply dotted_inj in E. subst l. exfalso.
    destruct H as [H|H]; [now apply H|].
    rewrite Exists_exists in H. destruct H as (n & I & Hn). simpl in I.
    intuition lia.
  - do 4 (split; [vm_compute; reflexivity|]).
    split; [exact octets_accepted|exact isIp_boolean].
Qed.

Lemma C7_ipv4_validation_witness :
  192 <= 255 /\ 168 <= 255 /\ 0 <= 255 /\ 255 <= 255 /\
  accepts (Str (dotted [192; 168; 0; 255])) = true.
Proof.
  repeat (split; [lia|]).
  apply (proj1 C7_ipv4_validation 192 168 0 255); lia.
Defined.

Lemma hexgroup_checked : forall h, hexgroup_check h = true -> hexgroup h.
Proof.
  intros h H. unfold hexgroup_check in H.
  apply andb_prop in H. destruct H as [H H3].
  apply andb_prop in H. destruct H as [H1 H2].
  apply Nat.leb_le in H1, H2. split; [lia|].
  rewrite forallb_forall in H3. apply Forall_forall. intros a I.
  apply H3 in I. unfold hexdigit.
  destruct (isDigit a); [now left|].
  destruct (in_range 65%N 70%N a); [right; now left|].
  right. right. exact I.
Qed.

(** C8. [isIp] accepts the IPv6 literals, in full or with one [::]
    compression, their hexadecimal digits in either case, with or
    without a dotted quad in place of the last two groups; and it
    rejects every string in which [::] occurs twice, be the two
    occurrences apart or overlapping in three colons. *)
Theorem C8_ipv6_validation :
  (forall s, ipv6_literal s -> accepts (Str s) = true) /\
  (forall a b c,
     accepts (Str (a ++ [colon; colon] ++ b ++ [colon; colon] ++ c)) = false) /\
  (forall s, 2 <= compressions s -> accepts (Str s) = false).
Proof.
  assert (R : forall s, 2 <= compressions s -> accepts (Str s) = false).
  { intros s L. rewrite accepts_str. apply orb_false_iff. split.
    - destruct (test regexes.ipv4 s) eqn:E; [|reflexivity].
      apply test_ipv4_dotted in E.
      destruct E as (a & b & c & d & _ & _ & _ & _ & ->).
      rewrite (ending_compressions _ (dotted_ending _)) in L. lia.
    - destruct (test regexes.ipv6 s) eqn:E; [|reflexivity].
      apply test_ipv6_inv in E. destruct E as (_ & E & _). lia. }
  split; [|split; [|exact R]].
  - intros s H. rewrite accepts_str, (ipv6_literal_accepted s H).
    apply orb_true_r.
  - intros a b c. apply R. apply compressions_two.
Qed.

Lemma C8_ipv6_validation_witness :
  ipv6_literal (str "fe80::AbCd:192.168.0.1") /\
  accepts (Str (str "fe80::AbCd:192.168.0.1")) = true.
Proof.
  assert (L : ipv6_literal (str "fe80::AbCd:192.168.0.1")).
  { change (str "fe80::AbCd:192.168.0.1")
      with (groups [str "fe80"] ++ [colon; colon] ++
            groups ([str "AbCd"] ++ [dotted [192; 168; 0; 1]])).
    apply ipv6_compressed_quad; try (simpl; lia);
      repeat constructor; apply hexgroup_checked; reflexivity. }
  split; [exact L|]. apply (proj1 C8_ipv6_validation _ L).
Defined.

(** C9, as the claim states it, fails: for [undefined] what [isIp]
    returns is [undefined], which is falsy but is not [false]. *)
Lemma C9_counterexample :
  isIp Undefined = JsUndefined /\ isIp Undefined <> JsBoolean false.
Proof.
  split; [reflexivity|discriminate].
Qed.

(** C9, amended.  For undefined, null, the empty string and "unknown",
    [isIp] yields a falsy value (the input itself for the first three,
    [false] for the last), so that each counts as not an IP; [isIp] is
    a total function and raises nothing. *)
Theorem C9_absent_inputs_rejected :
  accepts Undefined = false /\ accepts Null = false /\
  accepts (Str []) = false /\ accepts (Str (str "unknown")) = false /\
  isIp Undefined = JsUndefined /\ isIp Null = JsNull /\
  isIp (Str []) = JsString [] /\ isIp (Str (str "unknown")) = JsBoolean false.
Proof. repeat split; vm_compute; reflexivity. Qed.

(** C10. Whenever the decomposer returns a value other than [null], that
    value satisfies [isIp]; so the check [getClientIp] makes on it
    amounts to a test for [null], and [getClientIp], having got past
    x-client-ip, returns every non-null result of the decomposer
    without looking at the headers of lower priority. *)
Theorem C10_decomposer_result_is_valid :
  (forall v r,
     getClientIpFromXForwardedFor v = Normal r -> r <> Null -> accepts r = true) /\
  (forall v r,
     getClientIpFromXForwardedFor v = Normal r -> (accepts r = true <-> r <> Null)) /\
  (forall h r,
     accepts (get h "x-client-ip") = false ->
     getClientIpFromXForwardedFor (to_value (get h "x-forwarded-for")) = Normal r ->
     r <> Null ->
     getClientIp (mkRequest (Some h)) = Normal r).
Proof.
  assert (P : forall v r,
            getClientIpFromXForwardedFor v = Normal r -> r <> Null ->
            accepts r = true).
  { intros v r H N. destruct (decomposer_result v r H) as [-> |(s & -> & A)];
      [congruence|exact A]. }
  split; [exact P|]. split.
  - intros v r H. split; [|now apply (P v)].
    intros A ->. discriminate.
  - intros h r X F N. rewrite resolver_first_valid.
    unfold priority. cbn [first_valid]. unfold header_ip at 1 2.
    eval_name_tests. rewrite X, F, (P _ _ F N). reflexivity.
Qed.

Lemma C10_decomposer_result_is_valid_witness :
  let h := [header "X-Forwarded-For" "unknown, 70.41.3.18";
            header "X-Real-IP" "8.8.8.8"] in
  accepts (get h "x-client-ip") = false /\
  getClientIpFromXForwardedFor (to_value (get h "x-forwarded-for"))
    = Normal (Str (str "70.41.3.18")) /\
  Str (str "70.41.3.18") <> Null /\
  getClientIp (mkRequest (Some h)) = Normal (Str (str "70.41.3.18")).
Proof.
  split; [reflexivity|]. split; [reflexivity|]. split; [discriminate|].
  apply (proj2 (proj2 C10_decomposer_result_is_valid));
    [reflexivity|reflexivity|discriminate].
Defined.

(** * Further properties of the program *)

(** ** Header lines *)

Lemma jsstring_eqb_eq : forall s t, jsstring_eqb s t = true <-> s = t.
Proof.
  induction s as [|a s IH]; intros [|b t]; simpl; split; intros H;
    try discriminate; try reflexivity.
  - apply andb_prop in H. destruct H as [E1 E2].
    apply N.eqb_eq in E1. apply IH in E2. now subst.
  - injection H as -> ->. rewrite N.eqb_refl. now apply IH.
Qed.

Lemma same_name_both : forall a b c,
  same_name a b = true -> same_name a c = true -> same_name b c = true.
Proof.
  unfold same_name. intros a b c H1 H2.
  apply jsstring_eqb_eq in H1. apply jsstring_eqb_eq in H2.
  apply jsstring_eqb_eq. congruence.
Qed.

Lemma get_values : forall h name,
  get h name
  = match values h name with
    | [] => Null
    | _ :: _ => Str (join (str ", ") (values h name))
    end.
Proof.
  intros h name. unfold get, values.
  destruct (filter _ h); reflexivity.
Qed.

Lemma values_get : forall h h' name,
  values h name = values h' name -> get h name = get h' name.
Proof.
  intros h h' name E. now rewrite !get_values, E.
Qed.

Lemma values_insert : forall h1 n v h2 name,
  same_name n (str name) = false ->
  values (h1 ++ (n, v) :: h2) name = values (h1 ++ h2) name.
Proof.
  intros h1 n v h2 name H. unfold values.
  rewrite !filter_app. cbn [filter fst]. now rewrite H.
Qed.

Lemma values_without_same : forall h name, values (without h name) name = [].
Proof.
  intros h name. unfold values, without.
  induction h as [|kv h IH]; [reflexivity|]. cbn [filter].
  destruct (same_name (fst kv) (str name)) eqn:E; cbn [negb]; [exact IH|].
  cbn [filter]. now rewrite E.
Qed.

Lemma values_without_other : forall h name name',
  same_name (str name) (str name') = false ->
  values (without h name) name' = values h name'.
Proof.
  intros h name name' D. unfold values, without. f_equal.
  induction h as [|kv h IH]; [reflexivity|]. cbn [filter].
  destruct (same_name (fst kv) (str name)) eqn:E; cbn [negb].
  - destruct (same_name (fst kv) (str name')) eqn:E'; [|exact IH].
    rewrite (same_name_both _ _ _ E E') in D. discriminate.
  - cbn [filter]. now rewrite IH.
Qed.

Lemma header_ip_get : forall h h' name,
  get h name = get h' name -> header_ip h name = header_ip h' name.
Proof.
  intros h h' name E. unfold header_ip. now rewrite E.
Qed.

Lemma first_valid_agree : forall h h' names,
  (forall name, In name names -> header_ip h name = header_ip h' name) ->
  first_valid h names = first_valid h' names.
Proof.
  intros h h'. induction names as [|n names IH]; intros H; [reflexivity|].
  cbn [first_valid]. rewrite (H n) by now left.
  destruct (header_ip h' n); [reflexivity|].
  apply IH. intros name I. apply H. now right.
Qed.

(** [getClientIp] reads the thirteen headers of the table, and nothing
    else of the request. *)
Lemma resolver_agree : forall h h',
  (forall name, In name priority -> header_ip h name = header_ip h' name) ->
  getClientIp (mkRequest (Some h)) = getClientIp (mkRequest (Some h')).
Proof.
  intros h h' H. rewrite !resolver_first_valid. f_equal.
  now apply first_valid_agree.
Qed.

(** The names of the table differ from one another, also without
    regard to case. *)
Lemma priority_distinct : forall a b,
  In a priority -> In b priority -> a <> b ->
  same_name (str a) (str b) = false.
Proof.
  intros a b Ha Hb D. unfold priority in Ha, Hb. simpl in Ha, Hb.
  repeat (destruct Ha as [<- |Ha]; [
    repeat (destruct Hb as [<- |Hb]; [first [now elim D|reflexivity]|]);
    contradiction|]).
  contradiction.
Qed.

(** The values of several header lines, joined, hold a comma. *)
Lemma join_comma : forall v1 v2 vs, In comma (join (str ", ") (v1 :: v2 :: vs)).
Proof.
  intros v1 v2 vs.
  change (join (str ", ") (v1 :: v2 :: vs))
    with (v1 ++ str ", " ++ join (str ", ") (v2 :: vs)).
  apply in_or_app. right. now left.
Qed.

Lemma comma_rejected : forall s, In comma s -> accepts (Str s) = false.
Proof.
  intros s I. destruct (accepts (Str s)) eqn:E; [|reflexivity].
  apply accepts_address, address_chars in E. rewrite Forall_forall in E.
  now elim (address_char_not_comma _ (E _ I)).
Qed.

Lemma repeated_rejected : forall h name,
  2 <= length (values h name) -> accepts (get h name) = false.
Proof.
  intros h name L. rewrite get_values.
  destruct (values h name) as [|v1 [|v2 vs]]; simpl in L; try lia.
  apply comma_rejected, join_comma.
Qed.

(** *** The lines of x-forwarded-for *)

Lemma whitespace_space : whitespace [chr " "].
Proof.
  unfold whitespace. constructor; [vm_compute; reflexivity|constructor].
Qed.

Lemma tokens_join : forall v vs,
  List.map clean (split comma (join (str ", ") (v :: vs)))
  = List.map clean (flat_map (split comma) (v :: vs)).
Proof.
  intros v vs. revert v. induction vs as [|v' vs IH]; intros v.
  - cbn [join flat_map]. now rewrite app_nil_r.
  - change (join (str ", ") (v :: v' :: vs))
      with (v ++ [comma] ++ [chr " "] ++ join (str ", ") (v' :: vs)).
    rewrite (tokens_app v [chr " "] (join (str ", ") (v' :: vs)) whitespace_space).
    rewrite IH. cbn [flat_map]. rewrite !map_app. reflexivity.
Qed.

(** *** The body of the response *)

Lemma address_char_plain : forall c, address_char c -> json_plain c.
Proof.
  intros c [[H|[H|H]]|[-> | ->]]; unfold json_plain;
    try (repeat split; try discriminate; try (left; reflexivity); reflexivity);
    chars_arith; repeat split; try lia.
Qed.

Lemma quoted_plain : forall s, Forall json_plain s -> quoted s = s.
Proof.
  induction s as [|c s IH]; intros F; [reflexivity|].
  inversion F as [|? ? (H1 & H2 & H3 & H4) F']; subst.
  cbn [quoted].
  assert (E : escape c = None).
  { unfold escape.
    repeat match goal with
    | |- context [(c =? ?n)%N] => destruct (N.eqb_spec c n); [exfalso; congruence||lia|]
    end. reflexivity. }
  rewrite E.
  destruct (N.ltb_spec c 32); [lia|].
  assert (L : isLeadingSurrogate c = false).
  { unfold isLeadingSurrogate, in_range.
    destruct (N.leb_spec 55296 c), (N.leb_spec c 56319); simpl; try reflexivity; lia. }
  assert (T : isTrailingSurrogate c = false).
  { unfold isTrailingSurrogate, in_range.
    destruct (N.leb_spec 56320 c), (N.leb_spec c 57343); simpl; try reflexivity; lia. }
  rewrite L, T. f_equal. now apply IH.
Qed.

(** ** The properties *)

Lemma quad_accepted : forall a b c d,
  a <= 255 -> b <= 255 -> c <= 255 -> d <= 255 ->
  accepts (Str (dotted [a; b; c; d])) = true.
Proof.
  intros a b c d La Lb Lc Ld. rewrite accepts_str.
  apply orb_true_iff. left. apply test_ipv4_dotted.
  exists a, b, c, d. auto.
Qed.

Lemma split_sub : forall c s p x, In p (split c s) -> In x p -> In x s.
Proof.
  intros c. induction s as [|a s IH]; intros p x Hp Hx.
  - simpl in Hp. destruct Hp as [<- |[]]. destruct Hx.
  - cbn [split] in Hp. destruct (a =? c)%N.
    + destruct Hp as [<- |Hp]; [destruct Hx|]. right. now apply (IH p).
    + destruct (split c s) as [|q qs] eqn:E; [now elim (split_nonempty c s)|].
      destruct Hp as [<- |Hp].
      * destruct Hx as [<- |Hx]; [now left|]. right. apply (IH q); [now left|exact Hx].
      * right. apply (IH p); [now right|exact Hx].
Qed.

Lemma trim_whitespace : forall w, whitespace w -> trim w = [].
Proof.
  intros w W. rewrite <- (app_nil_r w).
  change (w ++ []) with (w ++ [] ++ []).
  rewrite (trim_pad w [] []); [reflexivity|exact W|constructor].
Qed.

(** X1. Whatever [isIp] accepts is a string, and that string is an
    address: a dotted quad of four decimal numbers from 0 to 255, or an
    IPv6 literal in one of the text forms (eight groups of one to four
    hexadecimal digits, one run of groups replaced by [::], the last
    two groups as a dotted quad).  The two patterns accept nothing
    else. *)
Theorem X1_accepted_is_address : forall v,
  accepts v = true -> exists s, v = Str s /\ address s.
Proof.
  intros v H. destruct (accepts_is_string v H) as (s & ->).
  exists s. split; [reflexivity|now apply accepts_address].
Qed.

Lemma X1_accepted_is_address_witness :
  accepts (Str (str "::ffff:10.0.0.1")) = true /\
  exists s, Str (str "::ffff:10.0.0.1") = Str s /\ address s.
Proof.
  split; [vm_compute; reflexivity|].
  apply (X1_accepted_is_address (Str (str "::ffff:10.0.0.1"))).
  vm_compute. reflexivity.
Defined.

(** X2. A string that [isIp] accepts is written with hexadecimal
    digits, colons and dots only, and is 2 to 45 code units long: a
    string with white space, a bracket, a percent sign, a slash or any
    other character in it, or of more than 45 code units, is
    rejected. *)
Theorem X2_alphabet_and_length : forall s,
  accepts (Str s) = true ->
  Forall address_char s /\ 2 <= length s <= 45.
Proof.
  intros s H. apply accepts_address in H. split.
  - now apply address_chars.
  - now apply address_length.
Qed.

Lemma X2_alphabet_and_length_witness :
  accepts (Str (str "2001:db8::1")) = true /\
  Forall address_char (str "2001:db8::1") /\
  2 <= length (str "2001:db8::1") <= 45.
Proof.
  split; [vm_compute; reflexivity|].
  apply (X2_alphabet_and_length (str "2001:db8::1")).
  vm_compute. reflexivity.
Defined.

(** X3. The cleaning step never alters an address that [isIp] accepts:
    an IPv4 address has no colon and an IPv6 literal has at least two,
    so the cut at a single colon does not apply.  Hence a forwarded-for
    value that is one such address, with any white space around it, is
    returned as that address. *)
Theorem X3_address_kept : forall w1 s w2,
  whitespace w1 -> whitespace w2 -> accepts (Str s) = true ->
  clean (w1 ++ s ++ w2) = s /\
  getClientIpFromXForwardedFor (JsString (w1 ++ s ++ w2)) = Normal (Str s).
Proof.
  intros w1 s w2 W1 W2 H.
  pose proof (accepts_address s H) as A.
  assert (C : clean (w1 ++ s ++ w2) = s).
  { rewrite clean_pad by assumption. now apply clean_address. }
  split; [exact C|].
  rewrite decomposer_tokens, split_none.
  - cbn [List.map first_accepted]. now rewrite C, H.
  - intros I. apply in_app_or in I. destruct I as [I|I];
      [now apply (whitespace_no_comma w1)|].
    apply in_app_or in I. destruct I as [I|I];
      [|now apply (whitespace_no_comma w2)].
    pose proof (address_chars s A) as F. rewrite Forall_forall in F.
    now apply (address_char_not_comma _ (F _ I)).
Qed.

Lemma X3_address_kept_witness :
  whitespace (str " ") /\ whitespace [9%N] /\
  accepts (Str (str "2001:db8::8a2e:370:7334")) = true /\
  clean (str " " ++ str "2001:db8::8a2e:370:7334" ++ [9%N])
  = str "2001:db8::8a2e:370:7334" /\
  getClientIpFromXForwardedFor
    (JsString (str " " ++ str "2001:db8::8a2e:370:7334" ++ [9%N]))
  = Normal (Str (str "2001:db8::8a2e:370:7334")).
Proof.
  assert (W1 : whitespace (str " ")) by (repeat constructor).
  assert (W2 : whitespace [9%N]) by (repeat constructor).
  assert (H : accepts (Str (str "2001:db8::8a2e:370:7334")) = true)
    by (vm_compute; reflexivity).
  split; [exact W1|]. split; [exact W2|]. split; [exact H|].
  apply (X3_address_kept (str " ") (str "2001:db8::8a2e:370:7334") [9%N] W1 W2 H).
Defined.

(** X4. The decomposer works through a comma-separated list from the
    left: for two parts joined by a comma, with or without white space
    after it, the result is the result for the first part when that is
    not [null], and the result for the second part otherwise. *)
Theorem X4_list_from_the_left : forall a w b,
  whitespace w ->
  getClientIpFromXForwardedFor (JsString (a ++ [comma] ++ w ++ b))
  = match getClientIpFromXForwardedFor (JsString a) with
    | Normal Null => getClientIpFromXForwardedFor (JsString b)
    | r => r
    end.
Proof.
  intros a w b W. rewrite !decomposer_tokens, tokens_app by exact W.
  rewrite first_accepted_app.
  destruct (first_accepted (List.map clean (split comma a))); reflexivity.
Qed.

Lemma X4_list_from_the_left_witness :
  whitespace (str " ") /\
  getClientIpFromXForwardedFor
    (JsString (str "unknown" ++ [comma] ++ str " " ++ str "10.0.0.7"))
  = match getClientIpFromXForwardedFor (JsString (str "unknown")) with
    | Normal Null => getClientIpFromXForwardedFor (JsString (str "10.0.0.7"))
    | r => r
    end.
Proof.
  assert (W : whitespace (str " ")) by (repeat constructor).
  split; [exact W|].
  apply (X4_list_from_the_left (str "unknown") (str " ") (str "10.0.0.7") W).
Defined.

(** X5. The text after the colon of an [address:port] token is not
    looked at: an IPv4 address followed by a colon and by any text
    without colon and comma, be it empty or not a number, resolves to
    the address. *)
Theorem X5_port_not_checked : forall a b c d p,
  a <= 255 -> b <= 255 -> c <= 255 -> d <= 255 ->
  ~ In colon p -> ~ In comma p ->
  getClientIpFromXForwardedFor (JsString (dotted [a; b; c; d] ++ [colon] ++ p))
  = Normal (Str (dotted [a; b; c; d])).
Proof.
  intros a b c d p La Lb Lc Ld Np Mp.
  pose proof (quad_accepted a b c d La Lb Lc Ld) as H.
  pose proof (address_chars _ (accepts_address _ H)) as F.
  destruct (dotted_ending [a; b; c; d]) as [Nq _].
  remember (dotted [a; b; c; d]) as q eqn:Eq.
  assert (Q : q <> []) by (subst q; apply dotted_nonempty).
  assert (C : clean (q ++ [colon] ++ p) = q).
  { unfold clean.
    assert (T : trim (q ++ [colon] ++ p) = q ++ colon :: trimEnd p).
    { unfold trim. destruct q as [|c0 q']; [congruence|].
      inversion F as [|? ? H0 _]; subst.
      cbn [app trimStart]. rewrite (address_char_kept _ H0).
      apply (trimEnd_middle (c0 :: q') colon p). reflexivity. }
    rewrite T.
    assert (I : includes colon (q ++ colon :: trimEnd p) = true).
    { apply includes_In, in_or_app. right. now left. }
    rewrite I, split_app, split_none, split_none.
    - reflexivity.
    - intros J. apply Np. now apply trimEnd_sub.
    - intros J. unfold no_colon in Nq. rewrite Forall_forall in Nq.
      now apply (Nq _ J). }
  rewrite decomposer_tokens, split_none.
  - cbn [List.map first_accepted]. now rewrite C, H.
  - intros I. apply in_app_or in I. destruct I as [I|I].
    + rewrite Forall_forall in F. now apply (address_char_not_comma _ (F _ I)).
    + destruct I as [I|I]; [discriminate|now apply Mp].
Qed.

Lemma X5_port_not_checked_witness :
  203 <= 255 /\ 0 <= 255 /\ 113 <= 255 /\ 5 <= 255 /\
  ~ In colon (str "http") /\ ~ In comma (str "http") /\
  getClientIpFromXForwardedFor
    (JsString (dotted [203; 0; 113; 5] ++ [colon] ++ str "http"))
  = Normal (Str (dotted [203; 0; 113; 5])).
Proof.
  assert (N1 : ~ In colon (str "http")) by (simpl; intuition discriminate).
  assert (N2 : ~ In comma (str "http")) by (simpl; intuition discriminate).
  repeat (split; [lia|]). split; [exact N1|]. split; [exact N2|].
  apply (X5_port_not_checked 203 0 113 5 (str "http")); try lia; assumption.
Defined.

Lemma foreign_rejected : forall s c,
  In c s -> ~ address_char c -> accepts (Str s) = false.
Proof.
  intros s c I N. destruct (accepts (Str s)) eqn:E; [|reflexivity].
  apply accepts_address, address_chars in E. rewrite Forall_forall in E.
  now elim N; apply E.
Qed.

Lemma whitespace_no_colon : forall w, whitespace w -> ~ In colon w.
Proof.
  intros w W H. unfold whitespace in W. rewrite Forall_forall in W.
  specialize (W _ H). discriminate.
Qed.

(** The cleaning step keeps the first character of a token that does
    not begin with white space or a colon. *)
Lemma clean_head : forall c t,
  isTrimmed c = false -> c <> colon -> exists r, clean (c :: t) = c :: r.
Proof.
  intros c t K D. unfold clean.
  assert (T : trim (c :: t) = c :: trimEnd t).
  { unfold trim. cbn [trimStart]. rewrite K.
    apply (trimEnd_middle [] c t K). }
  rewrite T.
  destruct (includes colon (c :: trimEnd t)); [|eexists; reflexivity].
  cbn [split]. apply N.eqb_neq in D. rewrite D.
  destruct (split colon (trimEnd t)) as [|p ps] eqn:E;
    [now elim (split_nonempty colon (trimEnd t))|].
  match goal with
  | |- context [if ?b then _ else _] => destruct b
  end; eexists; reflexivity.
Qed.

(** X6. The part kept by the cut at the colon is not trimmed again:
    an IPv4 address with white space between it and the colon of its
    port is not resolved. *)
Theorem X6_cut_not_trimmed : forall a b c d w p,
  a <= 255 -> b <= 255 -> c <= 255 -> d <= 255 ->
  whitespace w -> w <> [] ->
  ~ In colon p -> ~ In comma p ->
  clean (dotted [a; b; c; d] ++ w ++ [colon] ++ p) = dotted [a; b; c; d] ++ w /\
  getClientIpFromXForwardedFor
    (JsString (dotted [a; b; c; d] ++ w ++ [colon] ++ p))
  = Normal Null.
Proof.
  intros a b c d w p La Lb Lc Ld W Nw Np Mp.
  pose proof (quad_accepted a b c d La Lb Lc Ld) as H.
  pose proof (address_chars _ (accepts_address _ H)) as F.
  destruct (dotted_ending [a; b; c; d]) as [Nq _].
  remember (dotted [a; b; c; d]) as q eqn:Eq.
  assert (Q : q <> []) by (subst q; apply dotted_nonempty).
  assert (C : clean (q ++ w ++ [colon] ++ p) = q ++ w).
  { unfold clean.
    assert (T : trim (q ++ w ++ [colon] ++ p) = (q ++ w) ++ colon :: trimEnd p).
    { unfold trim. destruct q as [|c0 q']; [congruence|].
      inversion F as [|? ? H0 _]; subst.
      cbn [app trimStart]. rewrite (address_char_kept _ H0).
      transitivity (trimEnd (((c0 :: q') ++ w) ++ colon :: p)).
      - f_equal. cbn [app]. rewrite <- app_assoc. reflexivity.
      - exact (trimEnd_middle ((c0 :: q') ++ w) colon p eq_refl). }
    rewrite T.
    assert (I : includes colon ((q ++ w) ++ colon :: trimEnd p) = true).
    { apply includes_In, in_or_app. right. now left. }
    rewrite I, split_app, split_none, split_none.
    - reflexivity.
    - intros J. apply Np. now apply trimEnd_sub.
    - intros J. apply in_app_or in J. destruct J as [J|J].
      + unfold no_colon in Nq. rewrite Forall_forall in Nq. now apply (Nq _ J).
      + now apply (whitespace_no_colon w). }
  split; [exact C|].
  rewrite decomposer_tokens, split_none.
  - cbn [List.map first_accepted]. rewrite C.
    destruct w as [|x w']; [congruence|].
    pose proof (Forall_inv W) as Hx. cbn beta in Hx.
    rewrite (foreign_rejected (q ++ x :: w') x); [reflexivity| |].
    + apply in_or_app. right. now left.
    + intros A. apply address_char_kept in A. congruence.
  - intros I. apply in_app_or in I. destruct I as [I|I].
    + rewrite Forall_forall in F. now apply (address_char_not_comma _ (F _ I)).
    + apply in_app_or in I. destruct I as [I|I];
        [now apply (whitespace_no_comma w)|].
      destruct I as [I|I]; [discriminate|now apply Mp].
Qed.

Lemma X6_cut_not_trimmed_witness :
  10 <= 255 /\ 0 <= 255 /\ 0 <= 255 /\ 1 <= 255 /\
  whitespace (str " ") /\ str " " <> [] /\
  ~ In colon (str "8080") /\ ~ In comma (str "8080") /\
  clean (dotted [10; 0; 0; 1] ++ str " " ++ [colon] ++ str "8080")
  = dotted [10; 0; 0; 1] ++ str " " /\
  getClientIpFromXForwardedFor
    (JsString (dotted [10; 0; 0; 1] ++ str " " ++ [colon] ++ str "8080"))
  = Normal Null.
Proof.
  assert (W : whitespace (str " ")) by (repeat constructor).
  assert (Nw : str " " <> []) by discriminate.
  assert (N1 : ~ In colon (str "8080")) by (simpl; intuition discriminate).
  assert (N2 : ~ In comma (str "8080")) by (simpl; intuition discriminate).
  repeat (split; [lia|]). split; [exact W|]. split; [exact Nw|].
  split; [exact N1|]. split; [exact N2|].
  apply (X6_cut_not_trimmed 10 0 0 1 (str " ") (str "8080")); try lia; assumption.
Defined.

(** X7. A forwarded-for value without comma that begins with a
    character other than a hexadecimal digit, a colon, a dot or white
    space is not resolved, whatever follows: the cleaning step keeps
    that character, and [isIp] rejects the token.  So an IPv6 address
    in brackets, with or without a port, yields [null]. *)
Theorem X7_foreign_first_character : forall c t,
  ~ address_char c -> isTrimmed c = false -> ~ In comma (c :: t) ->
  getClientIpFromXForwardedFor (JsString (c :: t)) = Normal Null.
Proof.
  intros c t N K M.
  assert (D : c <> colon) by (intros ->; apply N; right; now left).
  destruct (clean_head c t K D) as (r & C).
  rewrite decomposer_tokens, split_none by exact M.
  cbn [List.map first_accepted]. rewrite C.
  rewrite (foreign_rejected (c :: r) c); [reflexivity|now left|exact N].
Qed.

Lemma X7_foreign_first_character_witness :
  ~ address_char (chr "[") /\ isTrimmed (chr "[") = false /\
  ~ In comma (chr "[" :: str "2001:db8::1]:443") /\
  getClientIpFromXForwardedFor (JsString (chr "[" :: str "2001:db8::1]:443"))
  = Normal Null.
Proof.
  assert (N : ~ address_char (chr "[")).
  { intros [[H|[H|H]]|[H|H]]; discriminate. }
  assert (K : isTrimmed (chr "[") = false) by reflexivity.
  assert (M : ~ In comma (chr "[" :: str "2001:db8::1]:443"))
    by (simpl; intuition discriminate).
  split; [exact N|]. split; [exact K|]. split; [exact M|].
  apply (X7_foreign_first_character (chr "[") (str "2001:db8::1]:443") N K M).
Defined.

(** X8. A forwarded-for value made of commas and white space only, such
    as one with all its addresses left out, yields [null]. *)
Theorem X8_no_token : forall s,
  Forall (fun c => c = comma \/ isTrimmed c = true) s ->
  getClientIpFromXForwardedFor (JsString s) = Normal Null.
Proof.
  intros s F. rewrite decomposer_tokens. f_equal.
  assert (T : Forall whitespace (split comma s)).
  { apply Forall_forall. intros p Hp. apply Forall_forall. intros x Hx.
    rewrite Forall_forall in F.
    destruct (F x (split_sub comma s p x Hp Hx)) as [-> |W]; [|exact W].
    destruct (split_spec comma s) as [_ N]. rewrite Forall_forall in N.
    now elim (N p Hp). }
  induction T as [|p ps W _ IH]; [reflexivity|].
  cbn [List.map first_accepted]. unfold clean at 1.
  rewrite (trim_whitespace p W). exact IH.
Qed.

Lemma X8_no_token_witness :
  Forall (fun c => c = comma \/ isTrimmed c = true) (str " , ,") /\
  getClientIpFromXForwardedFor (JsString (str " , ,")) = Normal Null.
Proof.
  assert (F : Forall (fun c => c = comma \/ isTrimmed c = true) (str " , ,")).
  { repeat constructor; first [now left|now right]. }
  split; [exact F|]. apply (X8_no_token (str " , ,") F).
Defined.

(** X9. [getClientIp] reads the thirteen headers of its list and no
    other: a header line with any other name, wherever it stands in the
    request and whatever its value, does not change the result. *)
Theorem X9_other_headers_ignored : forall h1 n v h2,
  (forall name, In name priority -> same_name n (str name) = false) ->
  getClientIp (mkRequest (Some (h1 ++ (n, v) :: h2)))
  = getClientIp (mkRequest (Some (h1 ++ h2))).
Proof.
  intros h1 n v h2 H. apply resolver_agree. intros name I.
  apply header_ip_get, values_get, values_insert. now apply H.
Qed.

Lemma X9_other_headers_ignored_witness :
  let h1 := [header "X-Real-IP" "10.0.0.9"] in
  let h2 := [header "Forwarded" "192.0.2.60"] in
  (forall name, In name priority -> same_name (str "Via") (str name) = false) /\
  getClientIp (mkRequest (Some (h1 ++ (str "Via", str "8.8.8.8") :: h2)))
  = getClientIp (mkRequest (Some (h1 ++ h2))).
Proof.
  assert (H : forall name,
            In name priority -> same_name (str "Via") (str name) = false).
  { intros name I. unfold priority in I. simpl in I.
    repeat (destruct I as [<- |I]; [reflexivity|]). destruct I. }
  split; [exact H|].
  apply (X9_other_headers_ignored
           [header "X-Real-IP" "10.0.0.9"] (str "Via") (str "8.8.8.8")
           [header "Forwarded" "192.0.2.60"] H).
Defined.

(** X10. A header other than x-forwarded-for that comes on two lines or
    more is never used: [Headers.get] joins the values with a comma,
    and [isIp] rejects the joined text even when every line holds an
    address.  The result is the one for the request without these
    lines. *)
Theorem X10_repeated_header_skipped : forall h name,
  In name priority -> name <> "x-forwarded-for" ->
  2 <= length (values h name) ->
  accepts (get h name) = false /\
  getClientIp (mkRequest (Some h))
  = getClientIp (mkRequest (Some (without h name))).
Proof.
  intros h name I D L.
  pose proof (repeated_rejected h name L) as R. split; [exact R|].
  apply resolver_agree. intros n In_.
  destruct (string_dec name n) as [<- |Dn].
  - assert (G : get (without h name) name = Null).
    { rewrite get_values, values_without_same. reflexivity. }
    unfold header_ip. rewrite G, R.
    apply String.eqb_neq in D. rewrite D. reflexivity.
  - apply header_ip_get, values_get. symmetry.
    apply values_without_other. now apply priority_distinct.
Qed.

Lemma X10_repeated_header_skipped_witness :
  let h := [header "X-Real-IP" "10.0.0.1"; header "Forwarded" "192.0.2.60";
            header "x-real-ip" "10.0.0.1"] in
  In "x-real-ip" priority /\ "x-real-ip" <> "x-forwarded-for" /\
  2 <= length (values h "x-real-ip") /\
  accepts (get h "x-real-ip") = false /\
  getClientIp (mkRequest (Some h))
  = getClientIp (mkRequest (Some (without h "x-real-ip"))).
Proof.
  assert (I : In "x-real-ip" priority) by (simpl; tauto).
  assert (D : "x-real-ip" <> "x-forwarded-for") by discriminate.
  split; [exact I|]. split; [exact D|]. split; [simpl; lia|].
  apply (X10_repeated_header_skipped
           [header "X-Real-IP" "10.0.0.1"; header "Forwarded" "192.0.2.60";
            header "x-real-ip" "10.0.0.1"] "x-real-ip" I D).
  simpl. lia.
Defined.

(** X11. The lines of x-forwarded-for are read as one list: what
    [getClientIp] gets from the decomposer is the first cleaned token
    that [isIp] accepts among the tokens of all the lines with that
    name, taken in the order of the request. *)
Theorem X11_forwarded_lines : forall h,
  getClientIpFromXForwardedFor (to_value (get h "x-forwarded-for"))
  = Normal (first_accepted
              (List.map clean
                 (flat_map (split comma) (values h "x-forwarded-for")))).
Proof.
  intros h. rewrite get_values.
  destruct (values h "x-forwarded-for") as [|v vs]; [reflexivity|].
  cbn [to_value]. rewrite decomposer_tokens, tokens_join. reflexivity.
Qed.

(** X12. The server answers every request, and the body of the answer
    is the JSON text [{"ip":null}] when [getClientIp] finds no address,
    and otherwise [{"ip":"..."}] with the address between the quotes
    exactly as [getClientIp] returned it: an address has no character
    that [JSON.stringify] escapes. *)
Theorem X12_response_body : forall req,
  exists r, fetch req = Normal r /\
    ((getClientIp req = Normal Null /\
      body r = str "{" ++ [quote] ++ str "ip" ++ [quote] ++ str ":null}") \/
     (exists s,
        getClientIp req = Normal (Str s) /\ accepts (Str s) = true /\
        body r = str "{" ++ [quote] ++ str "ip" ++ [quote] ++ str ":"
                 ++ [quote] ++ s ++ [quote] ++ str "}")).
Proof.
  intros req. destruct (resolver_returns req) as (v & E & [-> |(s & -> & A)]).
  - eexists. unfold fetch. rewrite E. split; [reflexivity|]. left.
    split; reflexivity.
  - eexists. unfold fetch. rewrite E. split; [reflexivity|]. right.
    exists s. split; [reflexivity|]. split; [exact A|].
    cbn [bind body Response_json]. unfold SerializeJSONObject.
    cbn [flat_map SerializeJSONProperty snd fst app].
    unfold QuoteJSONString at 2. rewrite quoted_plain.
    + cbn [join]. vm_compute (QuoteJSONString (str "ip")).
      cbn [app]. rewrite <- !app_assoc. reflexivity.
    + eapply Forall_impl; [apply address_char_plain|].
      now apply address_chars, accepts_address.
Qed.
